(** * The bookmark engine (BookmarkManager): ordered hierarchical collection

  A shallow embedding of the in-memory model of [BookmarkManager]
  (bookmarks, nested groups, the priority ordering and the mutation
  operations) together with the properties its specification states.

  Conventions of the embedding:
  - a JavaScript [number] holding a priority, a line or a timestamp
      ([Date.getTime()]) is an integer of [Z];
  - an optional field ([parentId?], [groupId?], [priority?]) is an [option];
      [x ?? d] is [nullish x d];
  - an object of the [bookmarks] / [groups] array is identified by its
      position in the list, so that mutating an object found through
      [find] or through a sorted copy of the array updates that position;
  - [Array.prototype.sort] is a stable sort (ECMAScript 2019), embedded
      as a stable insertion sort driven by the comparator;
  - [generateId()] and [new Date()] are inputs of the operations;
  - persistence ([saveData]) and user messages are not part of the state. *)

From Stdlib Require Import ZArith List String Bool Lia Permutation Sorted.
Import ListNotations.

Local Open Scope string_scope.
Local Open Scope list_scope.

(** ** Data model *)

Module Group.
Record t := mk {
  id : string;
  name : string;
  isDefault : bool;
  created : Z;
  parentId : option string;
  priority : option Z
}.

Definition setIsDefault (v : bool) (g : t) : t :=
  mk (id g) (name g) v (created g) (parentId g) (priority g).
Definition setParentId (v : option string) (g : t) : t :=
  mk (id g) (name g) (isDefault g) (created g) v (priority g).
Definition setPriority (v : option Z) (g : t) : t :=
  mk (id g) (name g) (isDefault g) (created g) (parentId g) v.
End Group.

Module Bookmark.
Record t := mk {
  id : string;
  label : string;
  file : string;
  line : Z;
  column : Z;
  description : option string;
  created : Z;
  groupId : option string;
  priority : option Z
}.

Definition setGroupId (v : option string) (b : t) : t :=
  mk (id b) (label b) (file b) (line b) (column b) (description b)
       (created b) v (priority b).
Definition setPriority (v : option Z) (b : t) : t :=
  mk (id b) (label b) (file b) (line b) (column b) (description b)
       (created b) (groupId b) v.
End Bookmark.

Record State := mkState {
  bookmarks : list Bookmark.t;
  groups : list Group.t
}.

Definition emptyState : State := mkState [] [].

(** ** JavaScript helpers *)

(** [x ?? d] *)
Definition nullish {A : Type} (o : option A) (d : A) : A :=
  match o with Some v => v | None => d end.

(** [a === b] on [string | undefined] *)
Definition optEqb (a b : option string) : bool :=
  match a, b with
  | Some x, Some y => String.eqb x y
  | None, None => true
  | _, _ => false
  end.

(** truthiness of a string: only the empty string is falsy *)
Definition truthy (s : string) : bool :=
  match s with EmptyString => false | _ => true end.

(** [arr.findIndex(p)], [None] standing for [-1] *)
Fixpoint findIndex {A : Type} (p : A -> bool) (l : list A) : option nat :=
  match l with
  | [] => None
  | x :: t => if p x then Some 0%nat else option_map S (findIndex p t)
  end.

(** mutation of the object at position [i] *)
Fixpoint updAt {A : Type} (i : nat) (f : A -> A) (l : list A) : list A :=
  match l, i with
  | [], _ => []
  | x :: t, O => f x :: t
  | x :: t, S j => x :: updAt j f t
  end.

(** mutation of the object that [arr.find(p)] returns *)
Fixpoint updFirst {A : Type} (p : A -> bool) (f : A -> A) (l : list A) : list A :=
  match l with
  | [] => []
  | x :: t => if p x then f x :: t else x :: updFirst p f t
  end.

(** [arr.map((x, i) => f(i, x))], counting from [i] *)
Fixpoint mapi_from {A B : Type} (f : nat -> A -> B) (i : nat) (l : list A) : list B :=
  match l with
  | [] => []
  | x :: t => f i x :: mapi_from f (S i) t
  end.

(** every element paired with its position: the identity of the objects *)
Definition indexed {A : Type} (l : list A) : list (nat * A) :=
  mapi_from (fun i x => (i, x)) 0 l.

(** ** Ordering Policy *)

Section Sorting.
Context {A : Type}.
Variable cmp : A -> A -> Z.

(** [x] is put before the first element it does not have to follow *)
Fixpoint insertBy (x : A) (l : list A) : list A :=
    match l with
    | [] => [x]
    | y :: t => if (cmp x y <=? 0)%Z then x :: y :: t else y :: insertBy x t
    end.

(** [arr.sort(cmp)] *)
Definition sortBy (l : list A) : list A := fold_right insertBy [] l.
End Sorting.

(** The comparison shared by [sortBookmarks] and the comparators of the
    groups: priority descending, then creation time ascending. *)
Definition comparePriority (pa' pb' : option Z) (ca cb : Z) : Z :=
  let pa := nullish pa' 0%Z in
  let pb := nullish pb' 0%Z in
  if negb (pa =? pb)%Z then (pb - pa)%Z else (ca - cb)%Z.

Definition sortBookmarks (a b : Bookmark.t) : Z :=
  comparePriority (Bookmark.priority a) (Bookmark.priority b)
                  (Bookmark.created a) (Bookmark.created b).

(** the comparator written inline in [getBookmarksGrouped] and [moveGroupRelative] *)
Definition sortGroups (a b : Group.t) : Z :=
  comparePriority (Group.priority a) (Group.priority b)
                  (Group.created a) (Group.created b).

Definition bookmarkPrio (b : Bookmark.t) : Z := nullish (Bookmark.priority b) 0%Z.
Definition groupPrio (g : Group.t) : Z := nullish (Group.priority g) 0%Z.

(** ** Hierarchical Collection Engine *)

Definition withGroups (gs : list Group.t) (st : State) : State :=
  mkState (bookmarks st) gs.

Definition withBookmarks (bs : list Bookmark.t) (st : State) : State :=
  mkState bs (groups st).

(** [this.groups.reduce((max, g) => Math.max(max, g.priority ?? 0), 0)] *)
Definition maxPriority (gs : list Group.t) : Z :=
  fold_left (fun mx g => Z.max mx (groupPrio g)) gs 0%Z.

(** [createGroup(groupName, isDefault, parentId)]; [newId] is the value of
    [generateId()] and [now] the one of [new Date()].  The result is the
    returned group ([None] for [undefined]) and the state afterwards. *)
Definition createGroup (newId : string) (now : Z) (groupName : string)
    (isDefault : bool) (parentId : option string) (st : State)
    : option Group.t * State :=
  if negb (truthy groupName) then (None, st)
  else
    let siblings := filter (fun g => optEqb (Group.parentId g) parentId) (groups st) in
    if existsb (fun g => String.eqb (Group.name g) groupName) siblings then (None, st)
    else
      let gs := if isDefault then map (Group.setIsDefault false) (groups st)
                else groups st in
      let newGroup :=
        Group.mk newId groupName isDefault now parentId (Some (maxPriority gs + 1)%Z) in
      (Some newGroup, withGroups (gs ++ [newGroup]) st).

(** [renameGroup(groupId, newName)] *)
Definition renameGroup (groupId newName : string) (st : State) : bool * State :=
  match find (fun g => String.eqb (Group.id g) groupId) (groups st) with
  | None => (false, st)
  | Some group =>
    let siblings :=
      filter (fun g => optEqb (Group.parentId g) (Group.parentId group)
                       && negb (String.eqb (Group.id g) groupId)) (groups st) in
    if existsb (fun g => String.eqb (Group.name g) newName) siblings then (false, st)
    else
      (true,
       withGroups
         (updFirst (fun g => String.eqb (Group.id g) groupId)
                   (fun g => Group.mk (Group.id g) newName (Group.isDefault g)
                                      (Group.created g) (Group.parentId g)
                                      (Group.priority g))
                   (groups st)) st)
  end.

(** [setGroupAsDefault(groupId)]: the flags are cleared before the group is
    looked up. *)
Definition setGroupAsDefault (groupId : string) (st : State) : State :=
  let cleared := map (Group.setIsDefault false) (groups st) in
  match find (fun g => String.eqb (Group.id g) groupId) cleared with
  | None => withGroups cleared st
  | Some _ =>
    let marked :=
      updFirst (fun g => String.eqb (Group.id g) groupId) (Group.setIsDefault true) cleared in
    let mx := maxPriority marked in
    withGroups
      (updFirst (fun g => String.eqb (Group.id g) groupId)
                (Group.setPriority (Some (mx + 1)%Z)) marked) st
  end.

(** One level of the loop over [subGroups]: the state is threaded through
    the recursive calls, [None] when one of them ran out of fuel. *)
Definition forEachGroup (f : string -> State -> option State)
    (subGroups : list Group.t) (st : State) : option State :=
  fold_left (fun acc sub => match acc with
                            | Some s => f (Group.id sub) s
                            | None => None
                            end) subGroups (Some st).

(** [removeGroup(groupId)].  The method calls itself on every child, which
    ends only when the parent links have no cycle: the recursion is bounded
    by [fuel], and [None] means that the bound was reached. *)
Fixpoint removeGroup (fuel : nat) (groupId : string) (st : State) : option State :=
  match fuel with
  | O => None
  | S fuel' =>
    match find (fun g => String.eqb (Group.id g) groupId) (groups st) with
    | None => Some st
    | Some group =>
      let subGroups :=
        filter (fun g => optEqb (Group.parentId g) (Some groupId)) (groups st) in
      match forEachGroup (removeGroup fuel') subGroups st with
      | None => None
      | Some st1 =>
        let bs :=
          map (fun b => if optEqb (Bookmark.groupId b) (Some groupId)
                        then Bookmark.setGroupId (Group.parentId group) b
                        else b) (bookmarks st1) in
        let gs := filter (fun g => negb (String.eqb (Group.id g) groupId)) (groups st1) in
        Some (mkState bs gs)
      end
    end
  end.

(** [delta: 1 | -1] *)
Inductive Delta := Up | Down.

(** [b.groupId ?? '__root__'] *)
Definition bucketKey (b : Bookmark.t) : string :=
  nullish (Bookmark.groupId b) "__root__".

(** the sorted copy [siblings] of [moveBookmarkRelative]; every bookmark
    keeps the position it has in [this.bookmarks] *)
Definition bookmarkSiblings (key : string) (bs : list Bookmark.t)
    : list (nat * Bookmark.t) :=
  sortBy (fun x y => sortBookmarks (snd x) (snd y))
         (filter (fun ib => String.eqb (bucketKey (snd ib)) key) (indexed bs)).

(** [delta === 1 ? idx - 1 : idx + 1] *)
Definition targetIndex (delta : Delta) (idx : nat) : Z :=
  match delta with
  | Up => (Z.of_nat idx - 1)%Z
  | Down => (Z.of_nat idx + 1)%Z
  end.

(** [moveBookmarkRelative(bookmarkId, delta)] *)
Definition moveBookmarkRelative (bookmarkId : string) (delta : Delta) (st : State)
    : bool * State :=
  match find (fun b => String.eqb (Bookmark.id b) bookmarkId) (bookmarks st) with
  | None => (false, st)
  | Some bm =>
    let siblings := bookmarkSiblings (bucketKey bm) (bookmarks st) in
    match findIndex (fun ib => String.eqb (Bookmark.id (snd ib)) bookmarkId) siblings with
    | None => (false, st)
    | Some idx =>
      let target := targetIndex delta idx in
      if (target <? 0)%Z || (target >=? Z.of_nat (List.length siblings))%Z
      then (false, st)
      else
        match nth_error siblings idx, nth_error siblings (Z.to_nat target) with
        | Some (ia, a), Some (ib, b) =>
          let pa := bookmarkPrio a in
          let pb := bookmarkPrio b in
          (true,
           withBookmarks
             (updAt ib (Bookmark.setPriority (Some pa))
                (updAt ia (Bookmark.setPriority (Some pb)) (bookmarks st))) st)
        | _, _ => (false, st)
        end
    end
  end.

(** the position at which [moveGroupToParent] splices the moving group *)
Definition insertIndex (insertBeforeGroupId : option string) (siblings : list Group.t)
    : nat :=
  match insertBeforeGroupId with
  | None => 0%nat
  | Some ib =>
    if truthy ib
    then match findIndex (fun g => String.eqb (Group.id g) ib) siblings with
         | Some idx => idx
         | None => 0%nat
         end
    else 0%nat
  end.

(** [siblings[i].priority = total - i] *)
Definition renumber (siblings : list Group.t) : list Group.t :=
  let total := Z.of_nat (List.length siblings) in
  mapi_from (fun i g => Group.setPriority (Some (total - Z.of_nat i)%Z) g) 0 siblings.

(** [moveGroupToParent(groupId, newParentId, insertBeforeGroupId)].  The
    moving group is taken out of [this.groups] before the name check; the
    branch of the name collision returns with that list. *)
Definition moveGroupToParent (groupId : string) (newParentId : option string)
    (insertBeforeGroupId : option string) (st : State) : State :=
  match find (fun g => String.eqb (Group.id g) groupId) (groups st) with
  | None => st
  | Some movingGroup =>
    let gs1 := filter (fun g => negb (String.eqb (Group.id g) groupId)) (groups st) in
    let targetSiblings :=
      filter (fun g => optEqb (Group.parentId g) newParentId
                       && negb (String.eqb (Group.id g) groupId)) gs1 in
    if existsb (fun g => String.eqb (Group.name g) (Group.name movingGroup)) targetSiblings
    then withGroups gs1 st
    else
      let moving := Group.setParentId newParentId movingGroup in
      let siblings := filter (fun g => optEqb (Group.parentId g) newParentId) gs1 in
      let idx := insertIndex insertBeforeGroupId siblings in
      let spliced := firstn idx siblings ++ moving :: skipn idx siblings in
      withGroups
        (filter (fun g => negb (optEqb (Group.parentId g) newParentId)) gs1
         ++ renumber spliced) st
  end.

(** ** The ready signal

    The constructor leaves both lists empty and starts [loadData], whose
    promise is kept in [this.ready].  [stored] is what the storage holds
    and [isReady] tells whether [loadData] has resolved. *)

Record Manager := mkManager {
  mem : State;
  isReady : bool;
  stored : State
}.

Definition newManager (onDisk : State) : Manager :=
  mkManager emptyState false onDisk.

(** the assignments of [loadData]: the groups get [priority ?? 0] *)
Definition loadData (m : Manager) : Manager :=
  mkManager
    (mkState (bookmarks (stored m))
             (map (fun g => Group.setPriority (Some (groupPrio g)) g) (groups (stored m))))
    true (stored m).

(** [await this.ready]: the rest of the method runs once [loadData] has resolved *)
Definition awaitReady (m : Manager) : Manager :=
  if isReady m then m else loadData m.

(** the body of a method, run on the lists as they are now *)
Definition onMem {A : Type} (body : State -> A * State) (m : Manager) : A * Manager :=
  let (r, s) := body (mem m) in (r, mkManager s (isReady m) (stored m)).

(** methods that start with [await this.ready] *)
Definition callRenameGroup (groupId newName : string) (m : Manager) : bool * Manager :=
  onMem (renameGroup groupId newName) (awaitReady m).

Definition callSetGroupAsDefault (groupId : string) (m : Manager) : unit * Manager :=
  onMem (fun s => (tt, setGroupAsDefault groupId s)) (awaitReady m).

Definition callMoveBookmarkRelative (bookmarkId : string) (delta : Delta) (m : Manager)
    : bool * Manager :=
  onMem (moveBookmarkRelative bookmarkId delta) (awaitReady m).

Definition callMoveGroupToParent (groupId : string) (newParentId insertBefore : option string)
    (m : Manager) : unit * Manager :=
  onMem (fun s => (tt, moveGroupToParent groupId newParentId insertBefore s)) (awaitReady m).

(** methods whose body starts without it *)
Definition callCreateGroup (newId : string) (now : Z) (groupName : string)
    (isDefault : bool) (parentId : option string) (m : Manager)
    : option Group.t * Manager :=
  onMem (createGroup newId now groupName isDefault parentId) m.

Definition callRemoveGroup (fuel : nat) (groupId : string) (m : Manager)
    : option Manager :=
  match removeGroup fuel groupId (mem m) with
  | Some s => Some (mkManager s (isReady m) (stored m))
  | None => None
  end.

(** ** Sequences of calls that concern the default group *)





Definition defaultCount (st : State) : nat :=
  List.length (filter Group.isDefault (groups st)).

(** ** The group forest *)

(** [Descendant gs x y]: following [parentId] from the group [y] leads to [x] *)
Inductive Descendant (gs : list Group.t) (x : string) : string -> Prop :=
| Desc_self : Descendant gs x x
| Desc_child : forall g p,
    In g gs -> Group.parentId g = Some p -> Descendant gs x p ->
    Descendant gs x (Group.id g).

(** no cycle among the parent links: they go up along a rank *)
Definition Acyclic (gs : list Group.t) : Prop :=
  exists rank : string -> nat,
    forall g p, In g gs -> Group.parentId g = Some p ->
                (rank (Group.id g) < rank p)%nat.

Definition UniqueIds (gs : list Group.t) : Prop := NoDup (map Group.id gs).

(** what [removeGroup] does to a bookmark when [removed] tells the ids that go *)
Definition reparent (removed : string -> bool) (target : option string)
    (b : Bookmark.t) : Bookmark.t :=
  match Bookmark.groupId b with
  | Some y => if removed y then Bookmark.setGroupId target b else b
  | None => b
  end.

(** ** Reading the lists *)

(** the fields of a bookmark other than its priority *)
Definition sameButPriority (a b : Bookmark.t) : Prop :=
  Bookmark.id a = Bookmark.id b /\ Bookmark.label a = Bookmark.label b /\
  Bookmark.file a = Bookmark.file b /\ Bookmark.line a = Bookmark.line b /\
  Bookmark.column a = Bookmark.column b /\
  Bookmark.description a = Bookmark.description b /\
  Bookmark.created a = Bookmark.created b /\
  Bookmark.groupId a = Bookmark.groupId b.

(** the fields of a group other than its priority *)
Definition groupButPriority (g : Group.t) : Group.t := Group.setPriority None g.

(** the groups under [parent], in the order of [this.groups] *)
Definition childrenOf (parent : option string) (gs : list Group.t) : list Group.t :=
  filter (fun g => optEqb (Group.parentId g) parent) gs.


(** what the Ordering Policy asks of a comparator [cmp] over entities with
    a priority and a creation time *)
Definition OrderingPolicy {A : Type} (prio created : A -> Z) (cmp : A -> A -> Z) : Prop :=
  (forall a b, (prio b < prio a)%Z -> (cmp a b < 0)%Z /\ (0 < cmp b a)%Z) /\
  (forall a b, prio a = prio b -> (created a < created b)%Z ->
               (cmp a b < 0)%Z /\ (0 < cmp b a)%Z) /\
  (forall a b, cmp a b = 0%Z <-> prio a = prio b /\ created a = created b) /\
  (forall a b, (cmp a b <= 0)%Z \/ (cmp b a <= 0)%Z) /\
  (forall a b, (cmp a b < 0)%Z <-> (0 < cmp b a)%Z) /\
  (forall a b c, (cmp a b <= 0)%Z -> (cmp b c <= 0)%Z -> (cmp a c <= 0)%Z).

(** what sorting a list of siblings with [cmp] yields: the same elements,
    in the order of [cmp], ties left in the order they had *)
Definition StableSort {A : Type} (cmp : A -> A -> Z) (l sorted : list A) : Prop :=
  Permutation sorted l /\
  StronglySorted (fun a b => (cmp a b <= 0)%Z) sorted /\
  forall a, filter (fun x => (cmp a x =? 0)%Z) sorted
            = filter (fun x => (cmp a x =? 0)%Z) l.


(** two bookmarks that differ at most in how the same priority value is
    stored ([undefined] read as [0]) *)
Definition samePriorityValue (a b : Bookmark.t) : Prop :=
  sameButPriority a b /\ bookmarkPrio a = bookmarkPrio b.

(** the groups left once the ids told by [removed] are gone *)
Definition survivors (removed : string -> bool) (gs : list Group.t) : list Group.t :=
  filter (fun g => negb (removed (Group.id g))) gs.

(** a set of ids that holds the children of its members *)
Definition ChildClosed (gs : list Group.t) (s : string -> bool) : Prop :=
  forall g p, In g gs -> Group.parentId g = Some p -> s p = true ->
              s (Group.id g) = true.

(** no bookmark is filed under an id of [s] *)
Definition AvoidedBy (bs : list Bookmark.t) (s : string -> bool) : Prop :=
  forall b y, In b bs -> Bookmark.groupId b = Some y -> s y = false.

(** what a call of [removeGroup] on [x] achieves when the ids of [s] are
    already gone from the groups [gs] the outermost call started with: it
    returns, and the ids that are gone are now those of [s] and of the
    descendants of [x], whose bookmarks are filed under [parent] *)
Definition RemovesSubtree (gs : list Group.t) (fuel : nat) (x : string)
    (parent : option string) (s : string -> bool) (st : State) : Prop :=
  exists st' r,
    removeGroup fuel x st = Some st' /\
    (forall y, r y = true <-> s y = true \/ Descendant gs x y) /\
    groups st' = survivors r gs /\
    bookmarks st' = map (reparent r parent) (bookmarks st).

(** ** The other operations of the engine *)

(** what [addBookmark] reads from [vscode.window.activeTextEditor] *)
Record Editor := mkEditor {
  fileName : string;
  cursorLine : Z;
  cursorCharacter : Z
}.

(** [addBookmark(label)]: [editor] is the active editor ([None] when there
    is none) and [inputLabel] what [showInputBox] resolves to ([None] when
    the box is dismissed); [newId] and [now] as for [createGroup]. *)
Definition addBookmark (editor : option Editor) (inputLabel : option string)
    (newId : string) (now : Z) (st : State) : State :=
  match editor with
  | None => st
  | Some ed =>
    match inputLabel with
    | None => st
    | Some l =>
      if truthy l then
        let defaultGroup := find Group.isDefault (groups st) in
        let bookmark :=
          Bookmark.mk newId l (fileName ed) (cursorLine ed) (cursorCharacter ed) None
                      now (option_map Group.id defaultGroup) (Some 0%Z) in
        withBookmarks (bookmarks st ++ [bookmark]) st
      else st
    end
  end.

(** [removeBookmark(bookmarkId)]: [splice(index, 1)] *)
Definition removeBookmark (bookmarkId : string) (st : State) : State :=
  match findIndex (fun b => String.eqb (Bookmark.id b) bookmarkId) (bookmarks st) with
  | None => st
  | Some index =>
    withBookmarks (firstn index (bookmarks st) ++ skipn (S index) (bookmarks st)) st
  end.

(** [moveBookmarkToGroup(bookmarkId, groupId)] *)
Definition moveBookmarkToGroup (bookmarkId : string) (groupId : option string)
    (st : State) : State :=
  match find (fun b => String.eqb (Bookmark.id b) bookmarkId) (bookmarks st) with
  | None => st
  | Some _ =>
    withBookmarks
      (updFirst (fun b => String.eqb (Bookmark.id b) bookmarkId)
                (Bookmark.setGroupId groupId) (bookmarks st)) st
  end.

(** [setBookmarkPriority(bookmarkId, priority)] *)
Definition setBookmarkPriority (bookmarkId : string) (priority : Z) (st : State) : State :=
  match find (fun b => String.eqb (Bookmark.id b) bookmarkId) (bookmarks st) with
  | None => st
  | Some _ =>
    withBookmarks
      (updFirst (fun b => String.eqb (Bookmark.id b) bookmarkId)
                (Bookmark.setPriority (Some priority)) (bookmarks st)) st
  end.

(** [renameBookmark(bookmarkId, newLabel)] *)
Definition renameBookmark (bookmarkId newLabel : string) (st : State) : bool * State :=
  match find (fun b => String.eqb (Bookmark.id b) bookmarkId) (bookmarks st) with
  | None => (false, st)
  | Some _ =>
    (true,
     withBookmarks
       (updFirst (fun b => String.eqb (Bookmark.id b) bookmarkId)
                 (fun b => Bookmark.mk (Bookmark.id b) newLabel (Bookmark.file b)
                                       (Bookmark.line b) (Bookmark.column b)
                                       (Bookmark.description b) (Bookmark.created b)
                                       (Bookmark.groupId b) (Bookmark.priority b))
                 (bookmarks st)) st)
  end.

(** the sorted copy [siblings] of [moveGroupRelative], with the positions
    of the groups in [this.groups] *)
Definition groupSiblings (parent : option string) (gs : list Group.t)
    : list (nat * Group.t) :=
  sortBy (fun x y => sortGroups (snd x) (snd y))
         (filter (fun ig => optEqb (Group.parentId (snd ig)) parent) (indexed gs)).

(** [moveGroupRelative(groupId, delta)] *)
Definition moveGroupRelative (groupId : string) (delta : Delta) (st : State)
    : bool * State :=
  match find (fun g => String.eqb (Group.id g) groupId) (groups st) with
  | None => (false, st)
  | Some group =>
    let siblings := groupSiblings (Group.parentId group) (groups st) in
    match findIndex (fun ig => String.eqb (Group.id (snd ig)) groupId) siblings with
    | None => (false, st)
    | Some idx =>
      let target := targetIndex delta idx in
      if (target <? 0)%Z || (target >=? Z.of_nat (List.length siblings))%Z
      then (false, st)
      else
        match nth_error siblings idx, nth_error siblings (Z.to_nat target) with
        | Some (ia, a), Some (ib, b) =>
          let pa := groupPrio a in
          let pb := groupPrio b in
          (true,
           withGroups
             (updAt ib (Group.setPriority (Some pa))
                (updAt ia (Group.setPriority (Some pb)) (groups st))) st)
        | _, _ => (false, st)
        end
    end
  end.

(** the loop of [getGroupPath]: [currentGroup] is the group the walk is at
    and [path] what [unshift] has built; the loop ends only when the parent
    links lead to a group without a parent or out of the list, so it is
    bounded by [fuel], [None] meaning that the bound was reached *)
Fixpoint walkGroupPath (fuel : nat) (gs : list Group.t) (currentGroup : option Group.t)
    (path : list string) : option (list string) :=
  match currentGroup with
  | None => Some path
  | Some g =>
    match fuel with
    | O => None
    | S fuel' =>
      let path' := Group.name g :: path in
      match Group.parentId g with
      | Some p =>
        if truthy p
        then walkGroupPath fuel' gs
               (find (fun h => String.eqb (Group.id h) p) gs) path'
        else Some path'
      | None => Some path'
      end
    end
  end.

(** [getGroupPath(groupId)]: the names joined with [' > '] *)
Definition getGroupPath (fuel : nat) (groupId : string) (st : State) : option string :=
  option_map (String.concat " > ")
    (walkGroupPath fuel (groups st)
       (find (fun g => String.eqb (Group.id g) groupId) (groups st)) []).

(** ** getBookmarksGrouped *)

(** a [Map<string, V[]>], its entries in the order of insertion *)
Definition JsMap (V : Type) : Type := list (string * list V).

Definition mapGet {V : Type} (k : string) (m : JsMap V) : option (list V) :=
  option_map snd (find (fun e => String.eqb (fst e) k) m).

Definition mapHas {V : Type} (k : string) (m : JsMap V) : bool :=
  existsb (fun e => String.eqb (fst e) k) m.

(** [m.set(k, v)] *)
Definition mapSet {V : Type} (k : string) (v : list V) (m : JsMap V) : JsMap V :=
  if mapHas k m
  then updFirst (fun e => String.eqb (fst e) k) (fun e => (fst e, v)) m
  else m ++ [(k, v)].

(** [m.get(k).push(x)] for a key that is there *)
Definition mapPush {V : Type} (k : string) (x : V) (m : JsMap V) : JsMap V :=
  updFirst (fun e => String.eqb (fst e) k) (fun e => (fst e, snd e ++ [x])) m.

(** the loop that files the bookmarks: [!bookmark.groupId] holds for an
    absent and for an empty id; a bookmark of a group that is not in the
    map goes to [ungrouped] *)
Definition fileBookmark (acc : list Bookmark.t * JsMap Bookmark.t) (b : Bookmark.t)
    : list Bookmark.t * JsMap Bookmark.t :=
  let (ungrouped, groupedBookmarks) := acc in
  match Bookmark.groupId b with
  | None => (ungrouped ++ [b], groupedBookmarks)
  | Some gid =>
    if truthy gid then
      match mapGet gid groupedBookmarks with
      | Some _ => (ungrouped, mapPush gid b groupedBookmarks)
      | None => (ungrouped ++ [b], groupedBookmarks)
      end
    else (ungrouped ++ [b], groupedBookmarks)
  end.

(** the loop that files the groups under their parents *)
Definition fileGroup (acc : list Group.t * JsMap Group.t) (g : Group.t)
    : list Group.t * JsMap Group.t :=
  let (rootGroups, groupedSubGroups) := acc in
  match Group.parentId g with
  | None => (rootGroups ++ [g], groupedSubGroups)
  | Some p =>
    if truthy p then
      let m := if mapHas p groupedSubGroups then groupedSubGroups
               else mapSet p [] groupedSubGroups in
      (rootGroups, mapPush p g m)
    else (rootGroups ++ [g], groupedSubGroups)
  end.

Record Grouped := mkGrouped {
  ungrouped : list Bookmark.t;
  rootGroups : list Group.t;
  groupedBookmarks : JsMap Bookmark.t;
  groupedSubGroups : JsMap Group.t
}.

(** [getBookmarksGrouped()] *)
Definition getBookmarksGrouped (st : State) : Grouped :=
  let emptyLists := fold_left (fun m g => mapSet (Group.id g) [] m) (groups st) [] in
  let filedBookmarks := fold_left fileBookmark (bookmarks st) ([], emptyLists) in
  let filedGroups := fold_left fileGroup (groups st) ([], []) in
  mkGrouped
    (sortBy sortBookmarks (fst filedBookmarks))
    (sortBy sortGroups (fst filedGroups))
    (map (fun e => (fst e, sortBy sortBookmarks (snd e))) (snd filedBookmarks))
    (map (fun e => (fst e, sortBy sortGroups (snd e))) (snd filedGroups)).

(** two groups are told apart among siblings by their parent and name *)
Definition siblingKey (g : Group.t) : option string * string :=
  (Group.parentId g, Group.name g).

(** no two groups with the same [parentId] have the same name *)
Definition NoSiblingNameClash (gs : list Group.t) : Prop :=
  NoDup (map siblingKey gs).

(** the group [g] under the name [newName] *)
Definition renamed (newName : string) (g : Group.t) : Group.t :=
  Group.mk (Group.id g) newName (Group.isDefault g) (Group.created g)
           (Group.parentId g) (Group.priority g).

(** the bookmark has a non-empty [groupId] that is [k] *)
Definition filedUnder (k : string) (b : Bookmark.t) : bool :=
  match Bookmark.groupId b with
  | Some gid => truthy gid && String.eqb gid k
  | None => false
  end.

(** the bookmark has a non-empty [groupId] that is the id of a group *)
Definition hasGroup (gs : list Group.t) (b : Bookmark.t) : bool :=
  match Bookmark.groupId b with
  | Some gid => truthy gid && existsb (fun g => String.eqb (Group.id g) gid) gs
  | None => false
  end.

(** the group has a non-empty [parentId] that is [k] *)
Definition subGroupOf (k : string) (g : Group.t) : bool :=
  match Group.parentId g with
  | Some p => truthy p && String.eqb p k
  | None => false
  end.

(** the group has no [parentId] or an empty one *)
Definition isRootGroup (g : Group.t) : bool :=
  match Group.parentId g with
  | Some p => negb (truthy p)
  | None => true
  end.

(** ** The tree view (BookmarkTreeProvider) *)

(** [getGroupTotalBookmarkCount(groupId, data)]: the bookmarks of the group
    and, by a call on every sub-group, those below it; the recursion is
    bounded by [fuel] as in [removeGroup] *)
Fixpoint getGroupTotalBookmarkCount (fuel : nat) (groupId : string) (data : Grouped)
    : option nat :=
  match fuel with
  | O => None
  | S fuel' =>
    let directBookmarks := nullish (mapGet groupId (groupedBookmarks data)) [] in
    let subGroups := nullish (mapGet groupId (groupedSubGroups data)) [] in
    fold_left (fun count subGroup =>
                 match count, getGroupTotalBookmarkCount fuel' (Group.id subGroup) data with
                 | Some c, Some n => Some (c + n)%nat
                 | _, _ => None
                 end)
              subGroups (Some (List.length directBookmarks))
  end.

(** the bookmark has a non-empty [groupId] that is in [ids] *)
Definition filedIn (ids : string -> bool) (b : Bookmark.t) : bool :=
  match Bookmark.groupId b with
  | Some gid => truthy gid && ids gid
  | None => false
  end.

(** the bookmark [b] under the label [newLabel] *)
Definition relabelled (newLabel : string) (b : Bookmark.t) : Bookmark.t :=
  Bookmark.mk (Bookmark.id b) newLabel (Bookmark.file b) (Bookmark.line b)
              (Bookmark.column b) (Bookmark.description b) (Bookmark.created b)
              (Bookmark.groupId b) (Bookmark.priority b).

(** ** The graph view (VisualizationManager) *)

Module LinkNode.
(** [x] and [y] are positions that the engine only carries: their type is
    left open *)
Record t (Coordinate : Type) := mk {
  id : string;
  label : string;
  bookmarkId : option string;
  file : option string;
  line : option Z;
  column : option Z;
  x : option Coordinate;
  y : option Coordinate
}.
Arguments mk {Coordinate}.
Arguments id {Coordinate}.
Arguments label {Coordinate}.
Arguments bookmarkId {Coordinate}.
Arguments file {Coordinate}.
Arguments line {Coordinate}.
Arguments column {Coordinate}.
Arguments x {Coordinate}.
Arguments y {Coordinate}.
End LinkNode.

Module LinkEdge.
Record t := mk {
  id : string;
  source : string;
  target : string;
  label : option string
}.
End LinkEdge.

Record VisualizationData (Coordinate : Type) := mkData {
  nodes : list (LinkNode.t Coordinate);
  edges : list LinkEdge.t
}.
Arguments mkData {Coordinate}.
Arguments nodes {Coordinate}.
Arguments edges {Coordinate}.

(** [n.bookmarkId] is truthy: there and not empty *)
Definition refersToBookmark {C : Type} (n : LinkNode.t C) : bool :=
  match LinkNode.bookmarkId n with
  | Some bid => truthy bid
  | None => false
  end.

(** the node that [updateVisualizationData] makes for a bookmark *)
Definition bookmarkNode {C : Type} (b : Bookmark.t) : LinkNode.t C :=
  LinkNode.mk (Bookmark.id b) (Bookmark.label b) (Some (Bookmark.id b))
              (Some (Bookmark.file b)) (Some (Bookmark.line b))
              (Some (Bookmark.column b)) None None.

(** [updateVisualizationData(bookmarks)], on [this.data] *)
Definition updateVisualizationData {C : Type} (bs : list Bookmark.t)
    (data : VisualizationData C) : VisualizationData C :=
  let bookmarkNodes := map bookmarkNode bs in
  let newNodes :=
    filter (fun n => negb (existsb (fun m => String.eqb (LinkNode.id m) (LinkNode.id n))
                                   (nodes data))) bookmarkNodes in
  mkData
    (filter (fun n => negb (refersToBookmark n)
                      || existsb (fun b => optEqb (Some (Bookmark.id b))
                                                  (LinkNode.bookmarkId n)) bs)
            (nodes data)
     ++ newNodes)
    (edges data).

(** [deleteNode(nodeId)] *)
Definition deleteNode {C : Type} (nodeId : string) (data : VisualizationData C)
    : VisualizationData C :=
  mkData
    (filter (fun n => negb (String.eqb (LinkNode.id n) nodeId)) (nodes data))
    (filter (fun e => negb (String.eqb (LinkEdge.source e) nodeId)
                      && negb (String.eqb (LinkEdge.target e) nodeId)) (edges data)).

(** [deleteEdge(edgeId)] *)
Definition deleteEdge {C : Type} (edgeId : string) (data : VisualizationData C)
    : VisualizationData C :=
  mkData (nodes data)
         (filter (fun e => negb (String.eqb (LinkEdge.id e) edgeId)) (edges data)).

(** every edge goes from a node of the graph to a node of the graph *)
Definition EdgesResolved {C : Type} (data : VisualizationData C) : Prop :=
  forall e, In e (edges data) ->
            (exists n, In n (nodes data) /\ LinkNode.id n = LinkEdge.source e) /\
            (exists n, In n (nodes data) /\ LinkNode.id n = LinkEdge.target e).

(** * Properties *)

(** ** Lists *)

Lemma optEqb_eq (a b : option string) : optEqb a b = true <-> a = b.
Proof.
  destruct a as [x|], b as [y|]; simpl; try (split; congruence).
  rewrite String.eqb_eq. split; congruence.
Qed.



Lemma mapi_from_length {A B : Type} (f : nat -> A -> B) (s : nat) (l : list A) :
  List.length (mapi_from f s l) = List.length l.
Proof. revert s. induction l; intros; simpl; auto. Qed.

Lemma mapi_from_nth {A B : Type} (f : nat -> A -> B) (s k : nat) (l : list A) :
  nth_error (mapi_from f s l) k = option_map (f (s + k)%nat) (nth_error l k).
Proof.
  revert s k. induction l as [|x t IH]; intros s [|k]; simpl; try reflexivity.
  - now rewrite Nat.add_0_r.
  - rewrite IH. now rewrite Nat.add_succ_r.
Qed.


Lemma indexed_fst {A : Type} (s : nat) (l : list A) :
  map fst (mapi_from (fun i x => (i, x)) s l) = seq s (List.length l).
Proof. revert s. induction l as [|x t IH]; intros s; simpl; [|rewrite IH]; auto. Qed.


Lemma indexed_In {A : Type} (l : list A) (i : nat) (x : A) :
  In (i, x) (indexed l) <-> nth_error l i = Some x.
Proof.
  unfold indexed. split.
  - intros H. apply In_nth_error in H as [k Hk].
    rewrite mapi_from_nth in Hk. simpl in Hk.
    destruct (nth_error l k) eqn:E; simpl in Hk; [|discriminate].
    now inversion Hk; subst.
  - intros H. apply nth_error_In with (n := i).
    rewrite mapi_from_nth, H. reflexivity.
Qed.

(** filtering the indexed list keeps the positions distinct *)
Lemma filter_positions_distinct {A : Type} (keep : nat * A -> bool)
    (l : list (nat * A)) :
  NoDup (map fst l) -> NoDup (map fst (filter keep l)).
Proof.
  induction l as [|[i x] t IH]; simpl; intros ND; [constructor|].
  apply NoDup_cons_iff in ND as [Hi Ht].
  destruct (keep (i, x)); simpl; [|now apply IH].
  apply NoDup_cons; [|now apply IH].
  contradict Hi. apply in_map_iff in Hi as ([j y] & Hj & Hy).
  simpl in Hj. subst j. apply filter_In in Hy as [Hy _].
  now apply (in_map fst) in Hy.
Qed.


Lemma updAt_nth_same {A : Type} (i : nat) (f : A -> A) (l : list A) :
  nth_error (updAt i f l) i = option_map f (nth_error l i).
Proof. revert i. induction l; intros [|i]; simpl; auto. Qed.

Lemma updAt_nth_other {A : Type} (i k : nat) (f : A -> A) (l : list A) :
  k <> i -> nth_error (updAt i f l) k = nth_error l k.
Proof.
  revert i k. induction l; intros [|i] [|k] H; simpl; auto; try congruence.
Qed.

Lemma updAt_Forall2 {A : Type} (R : A -> A -> Prop) (i : nat) (f : A -> A)
    (l l' : list A) :
  (forall x y, R x y -> R x (f y)) ->
  Forall2 R l l' -> Forall2 R l (updAt i f l').
Proof.
  intros Hf H. revert i. induction H; intros [|i]; simpl; constructor; auto.
Qed.

Lemma Forall2_refl {A : Type} (R : A -> A -> Prop) (l : list A) :
  (forall x, R x x) -> Forall2 R l l.
Proof. intros H. induction l; constructor; auto. Qed.

Lemma findIndex_Some {A : Type} (p : A -> bool) (l : list A) (idx : nat) :
  findIndex p l = Some idx ->
  exists x, nth_error l idx = Some x /\ p x = true /\
            forall k y, (k < idx)%nat -> nth_error l k = Some y -> p y = false.
Proof.
  revert idx. induction l as [|x t IH]; simpl; intros idx H; [discriminate|].
  destruct (p x) eqn:Px.
  - inversion H; subst. exists x. repeat split; auto. intros k y Hk. lia.
  - destruct (findIndex p t) as [j|]; simpl in H; [|discriminate].
    inversion H; subst. destruct (IH j eq_refl) as (y & Hy & Py & Hlt).
    exists y. repeat split; auto. intros [|k] z Hk Hz; simpl in Hz.
    + now inversion Hz; subst.
    + apply (Hlt k); [lia | assumption].
Qed.

Lemma findIndex_first {A : Type} (p : A -> bool) (l : list A) (idx : nat) (x : A) :
  nth_error l idx = Some x -> p x = true ->
  (forall k y, (k < idx)%nat -> nth_error l k = Some y -> p y = false) ->
  findIndex p l = Some idx.
Proof.
  revert idx. induction l as [|z t IH]; intros [|idx] Hx Px Hlt; simpl in *;
    try discriminate.
  - inversion Hx; subst. now rewrite Px.
  - rewrite (Hlt 0%nat z) by (auto; lia).
    rewrite (IH idx Hx Px); [reflexivity|].
    intros k y Hk Hy. apply (Hlt (S k)); [lia | assumption].
Qed.

(** ** Sorting with a comparator *)

Section SortFacts.
Context {A : Type}.
Variable cmp : A -> A -> Z.

Lemma insertBy_perm (x : A) (l : list A) : Permutation (insertBy cmp x l) (x :: l).
Proof.
  induction l as [|y t IH]; simpl.
  - apply Permutation_refl.
  - destruct (cmp x y <=? 0)%Z.
    + apply Permutation_refl.
    + eapply perm_trans; [apply perm_skip, IH | apply perm_swap].
Qed.

Lemma sortBy_perm (l : list A) : Permutation (sortBy cmp l) l.
Proof.
  induction l as [|x t IH]; simpl.
  - constructor.
  - eapply perm_trans; [apply insertBy_perm | now apply perm_skip].
Qed.


Lemma sortBy_In (l : list A) (x : A) : In x (sortBy cmp l) <-> In x l.
Proof.
  split; apply Permutation_in; [|apply Permutation_sym]; apply sortBy_perm.
Qed.

(** an element never passes one of its own class *)
Lemma insertBy_filter (p : A -> bool) (x : A) (l : list A) :
  (forall y, In y l -> p x = true -> p y = true -> (cmp x y <= 0)%Z) ->
  filter p (insertBy cmp x l) = filter p (x :: l).
Proof.
  induction l as [|y t IH]; intros Hcls; simpl; [reflexivity|].
  destruct (cmp x y <=? 0)%Z eqn:E; simpl; [reflexivity|].
  rewrite IH by (intros; apply Hcls; simpl; auto). simpl.
  destruct (p x) eqn:Px, (p y) eqn:Py; try reflexivity.
  apply Z.leb_gt in E.
  specialize (Hcls y (or_introl eq_refl) eq_refl Py). lia.
Qed.

Lemma sortBy_stable (p : A -> bool) (l : list A) :
  (forall x y, p x = true -> p y = true -> (cmp x y <= 0)%Z) ->
  filter p (sortBy cmp l) = filter p l.
Proof.
  intros Hcls. induction l as [|x t IH]; simpl; [reflexivity|].
  rewrite insertBy_filter by (intros; now apply Hcls).
  simpl. now rewrite IH.
Qed.

Hypothesis cmp_total : forall a b, (cmp a b <= 0)%Z \/ (cmp b a <= 0)%Z.
Hypothesis cmp_trans :
  forall a b c, (cmp a b <= 0)%Z -> (cmp b c <= 0)%Z -> (cmp a c <= 0)%Z.

Lemma insertBy_sorted (x : A) (l : list A) :
  StronglySorted (fun a b => (cmp a b <= 0)%Z) l ->
  StronglySorted (fun a b => (cmp a b <= 0)%Z) (insertBy cmp x l).
Proof.
  induction 1 as [|y t Hs IH Hy]; simpl.
  - repeat constructor.
  - destruct (cmp x y <=? 0)%Z eqn:E.
    + apply Z.leb_le in E. constructor; [now constructor|].
      constructor; [exact E|].
      rewrite Forall_forall in *. intros z Hz. eapply cmp_trans; eauto.
    + apply Z.leb_gt in E. constructor; [exact IH|].
      rewrite Forall_forall in *. intros z Hz.
      apply (Permutation_in _ (insertBy_perm x t)) in Hz.
      destruct Hz as [<-|Hz]; [|now apply Hy].
      destruct (cmp_total x y); [lia|assumption].
Qed.

Lemma sortBy_sorted (l : list A) :
  StronglySorted (fun a b => (cmp a b <= 0)%Z) (sortBy cmp l).
Proof.
  induction l as [|x t IH]; simpl; [constructor | now apply insertBy_sorted].
Qed.

End SortFacts.

Lemma comparePriority_policy {A : Type} (prio : A -> option Z) (created : A -> Z) :
  OrderingPolicy (fun a => nullish (prio a) 0%Z) created
                 (fun a b => comparePriority (prio a) (prio b) (created a) (created b)).
Proof.
  unfold OrderingPolicy, comparePriority.
  repeat split; intros;
    repeat match goal with
           | |- context [(?x =? ?y)%Z] => destruct (Z.eqb_spec x y); simpl in *
           | H : context [(?x =? ?y)%Z] |- _ => destruct (Z.eqb_spec x y); simpl in *
           end; try lia.
Qed.

Lemma sortBy_StableSort {A : Type} (prio created : A -> Z) (cmp : A -> A -> Z)
    (l : list A) :
  OrderingPolicy prio created cmp -> StableSort cmp l (sortBy cmp l).
Proof.
  intros (_ & _ & Hz & Htot & _ & Htr). repeat split.
  - apply sortBy_perm.
  - now apply sortBy_sorted.
  - intros a. apply sortBy_stable. intros x y Hx Hy.
    apply Z.eqb_eq, Hz in Hx. apply Z.eqb_eq, Hz in Hy.
    assert (cmp x y = 0%Z) as ->; [apply Hz; intuition congruence | lia].
Qed.

(** C9. The comparison of the Ordering Policy, the same for bookmarks
    ([sortBookmarks]) and for groups, is a total order rule: the entity with
    the higher priority comes strictly first, with equal priorities the one
    created earlier comes first, and sorting a list of siblings with it
    gives a sorted permutation in which ties keep their order (stable). *)
Theorem ordering_policy_total_and_stable :
  OrderingPolicy bookmarkPrio Bookmark.created sortBookmarks /\
  OrderingPolicy groupPrio Group.created sortGroups /\
  (forall bs, StableSort sortBookmarks bs (sortBy sortBookmarks bs)) /\
  (forall gs, StableSort sortGroups gs (sortBy sortGroups gs)).
Proof.
  assert (Hb : OrderingPolicy bookmarkPrio Bookmark.created sortBookmarks)
    by apply (comparePriority_policy Bookmark.priority Bookmark.created).
  assert (Hg : OrderingPolicy groupPrio Group.created sortGroups)
    by apply (comparePriority_policy Group.priority Group.created).
  split; [exact Hb|]. split; [exact Hg|]. split; intros l.
  - exact (sortBy_StableSort _ _ _ l Hb).
  - exact (sortBy_StableSort _ _ _ l Hg).
Qed.

(** ** createGroup *)

Lemma truthy_nonempty (s : string) : truthy s = true <-> s <> "".
Proof. destruct s; simpl; split; congruence. Qed.

Lemma sibling_name_taken (gs : list Group.t) (parent : option string) (n : string) :
  existsb (fun g => String.eqb (Group.name g) n)
          (filter (fun g => optEqb (Group.parentId g) parent) gs) = true
  <-> exists g, In g gs /\ Group.parentId g = parent /\ Group.name g = n.
Proof.
  rewrite existsb_exists. split.
  - intros (g & Hin & Hn). apply filter_In in Hin as [Hin Hp].
    exists g. now rewrite <- optEqb_eq, <- String.eqb_eq.
  - intros (g & Hin & Hp & Hn). exists g. rewrite filter_In.
    now rewrite optEqb_eq, String.eqb_eq.
Qed.

Lemma sibling_name_free (gs : list Group.t) (parent : option string) (n : string) :
  existsb (fun g => String.eqb (Group.name g) n)
          (filter (fun g => optEqb (Group.parentId g) parent) gs) = false
  <-> forall g, In g gs -> Group.name g = n -> Group.parentId g <> parent.
Proof.
  split.
  - intros E g Hin Hn Hp.
    assert (T : existsb (fun g => String.eqb (Group.name g) n)
                  (filter (fun g => optEqb (Group.parentId g) parent) gs) = true)
      by (apply sibling_name_taken; eauto).
    congruence.
  - intros H.
    destruct (existsb _ _) eqn:E; [|reflexivity].
    apply sibling_name_taken in E as (g & Hin & Hp & Hn).
    now destruct (H g Hin Hn).
Qed.

Lemma createGroup_accepts (newId : string) (now : Z) (groupName : string)
    (isDefault : bool) (parentId : option string) (st : State) :
  groupName <> "" ->
  (forall g, In g (groups st) -> Group.name g = groupName ->
             Group.parentId g <> parentId) ->
  let gs := if isDefault then map (Group.setIsDefault false) (groups st)
            else groups st in
  let g := Group.mk newId groupName isDefault now parentId
                    (Some (maxPriority gs + 1)%Z) in
  createGroup newId now groupName isDefault parentId st
  = (Some g, withGroups (gs ++ [g]) st).
Proof.
  intros Hne Hfree. apply truthy_nonempty in Hne. apply sibling_name_free in Hfree.
  unfold createGroup. now rewrite Hne, Hfree.
Qed.

(** C8, as stated, fails for the empty name: [createGroup] returns
    [undefined] for it although the only group of that name is under
    another parent. *)
Lemma createGroup_empty_name_rejected :
  let other := Group.mk "g1" "" false 1%Z (Some "p") (Some 1%Z) in
  let st := mkState [] [other] in
  (forall g, In g (groups st) -> Group.name g = "" -> Group.parentId g <> None) /\
  (exists g, In g (groups st) /\ Group.name g = "" /\ Group.parentId g <> None) /\
  createGroup "g2" 2%Z "" false None st = (None, st).
Proof.
  simpl. split; [|split].
  - intros g [<-|[]] _. discriminate.
  - eexists. split; [left; reflexivity|]. split; [reflexivity|discriminate].
  - reflexivity.
Qed.

(** C8 (amended). A call of [createGroup] whose name is taken by a group
    with the same [parentId] (absent included) returns no group and leaves
    the state as it was; a call with a non-empty name that no group with
    the same [parentId] has (groups under other parents may have it)
    returns the new group and appends it to the group list, whose other
    entries change by nothing but the cleared default flag when
    [isDefault] is set. *)
Theorem createGroup_sibling_names
    (newId : string) (now : Z) (groupName : string) (isDefault : bool)
    (parentId : option string) (st : State) :
  ((exists g, In g (groups st) /\ Group.parentId g = parentId /\
              Group.name g = groupName) ->
   createGroup newId now groupName isDefault parentId st = (None, st)) /\
  (groupName <> "" ->
   (forall g, In g (groups st) -> Group.name g = groupName ->
              Group.parentId g <> parentId) ->
   exists g,
     createGroup newId now groupName isDefault parentId st
     = (Some g,
        withGroups ((if isDefault then map (Group.setIsDefault false) (groups st)
                     else groups st) ++ [g]) st) /\
     Group.id g = newId /\ Group.name g = groupName /\
     Group.isDefault g = isDefault /\ Group.parentId g = parentId).
Proof.
  unfold createGroup. split.
  - intros Hex. apply sibling_name_taken in Hex.
    destruct (truthy groupName); simpl; [|reflexivity].
    now rewrite Hex.
  - intros Hne Hfree. fold (createGroup newId now groupName isDefault parentId st).
    rewrite createGroup_accepts by assumption.
    eexists. split; [reflexivity|]. simpl. auto.
Qed.

Lemma createGroup_sibling_names_witness :
  let work := Group.mk "g1" "Work" false 1%Z None (Some 1%Z) in
  let sub := Group.mk "g2" "Notes" false 2%Z (Some "g1") (Some 2%Z) in
  let st := mkState [] [work; sub] in
  createGroup "g3" 3%Z "Work" true None st = (None, st) /\
  exists g,
    createGroup "g3" 3%Z "Notes" false None st
    = (Some g, withGroups (groups st ++ [g]) st) /\
    Group.id g = "g3" /\ Group.name g = "Notes" /\
    Group.isDefault g = false /\ Group.parentId g = None.
Proof.
  intros work sub st. split.
  - apply (createGroup_sibling_names "g3" 3%Z "Work" true None st).
    exists work. simpl. auto.
  - apply (createGroup_sibling_names "g3" 3%Z "Notes" false None st).
    + discriminate.
    + intros g [<-|[<-|[]]]; simpl; intros; discriminate.
Defined.

(** ** The default group *)


Lemma find_cleared (x : string) (gs : list Group.t) :
  find (fun g => String.eqb (Group.id g) x) (map (Group.setIsDefault false) gs)
  = option_map (Group.setIsDefault false)
               (find (fun g => String.eqb (Group.id g) x) gs).
Proof.
  induction gs as [|g t IH]; simpl; [reflexivity|].
  destruct (String.eqb (Group.id g) x); simpl; auto.
Qed.




Lemma find_existsb {A : Type} (p : A -> bool) (l : list A) :
  existsb p l = match find p l with Some _ => true | None => false end.
Proof. induction l as [|x t IH]; simpl; [reflexivity|]. now destruct (p x). Qed.










(** ** moveBookmarkRelative *)

Lemma bookmarkSiblings_In (key : string) (bs : list Bookmark.t) (i : nat)
    (x : Bookmark.t) :
  In (i, x) (bookmarkSiblings key bs) <-> nth_error bs i = Some x /\ bucketKey x = key.
Proof.
  unfold bookmarkSiblings. rewrite sortBy_In, filter_In, indexed_In. simpl.
  now rewrite String.eqb_eq.
Qed.

Lemma bookmarkSiblings_NoDup (key : string) (bs : list Bookmark.t) :
  NoDup (map fst (bookmarkSiblings key bs)).
Proof.
  unfold bookmarkSiblings.
  eapply Permutation_NoDup.
  - apply Permutation_map, Permutation_sym, sortBy_perm.
  - apply filter_positions_distinct. unfold indexed. rewrite indexed_fst. apply seq_NoDup.
Qed.

Lemma bookmarkSiblings_distinct (key : string) (bs : list Bookmark.t)
    (m n i j : nat) (a b : Bookmark.t) :
  nth_error (bookmarkSiblings key bs) m = Some (i, a) ->
  nth_error (bookmarkSiblings key bs) n = Some (j, b) ->
  m <> n -> i <> j.
Proof.
  intros Hm Hn Hne Heq. apply Hne.
  pose proof (bookmarkSiblings_NoDup key bs) as ND.
  rewrite NoDup_nth_error in ND. apply ND.
  - rewrite length_map. apply nth_error_Some. congruence.
  - rewrite !nth_error_map, Hm, Hn. simpl. congruence.
Qed.

(** the swap that a successful call performs *)
Lemma moveBookmarkRelative_true (bookmarkId : string) (delta : Delta) (st st' : State) :
  moveBookmarkRelative bookmarkId delta st = (true, st') ->
  exists bm idx ia a ib b,
    find (fun b => String.eqb (Bookmark.id b) bookmarkId) (bookmarks st) = Some bm /\
    findIndex (fun ib => String.eqb (Bookmark.id (snd ib)) bookmarkId)
              (bookmarkSiblings (bucketKey bm) (bookmarks st)) = Some idx /\
    (0 <= targetIndex delta idx)%Z /\
    nth_error (bookmarkSiblings (bucketKey bm) (bookmarks st)) idx = Some (ia, a) /\
    nth_error (bookmarkSiblings (bucketKey bm) (bookmarks st))
              (Z.to_nat (targetIndex delta idx)) = Some (ib, b) /\
    st' = withBookmarks
            (updAt ib (Bookmark.setPriority (Some (bookmarkPrio a)))
               (updAt ia (Bookmark.setPriority (Some (bookmarkPrio b))) (bookmarks st)))
            st.
Proof.
  unfold moveBookmarkRelative. intros H.
  destruct (find _ (bookmarks st)) as [bm|] eqn:Ef; [|discriminate].
  destruct (findIndex _ _) as [idx|] eqn:Ei; [|discriminate].
  destruct ((targetIndex delta idx <? 0)%Z || _) eqn:Eb; [discriminate|].
  apply orb_false_iff in Eb as [Lo Hi]. apply Z.ltb_ge in Lo.
  destruct (nth_error _ idx) as [[ia a]|] eqn:Ea; [|discriminate].
  destruct (nth_error _ (Z.to_nat _)) as [[ib b]|] eqn:Eb; [|discriminate].
  inversion H; subst.
  exists bm, idx, ia, a, ib, b. repeat split; auto.
Qed.

(** a call whose neighbour exists performs the swap *)
Lemma moveBookmarkRelative_swap (bookmarkId : string) (delta : Delta) (st : State)
    (bm : Bookmark.t) (idx ia ib : nat) (a b : Bookmark.t) :
  find (fun b => String.eqb (Bookmark.id b) bookmarkId) (bookmarks st) = Some bm ->
  findIndex (fun ib => String.eqb (Bookmark.id (snd ib)) bookmarkId)
            (bookmarkSiblings (bucketKey bm) (bookmarks st)) = Some idx ->
  (0 <= targetIndex delta idx)%Z ->
  nth_error (bookmarkSiblings (bucketKey bm) (bookmarks st)) idx = Some (ia, a) ->
  nth_error (bookmarkSiblings (bucketKey bm) (bookmarks st))
            (Z.to_nat (targetIndex delta idx)) = Some (ib, b) ->
  moveBookmarkRelative bookmarkId delta st
  = (true,
     withBookmarks
       (updAt ib (Bookmark.setPriority (Some (bookmarkPrio a)))
          (updAt ia (Bookmark.setPriority (Some (bookmarkPrio b))) (bookmarks st)))
       st).
Proof.
  intros Ef Ei Lo Ea Eb. unfold moveBookmarkRelative. rewrite Ef, Ei.
  assert (Hlt : (Z.to_nat (targetIndex delta idx)
                 < List.length (bookmarkSiblings (bucketKey bm) (bookmarks st)))%nat)
    by (apply nth_error_Some; congruence).
  replace (targetIndex delta idx <? 0)%Z with false by (symmetry; apply Z.ltb_ge; lia).
  replace (targetIndex delta idx >=? _)%Z with false
    by (symmetry; rewrite Z.geb_leb; apply Z.leb_gt; lia).
  simpl. now rewrite Ea, Eb.
Qed.

Lemma targetIndex_other (delta : Delta) (idx : nat) :
  (0 <= targetIndex delta idx)%Z -> Z.to_nat (targetIndex delta idx) <> idx.
Proof. destruct delta; simpl; lia. Qed.

Lemma setPriority_sameButPriority (v : option Z) (x y : Bookmark.t) :
  sameButPriority x y -> sameButPriority x (Bookmark.setPriority v y).
Proof. unfold sameButPriority. simpl. tauto. Qed.

Lemma sameButPriority_refl (x : Bookmark.t) : sameButPriority x x.
Proof. unfold sameButPriority. tauto. Qed.

(** C6. A call of [moveBookmarkRelative] that returns [true] exchanges the
    priority values of two bookmarks, the one moved and its neighbour in
    the requested direction among the sorted siblings, and changes nothing
    else: every other bookmark is as it was, the two keep their id, label,
    location, creation time and [groupId], and the groups are untouched. *)
Theorem moveBookmarkRelative_swaps_two_priorities
    (bookmarkId : string) (delta : Delta) (st st' : State) :
  moveBookmarkRelative bookmarkId delta st = (true, st') ->
  exists i j a b,
    i <> j /\
    nth_error (bookmarks st) i = Some a /\ nth_error (bookmarks st) j = Some b /\
    Bookmark.id a = bookmarkId /\
    (exists idx,
       nth_error (bookmarkSiblings (bucketKey a) (bookmarks st)) idx = Some (i, a) /\
       (0 <= targetIndex delta idx)%Z /\
       nth_error (bookmarkSiblings (bucketKey a) (bookmarks st))
                 (Z.to_nat (targetIndex delta idx)) = Some (j, b)) /\
    nth_error (bookmarks st') i = Some (Bookmark.setPriority (Some (bookmarkPrio b)) a) /\
    nth_error (bookmarks st') j = Some (Bookmark.setPriority (Some (bookmarkPrio a)) b) /\
    (forall k, k <> i -> k <> j ->
               nth_error (bookmarks st') k = nth_error (bookmarks st) k) /\
    Forall2 sameButPriority (bookmarks st) (bookmarks st') /\
    groups st' = groups st.
Proof.
  intros H.
  apply moveBookmarkRelative_true in H
    as (bm & idx & ia & a & ib & b & Ef & Ei & Lo & Ea & Eb & ->).
  pose proof (nth_error_In _ _ Ea) as Ia. apply bookmarkSiblings_In in Ia as [Na Ka].
  pose proof (nth_error_In _ _ Eb) as Ib. apply bookmarkSiblings_In in Ib as [Nb Kb].
  assert (Hne : ia <> ib).
  { eapply bookmarkSiblings_distinct; eauto.
    intros E. symmetry in E. revert E. now apply targetIndex_other. }
  apply findIndex_Some in Ei as (x & Hx & Px & _).
  rewrite Ea in Hx. inversion Hx; subst x. simpl in Px. apply String.eqb_eq in Px.
  exists ia, ib, a, b. simpl. repeat split; auto.
  - exists idx. rewrite Ka. auto.
  - rewrite updAt_nth_other by exact Hne.
    now rewrite updAt_nth_same, Na.
  - rewrite updAt_nth_same, updAt_nth_other by auto. now rewrite Nb.
  - intros k Hi Hj. now rewrite !updAt_nth_other by auto.
  - repeat apply updAt_Forall2; try (intros; now apply setPriority_sameButPriority).
    apply Forall2_refl, sameButPriority_refl.
Qed.

Lemma moveBookmarkRelative_swaps_two_priorities_witness :
  let mk i p c g := Bookmark.mk i i "a.ts" 1%Z 0%Z None c g p in
  let st := mkState [mk "b1" (Some 0%Z) 1%Z None; mk "b2" (Some 5%Z) 2%Z None;
                     mk "b3" None 3%Z (Some "g")] [] in
  let st' := mkState [mk "b1" (Some 5%Z) 1%Z None; mk "b2" (Some 0%Z) 2%Z None;
                      mk "b3" None 3%Z (Some "g")] [] in
  exists i j a b,
    i <> j /\
    nth_error (bookmarks st) i = Some a /\ nth_error (bookmarks st) j = Some b /\
    Bookmark.id a = "b1" /\
    (exists idx,
       nth_error (bookmarkSiblings (bucketKey a) (bookmarks st)) idx = Some (i, a) /\
       (0 <= targetIndex Up idx)%Z /\
       nth_error (bookmarkSiblings (bucketKey a) (bookmarks st))
                 (Z.to_nat (targetIndex Up idx)) = Some (j, b)) /\
    nth_error (bookmarks st') i = Some (Bookmark.setPriority (Some (bookmarkPrio b)) a) /\
    nth_error (bookmarks st') j = Some (Bookmark.setPriority (Some (bookmarkPrio a)) b) /\
    (forall k, k <> i -> k <> j ->
               nth_error (bookmarks st') k = nth_error (bookmarks st) k) /\
    Forall2 sameButPriority (bookmarks st) (bookmarks st') /\
    groups st' = groups st.
Proof.
  intros mk st st'.
  apply (moveBookmarkRelative_swaps_two_priorities "b1" Up st st').
  vm_compute. reflexivity.
Defined.

(** C7. When the bookmark is the first of its sorted siblings, a move
    toward the front returns [false] and leaves the state, so every
    priority, as it was; when it is the last one, so does a move toward
    the back. *)
Theorem moveBookmarkRelative_at_the_edge
    (bookmarkId : string) (st : State) (bm : Bookmark.t) :
  find (fun b => String.eqb (Bookmark.id b) bookmarkId) (bookmarks st) = Some bm ->
  ((exists i b rest,
      bookmarkSiblings (bucketKey bm) (bookmarks st) = (i, b) :: rest /\
      Bookmark.id b = bookmarkId) ->
   moveBookmarkRelative bookmarkId Up st = (false, st)) /\
  ((exists init i b,
      bookmarkSiblings (bucketKey bm) (bookmarks st) = init ++ [(i, b)] /\
      Bookmark.id b = bookmarkId /\
      forall x, In x init -> Bookmark.id (snd x) <> bookmarkId) ->
   moveBookmarkRelative bookmarkId Down st = (false, st)).
Proof.
  intros Ef. unfold moveBookmarkRelative. rewrite Ef. split.
  - intros (i & b & rest & -> & Hid). simpl.
    apply String.eqb_eq in Hid. now rewrite Hid.
  - intros (init & i & b & -> & Hid & Hinit).
    rewrite (findIndex_first _ _ (List.length init) (i, b)).
    + rewrite length_app. simpl.
      replace (_ || _) with true; [reflexivity|].
      symmetry. apply orb_true_iff. right. rewrite Z.geb_leb. apply Z.leb_le. lia.
    + rewrite nth_error_app2, Nat.sub_diag by lia. reflexivity.
    + simpl. now apply String.eqb_eq.
    + intros k y Hk Hy. rewrite nth_error_app1 in Hy by exact Hk.
      apply nth_error_In in Hy. now apply String.eqb_neq, Hinit.
Qed.

Lemma moveBookmarkRelative_at_the_edge_witness :
  let mk i p c g := Bookmark.mk i i "a.ts" 1%Z 0%Z None c g p in
  let st := mkState [mk "b1" (Some 0%Z) 1%Z None; mk "b2" (Some 5%Z) 2%Z None;
                     mk "b3" None 3%Z (Some "g")] [] in
  moveBookmarkRelative "b2" Up st = (false, st) /\
  moveBookmarkRelative "b1" Down st = (false, st).
Proof.
  intros mk st. split.
  - apply (moveBookmarkRelative_at_the_edge "b2" st (mk "b2" (Some 5%Z) 2%Z None));
      [reflexivity|].
    exists 1%nat, (mk "b2" (Some 5%Z) 2%Z None), [(0%nat, mk "b1" (Some 0%Z) 1%Z None)].
    split; reflexivity.
  - apply (moveBookmarkRelative_at_the_edge "b1" st (mk "b1" (Some 0%Z) 1%Z None));
      [reflexivity|].
    exists [(1%nat, mk "b2" (Some 5%Z) 2%Z None)], 0%nat, (mk "b1" (Some 0%Z) 1%Z None).
    split; [reflexivity|]. split; [reflexivity|].
    intros x [<-|[]]. discriminate.
Defined.

(** *** Sorting lists that agree on what the comparator reads *)

Section RelatedSort.
Context {A : Type}.
Variable R : A -> A -> Prop.
Variables cmp cmp' : A -> A -> Z.
Hypothesis cmp_agree :
  forall x x' y y', R x x' -> R y y' -> cmp x y = cmp' x' y'.

Lemma insertBy_related (x x' : A) (l l' : list A) :
  R x x' -> Forall2 R l l' -> Forall2 R (insertBy cmp x l) (insertBy cmp' x' l').
Proof.
  intros Hx H. induction H as [|y y' t t' Hy Ht IH]; simpl.
  - repeat constructor. exact Hx.
  - rewrite (cmp_agree x x' y y') by assumption.
    destruct (cmp' x' y' <=? 0)%Z; repeat constructor; auto.
Qed.

Lemma sortBy_related (l l' : list A) :
  Forall2 R l l' -> Forall2 R (sortBy cmp l) (sortBy cmp' l').
Proof.
  induction 1; simpl; [constructor | now apply insertBy_related].
Qed.

Lemma filter_related (p q : A -> bool) (l l' : list A) :
  (forall x x', R x x' -> p x = q x') ->
  Forall2 R l l' -> Forall2 R (filter p l) (filter q l').
Proof.
  intros Hpq. induction 1 as [|x x' t t' Hx Ht IH]; simpl; [constructor|].
  rewrite (Hpq x x') by assumption. destruct (q x'); auto.
Qed.

End RelatedSort.

Lemma indexed_related {A : Type} (R : A -> A -> Prop) (s : nat) (l l' : list A) :
  Forall2 R l l' ->
  Forall2 (fun p q => fst p = fst q /\ R (snd p) (snd q))
          (mapi_from (fun i x => (i, x)) s l) (mapi_from (fun i x => (i, x)) s l').
Proof.
  intros H. revert s. induction H; intros s; simpl; constructor; auto.
Qed.

Lemma related_fst {A : Type} (R : A -> A -> Prop) (l l' : list (nat * A)) :
  Forall2 (fun p q => fst p = fst q /\ R (snd p) (snd q)) l l' ->
  map fst l = map fst l'.
Proof. induction 1 as [|x y ? ? [E _]]; simpl; congruence. Qed.

Lemma samePriorityValue_sort (x x' y y' : Bookmark.t) :
  samePriorityValue x x' -> samePriorityValue y y' ->
  sortBookmarks x y = sortBookmarks x' y'.
Proof.
  unfold samePriorityValue, sameButPriority, sortBookmarks, comparePriority, bookmarkPrio.
  intros [(_ & _ & _ & _ & _ & _ & Cx & _) Px] [(_ & _ & _ & _ & _ & _ & Cy & _) Py].
  now rewrite Px, Py, Cx, Cy.
Qed.

Lemma samePriorityValue_bucket (x x' : Bookmark.t) :
  samePriorityValue x x' -> bucketKey x = bucketKey x'.
Proof.
  unfold samePriorityValue, sameButPriority, bucketKey. intros [H _].
  now replace (Bookmark.groupId x') with (Bookmark.groupId x) by tauto.
Qed.

(** the sorted siblings of every bucket list the same positions *)
Lemma samePriorityValue_siblings (key : string) (bs bs' : list Bookmark.t) :
  Forall2 samePriorityValue bs bs' ->
  map fst (bookmarkSiblings key bs') = map fst (bookmarkSiblings key bs).
Proof.
  intros H. symmetry. apply (related_fst samePriorityValue).
  unfold bookmarkSiblings.
  apply sortBy_related.
  - intros x x' y y' [_ Hx] [_ Hy]. now apply samePriorityValue_sort.
  - apply filter_related; [|now apply indexed_related].
    intros x x' [_ Hx]. now rewrite (samePriorityValue_bucket _ _ Hx).
Qed.

Lemma updAt_fixed {A : Type} (i : nat) (f : A -> A) (l : list A) (x : A) :
  nth_error l i = Some x -> f x = x -> updAt i f l = l.
Proof.
  revert i. induction l as [|y t IH]; intros [|i] Hx Hf; simpl in *; try discriminate.
  - inversion Hx; subst. now rewrite Hf.
  - now rewrite (IH i Hx Hf).
Qed.

Lemma updAt_related {A : Type} (R : A -> A -> Prop) (i : nat) (f : A -> A)
    (l l' : list A) (x : A) :
  Forall2 R l l' -> nth_error l i = Some x -> (forall y, R x y -> R x (f y)) ->
  Forall2 R l (updAt i f l').
Proof.
  intros H. revert i. induction H as [|a b t t' Hab Ht IH]; intros [|i] Hx Hf;
    simpl in *; try discriminate; constructor; eauto.
  inversion Hx; subst. now apply Hf.
Qed.

Lemma setPriority_stored (x : Bookmark.t) :
  Bookmark.priority x <> None ->
  Bookmark.setPriority (Some (bookmarkPrio x)) x = x.
Proof.
  destruct x as [? ? ? ? ? ? ? ? [p|]]; simpl; [reflexivity | congruence].
Qed.

Lemma samePriorityValue_refl (x : Bookmark.t) : samePriorityValue x x.
Proof. split; [apply sameButPriority_refl | reflexivity]. Qed.

(** C10. When the neighbour in the requested direction has the same
    priority value as the bookmark, [moveBookmarkRelative] returns [true]
    and yet no priority value changes: every bookmark keeps its fields and
    its priority value, the sorted siblings of every bucket are in the
    same order, and the state is the very same one when both priorities
    were stored. *)
Theorem moveBookmarkRelative_equal_priorities
    (bookmarkId : string) (delta : Delta) (st : State) (bm : Bookmark.t)
    (idx ia ib : nat) (a b : Bookmark.t) :
  find (fun b => String.eqb (Bookmark.id b) bookmarkId) (bookmarks st) = Some bm ->
  findIndex (fun ib => String.eqb (Bookmark.id (snd ib)) bookmarkId)
            (bookmarkSiblings (bucketKey bm) (bookmarks st)) = Some idx ->
  (0 <= targetIndex delta idx)%Z ->
  nth_error (bookmarkSiblings (bucketKey bm) (bookmarks st)) idx = Some (ia, a) ->
  nth_error (bookmarkSiblings (bucketKey bm) (bookmarks st))
            (Z.to_nat (targetIndex delta idx)) = Some (ib, b) ->
  bookmarkPrio a = bookmarkPrio b ->
  exists st',
    moveBookmarkRelative bookmarkId delta st = (true, st') /\
    Forall2 samePriorityValue (bookmarks st) (bookmarks st') /\
    groups st' = groups st /\
    (forall key, map fst (bookmarkSiblings key (bookmarks st'))
                 = map fst (bookmarkSiblings key (bookmarks st))) /\
    (Bookmark.priority a <> None -> Bookmark.priority b <> None -> st' = st).
Proof.
  intros Ef Ei Lo Ea Eb Hp.
  rewrite (moveBookmarkRelative_swap _ _ _ _ _ _ _ _ _ Ef Ei Lo Ea Eb).
  eexists. split; [reflexivity|]. simpl.
  pose proof (nth_error_In _ _ Ea) as Ia. apply bookmarkSiblings_In in Ia as [Na _].
  pose proof (nth_error_In _ _ Eb) as Ib. apply bookmarkSiblings_In in Ib as [Nb _].
  assert (Hne : ia <> ib).
  { eapply bookmarkSiblings_distinct; eauto.
    intros E. symmetry in E. revert E. now apply targetIndex_other. }
  assert (Hrel : Forall2 samePriorityValue (bookmarks st)
                   (updAt ib (Bookmark.setPriority (Some (bookmarkPrio a)))
                      (updAt ia (Bookmark.setPriority (Some (bookmarkPrio b)))
                         (bookmarks st)))).
  { apply updAt_related with (x := b); auto.
    - apply updAt_related with (x := a); auto.
      + apply Forall2_refl, samePriorityValue_refl.
      + intros y [Hs Hq]. split; [now apply setPriority_sameButPriority|].
        unfold bookmarkPrio at 2. simpl. exact Hp.
    - intros y [Hs Hq]. split; [now apply setPriority_sameButPriority|].
      unfold bookmarkPrio at 2. simpl. now symmetry. }
  repeat split; auto.
  - intros key. now apply samePriorityValue_siblings.
  - intros Pa Pb. destruct st as [bs gs]. unfold withBookmarks. simpl in *. f_equal.
    rewrite (updAt_fixed ia _ bs a);
      [ | exact Na | rewrite <- Hp; now apply setPriority_stored ].
    apply (updAt_fixed ib _ bs b); [exact Nb|].
    rewrite Hp. now apply setPriority_stored.
Qed.

Lemma moveBookmarkRelative_equal_priorities_witness :
  let mk i p c g := Bookmark.mk i i "a.ts" 1%Z 0%Z None c g p in
  let st := mkState [mk "b1" (Some 0%Z) 1%Z None; mk "b2" (Some 0%Z) 2%Z None;
                     mk "b3" (Some 4%Z) 3%Z (Some "g")] [] in
  exists st',
    moveBookmarkRelative "b2" Up st = (true, st') /\
    Forall2 samePriorityValue (bookmarks st) (bookmarks st') /\
    groups st' = groups st /\
    (forall key, map fst (bookmarkSiblings key (bookmarks st'))
                 = map fst (bookmarkSiblings key (bookmarks st))) /\
    (Bookmark.priority (mk "b2" (Some 0%Z) 2%Z None) <> None ->
     Bookmark.priority (mk "b1" (Some 0%Z) 1%Z None) <> None -> st' = st).
Proof.
  intros mk st.
  apply (moveBookmarkRelative_equal_priorities "b2" Up st
           (mk "b2" (Some 0%Z) 2%Z None) 1%nat 1%nat 0%nat);
    reflexivity || (vm_compute; discriminate).
Defined.

(** ** moveGroupToParent *)

(** what the branch of the name collision leaves behind: the list without
    the moving group *)
Lemma moveGroupToParent_collision (groupId : string) (newParentId insertBefore : option string)
    (st : State) (movingGroup : Group.t) :
  find (fun g => String.eqb (Group.id g) groupId) (groups st) = Some movingGroup ->
  (exists g, In g (groups st) /\ Group.id g <> groupId /\
             Group.parentId g = newParentId /\
             Group.name g = Group.name movingGroup) ->
  groups (moveGroupToParent groupId newParentId insertBefore st)
  = filter (fun g => negb (String.eqb (Group.id g) groupId)) (groups st) /\
  ~ In movingGroup (groups (moveGroupToParent groupId newParentId insertBefore st)).
Proof.
  intros Ef (g & Hin & Hid & Hp & Hn).
  unfold moveGroupToParent. rewrite Ef.
  replace (existsb _ _) with true.
  - simpl. split; [reflexivity|]. rewrite filter_In. intros [_ H].
    apply find_some in Ef as [_ E]. simpl in E. now rewrite E in H.
  - symmetry. apply existsb_exists. exists g. split.
    + rewrite !filter_In. apply String.eqb_neq in Hid.
      rewrite Hid. simpl. repeat split; auto.
      rewrite andb_true_r. now apply optEqb_eq.
    + now apply String.eqb_eq.
Qed.

(** C1, on the code: a move that is refused because of the name of a new
    sibling does not leave the group list as it was.  The group "b" named
    "Notes" under "p" is moved to the root, where "a" is named "Notes": the
    call returns with the list from which "b" has been taken out. *)
Theorem moveGroupToParent_refused_move_drops_group :
  let notes := Group.mk "a" "Notes" false 1%Z None (Some 2%Z) in
  let projects := Group.mk "p" "Projects" false 2%Z None (Some 1%Z) in
  let inner := Group.mk "b" "Notes" false 3%Z (Some "p") (Some 1%Z) in
  let st := mkState [] [notes; projects; inner] in
  moveGroupToParent "b" None None st = mkState [] [notes; projects] /\
  groups (moveGroupToParent "b" None None st) <> groups st.
Proof. simpl. split; [reflexivity | discriminate]. Qed.

(** *** A move that is accepted *)

Lemma findIndex_None {A : Type} (p : A -> bool) (l : list A) :
  findIndex p l = None <-> forall x, In x l -> p x = false.
Proof.
  induction l as [|y t IH]; simpl.
  - split; [intros _ x [] | reflexivity].
  - destruct (p y) eqn:Py.
    + split; [discriminate|]. intros H. specialize (H y (or_introl eq_refl)). congruence.
    + destruct (findIndex p t); simpl.
      * split; [discriminate|]. intros H.
        assert (E : @Some nat n = None) by (apply IH; intros; apply H; auto).
        discriminate E.
      * split; [|reflexivity]. intros _ x [<-|Hx]; [exact Py|].
        now apply (proj1 IH eq_refl).
Qed.





Lemma filter_all {A : Type} (p : A -> bool) (l : list A) :
  (forall x, In x l -> p x = true) -> filter p l = l.
Proof. intros H. apply forallb_filter_id, forallb_forall, H. Qed.

Lemma filter_none {A : Type} (p : A -> bool) (l : list A) :
  (forall x, In x l -> p x = false) -> filter p l = [].
Proof.
  induction l as [|x t IH]; simpl; intros H; [reflexivity|].
  rewrite (H x) by auto. apply IH. auto.
Qed.

Lemma renumber_from_fields (total : Z) (s : nat) (l : list Group.t) :
  map groupButPriority
      (mapi_from (fun i g => Group.setPriority (Some (total - Z.of_nat i)%Z) g) s l)
  = map groupButPriority l.
Proof. revert s. induction l as [|g t IH]; intros s; simpl; [|rewrite IH]; auto. Qed.


Lemma renumber_length (l : list Group.t) : List.length (renumber l) = List.length l.
Proof. apply mapi_from_length. Qed.

Lemma renumber_fields (l : list Group.t) :
  map groupButPriority (renumber l) = map groupButPriority l.
Proof. apply renumber_from_fields. Qed.





(** the list that an accepted move builds *)
Lemma moveGroupToParent_accepted (groupId : string) (newParentId insertBefore : option string)
    (st : State) (movingGroup : Group.t) :
  find (fun g => String.eqb (Group.id g) groupId) (groups st) = Some movingGroup ->
  (forall g, In g (groups st) -> Group.id g <> groupId ->
             Group.parentId g = newParentId ->
             Group.name g <> Group.name movingGroup) ->
  let gs1 := filter (fun g => negb (String.eqb (Group.id g) groupId)) (groups st) in
  let siblings := childrenOf newParentId gs1 in
  let idx := insertIndex insertBefore siblings in
  groups (moveGroupToParent groupId newParentId insertBefore st)
  = filter (fun g => negb (optEqb (Group.parentId g) newParentId)) gs1
    ++ renumber (firstn idx siblings
                 ++ Group.setParentId newParentId movingGroup :: skipn idx siblings).
Proof.
  intros Ef Hfree. unfold moveGroupToParent. rewrite Ef.
  replace (existsb _ _) with false; [reflexivity|].
  symmetry. apply not_true_is_false. intros H.
  apply existsb_exists in H as (g & Hin & Hn).
  rewrite !filter_In in Hin. destruct Hin as [[Hin Hid] Hp].
  apply andb_prop in Hp as [Hp _].
  apply String.eqb_eq in Hn. apply negb_true_iff, String.eqb_neq in Hid.
  apply optEqb_eq in Hp. now apply (Hfree g).
Qed.



(** ** The ready signal *)


(** the methods that await the signal act on the loaded lists, also when
    they are called before [loadData] has resolved *)
Lemma awaiting_methods_act_on_loaded_lists (m : Manager) :
  isReady m = false ->
  (forall groupId newName,
      callRenameGroup groupId newName m = callRenameGroup groupId newName (loadData m)) /\
  (forall groupId,
      callSetGroupAsDefault groupId m = callSetGroupAsDefault groupId (loadData m)) /\
  (forall bookmarkId delta,
      callMoveBookmarkRelative bookmarkId delta m
      = callMoveBookmarkRelative bookmarkId delta (loadData m)) /\
  (forall groupId newParentId insertBefore,
      callMoveGroupToParent groupId newParentId insertBefore m
      = callMoveGroupToParent groupId newParentId insertBefore (loadData m)).
Proof.
  intros Hm.
  assert (E : awaitReady m = awaitReady (loadData m))
    by (unfold awaitReady; now rewrite Hm).
  unfold callRenameGroup, callSetGroupAsDefault, callMoveBookmarkRelative,
    callMoveGroupToParent.
  rewrite E. repeat split.
Qed.

(** C3, on the code: [createGroup] and [removeGroup] do not await the ready
    signal.  With a group "Work" in the storage, a [createGroup] of a root
    group "Work" issued before [loadData] has resolved checks the name
    against the empty list and is accepted, while the same call after the
    load is refused; a [removeGroup] of the stored group finds nothing to
    remove; [renameGroup], which awaits the signal, acts on the loaded
    group. *)
Theorem createGroup_and_removeGroup_run_before_ready :
  let work := Group.mk "g1" "Work" true 1%Z None (Some 1%Z) in
  let m := newManager (mkState [] [work]) in
  let created := Group.mk "g2" "Work" false 2%Z None (Some 1%Z) in
  isReady m = false /\
  callCreateGroup "g2" 2%Z "Work" false None m
  = (Some created, mkManager (mkState [] [created]) false (stored m)) /\
  fst (callCreateGroup "g2" 2%Z "Work" false None (loadData m)) = None /\
  callRemoveGroup 2 "g1" m = Some m /\
  option_map (fun m' => groups (mem m')) (callRemoveGroup 2 "g1" (loadData m)) = Some [] /\
  fst (callRenameGroup "g1" "Job" m) = true /\
  map Group.name (groups (mem (snd (callRenameGroup "g1" "Job" m)))) = ["Job"].
Proof. simpl. repeat split; reflexivity. Qed.

(** ** removeGroup *)

Lemma forEachGroup_nil (f : string -> State -> option State) (st : State) :
  forEachGroup f [] st = Some st.
Proof. reflexivity. Qed.

Lemma forEachGroup_cons (f : string -> State -> option State) (c : Group.t)
    (cs : list Group.t) (st : State) :
  forEachGroup f (c :: cs) st
  = match f (Group.id c) st with
    | Some s => forEachGroup f cs s
    | None => None
    end.
Proof.
  unfold forEachGroup. simpl. destruct (f (Group.id c) st); [reflexivity|].
  induction cs; simpl; auto.
Qed.

Lemma reparent_avoided (s : string -> bool) (target : option string)
    (bs : list Bookmark.t) :
  AvoidedBy bs s -> map (reparent s target) bs = bs.
Proof.
  intros H. rewrite <- (map_id bs) at 2. apply map_ext_in. intros b Hb.
  unfold reparent. destruct (Bookmark.groupId b) as [y|] eqn:E; [|reflexivity].
  now rewrite (H b y Hb E).
Qed.

Lemma survivors_without (r : string -> bool) (x : string) (gs : list Group.t) :
  filter (fun g => negb (String.eqb (Group.id g) x)) (survivors r gs)
  = survivors (fun y => r y || String.eqb y x) gs.
Proof.
  unfold survivors. induction gs as [|g t IH]; simpl; [reflexivity|].
  destruct (r (Group.id g)); simpl; [exact IH|].
  destruct (String.eqb (Group.id g) x); simpl; [exact IH | now rewrite IH].
Qed.

Lemma survivors_ext (r r' : string -> bool) (gs : list Group.t) :
  (forall y, r y = true <-> r' y = true) -> survivors r gs = survivors r' gs.
Proof.
  intros H. apply filter_ext. intros g. f_equal.
  specialize (H (Group.id g)).
  destruct (r (Group.id g)), (r' (Group.id g)); intuition congruence.
Qed.

Lemma reparent_ext (r r' : string -> bool) (target : option string)
    (bs : list Bookmark.t) :
  (forall y, r y = true <-> r' y = true) ->
  map (reparent r target) bs = map (reparent r' target) bs.
Proof.
  intros H. apply map_ext. intros b. unfold reparent.
  destruct (Bookmark.groupId b) as [y|]; [|reflexivity].
  specialize (H y). destruct (r y), (r' y); intuition congruence.
Qed.

Lemma reparent_twice (r1 r2 : string -> bool) (x : string) (b : Bookmark.t) :
  (forall y, r1 y = true -> r2 y = true) -> r2 x = false ->
  reparent r2 (Some x) (reparent r1 (Some x) b) = reparent r2 (Some x) b.
Proof.
  intros Hsub Hx. unfold reparent.
  destruct (Bookmark.groupId b) as [z|] eqn:Ez; [|now rewrite Ez].
  destruct (r1 z) eqn:R1; simpl.
  - now rewrite Hx, (Hsub z R1).
  - now rewrite Ez.
Qed.

Lemma reparent_last (r1 : string -> bool) (x : string) (target : option string)
    (b : Bookmark.t) :
  (let b1 := reparent r1 (Some x) b in
   if optEqb (Bookmark.groupId b1) (Some x) then Bookmark.setGroupId target b1 else b1)
  = reparent (fun y => r1 y || String.eqb y x) target b.
Proof.
  unfold reparent. destruct (Bookmark.groupId b) as [z|] eqn:Ez; simpl.
  - destruct (r1 z) eqn:R1; simpl.
    + now rewrite String.eqb_refl.
    + rewrite Ez. simpl. reflexivity.
  - rewrite Ez. reflexivity.
Qed.

Lemma unique_id_group (gs : list Group.t) (g g' : Group.t) :
  UniqueIds gs -> In g gs -> In g' gs -> Group.id g = Group.id g' -> g = g'.
Proof.
  unfold UniqueIds. induction gs as [|h t IH]; simpl; intros ND Hg Hg' E; [contradiction|].
  inversion ND as [|? ? Hh Ht]; subst.
  destruct Hg as [<-|Hg], Hg' as [<-|Hg']; auto.
  - exfalso. apply Hh. rewrite E. now apply in_map.
  - exfalso. apply Hh. rewrite <- E. now apply in_map.
Qed.

Section Forest.
Variable G0 : list Group.t.
Variable rank : string -> nat.
Hypothesis rank_parent :
  forall g p, In g G0 -> Group.parentId g = Some p -> (rank (Group.id g) < rank p)%nat.
Hypothesis unique_ids : UniqueIds G0.

Lemma same_id_same_group (g g' : Group.t) :
  In g G0 -> In g' G0 -> Group.id g = Group.id g' -> g = g'.
Proof. now apply unique_id_group. Qed.

Lemma Descendant_rank (x y : string) :
  Descendant G0 x y -> (rank y <= rank x)%nat.
Proof.
  induction 1 as [|g p Hin Hp _ IH]; [lia|].
  specialize (rank_parent g p Hin Hp). lia.
Qed.

Lemma Descendant_trans (x y z : string) :
  Descendant G0 x y -> Descendant G0 y z -> Descendant G0 x z.
Proof.
  intros Hxy Hyz. induction Hyz as [|g p Hin Hp _ IH]; [exact Hxy|].
  now apply Desc_child with (p := p).
Qed.

Lemma closed_descendants (s : string -> bool) (x y : string) :
  ChildClosed G0 s -> s x = true -> Descendant G0 x y -> s y = true.
Proof.
  intros Hc Hx H. induction H as [|g p Hin Hp _ IH]; [exact Hx|].
  now apply (Hc g p).
Qed.

Lemma closed_union (s r : string -> bool) (P : string -> Prop) :
  ChildClosed G0 s ->
  (forall g p, In g G0 -> Group.parentId g = Some p -> P p -> P (Group.id g)) ->
  (forall y, r y = true <-> s y = true \/ P y) ->
  ChildClosed G0 r.
Proof.
  intros Hs HP Hr g p Hin Hp Hrp. apply Hr. apply Hr in Hrp as [H|H].
  - left. now apply (Hs g p).
  - right. now apply (HP g p).
Qed.

Lemma find_survivor (s : string -> bool) (x : string) (g : Group.t) :
  find (fun g => String.eqb (Group.id g) x) (survivors s G0) = Some g ->
  In g G0 /\ Group.id g = x /\ s x = false.
Proof.
  intros H. apply find_some in H as [Hin Hid]. apply String.eqb_eq in Hid.
  apply filter_In in Hin as [Hin Hs]. apply negb_true_iff in Hs.
  rewrite Hid in Hs. auto.
Qed.

Lemma find_no_survivor (s : string -> bool) (x : string) (g : Group.t) :
  find (fun g => String.eqb (Group.id g) x) (survivors s G0) = None ->
  In g G0 -> Group.id g = x -> s x = true.
Proof.
  intros H Hin Hid. destruct (s x) eqn:E; [reflexivity|].
  assert (Hs : In g (survivors s G0)).
  { apply filter_In. split; [exact Hin|]. now rewrite Hid, E. }
  apply (find_none _ _ H) in Hs. simpl in Hs.
  apply String.eqb_neq in Hs. contradiction.
Qed.

(** the bookmarks moved out of the removed groups are under none of them *)
Lemma reparent_clears (s r : string -> bool) (x : string) (gx : Group.t)
    (bs : list Bookmark.t) :
  In gx G0 -> Group.id gx = x ->
  ChildClosed G0 s -> AvoidedBy bs s ->
  (forall y, r y = true <-> s y = true \/ Descendant G0 x y) ->
  AvoidedBy (map (reparent r (Group.parentId gx)) bs) r.
Proof.
  intros Hgx Hid Hc Hav Hr b' y Hb' Hy.
  apply in_map_iff in Hb' as (b & <- & Hb).
  destruct (r y) eqn:Ry; [exfalso|reflexivity].
  unfold reparent in Hy.
  destruct (Bookmark.groupId b) as [z|] eqn:Ez.
  - destruct (r z) eqn:Rz.
    + simpl in Hy.
      assert (Hsz : s z = false) by now apply (Hav b).
      apply Hr in Rz as [Hz|Hz]; [congruence|].
      assert (Hsx : s x = false).
      { destruct (s x) eqn:Sx; [|reflexivity].
        rewrite (closed_descendants s x z Hc Sx Hz) in Hsz. discriminate. }
      apply Hr in Ry as [Sy|Dy].
      * rewrite <- Hid in Hsx. rewrite (Hc gx y Hgx Hy Sy) in Hsx. discriminate.
      * apply Descendant_rank in Dy.
        specialize (rank_parent gx y Hgx Hy). rewrite Hid in rank_parent. lia.
    + rewrite Ez in Hy. inversion Hy; subst. congruence.
  - rewrite Ez in Hy. discriminate.
Qed.

(** the loop over the children of [x], given what the calls on them achieve *)
Lemma removeGroup_children (f : nat) (x : string) :
  (forall gc st s,
      In gc G0 -> (rank (Group.id gc) < f)%nat ->
      groups st = survivors s G0 -> ChildClosed G0 s -> AvoidedBy (bookmarks st) s ->
      RemovesSubtree G0 f (Group.id gc) (Group.parentId gc) s st) ->
  (rank x <= f)%nat ->
  forall cs st s,
    (forall c, In c cs -> In c G0 /\ Group.parentId c = Some x) ->
    groups st = survivors s G0 -> ChildClosed G0 s -> AvoidedBy (bookmarks st) s ->
    s x = false ->
    exists st1 r1,
      forEachGroup (removeGroup f) cs st = Some st1 /\
      (forall y, r1 y = true <->
                 s y = true \/ exists c, In c cs /\ Descendant G0 (Group.id c) y) /\
      groups st1 = survivors r1 G0 /\
      bookmarks st1 = map (reparent r1 (Some x)) (bookmarks st).
Proof.
  intros IHf Hrank. induction cs as [|c cs IH]; intros st s Hcs Hg Hc Hav Hx.
  - exists st, s. rewrite forEachGroup_nil. repeat split; auto.
    + intros [H|(c & [] & _)]; exact H.
    + symmetry. now apply reparent_avoided.
  - destruct (Hcs c (or_introl eq_refl)) as [Hin Hp].
    pose proof (rank_parent c x Hin Hp) as Hlt.
    destruct (IHf c st s Hin ltac:(lia) Hg Hc Hav) as (stc & rc & Erun & Hrc & Hgc & Hbc).
    rewrite forEachGroup_cons, Erun.
    assert (Hcc : ChildClosed G0 rc).
    { apply (closed_union s rc (Descendant G0 (Group.id c))); auto.
      intros g p Hg0 Hgp Hd. now apply Desc_child with (p := p). }
    assert (Hac : AvoidedBy (bookmarks stc) rc).
    { rewrite Hbc. now apply (reparent_clears s rc (Group.id c) c). }
    assert (Hxc : rc x = false).
    { destruct (rc x) eqn:E; [|reflexivity]. apply Hrc in E as [E|E]; [congruence|].
      apply Descendant_rank in E. lia. }
    destruct (IH stc rc) as (st1 & r1 & Erun1 & Hr1 & Hg1 & Hb1); auto.
    { intros c' Hc'. apply Hcs. now right. }
    exists st1, r1. split; [exact Erun1|].
    assert (Hchar : forall y, r1 y = true <->
              s y = true \/ exists c', In c' (c :: cs) /\ Descendant G0 (Group.id c') y).
    { intros y. rewrite Hr1, Hrc. split.
      - intros [[H|H]|(c' & Hc' & H)]; eauto.
        + right. exists c. split; [now left | exact H].
        + right. exists c'. split; [now right | exact H].
      - intros [H|(c' & [<-|Hc'] & H)]; eauto. }
    split; [exact Hchar|]. split; [exact Hg1|].
    rewrite Hb1, Hbc, Hp, map_map. apply map_ext. intros b.
    apply reparent_twice.
    + intros y Hy. apply Hr1. now left.
    + destruct (r1 x) eqn:E; [|reflexivity].
      apply Hchar in E as [E|(c' & Hc' & E)]; [congruence|].
      destruct (Hcs c' Hc') as [Hin' Hp'].
      pose proof (rank_parent c' x Hin' Hp').
      apply Descendant_rank in E. lia.
Qed.

(** [removeGroup] on a group of the forest, by induction on the fuel *)
Lemma removeGroup_subtree (fuel : nat) :
  forall gx st s,
    In gx G0 -> (rank (Group.id gx) < fuel)%nat ->
    groups st = survivors s G0 -> ChildClosed G0 s -> AvoidedBy (bookmarks st) s ->
    RemovesSubtree G0 fuel (Group.id gx) (Group.parentId gx) s st.
Proof.
  induction fuel as [|f IHf]; intros gx st s Hgx Hrank Hg Hc Hav; [lia|].
  set (x := Group.id gx) in *.
  unfold RemovesSubtree. simpl.
  destruct (find _ (groups st)) as [group|] eqn:Ef.
  - rewrite Hg in Ef. apply find_survivor in Ef as (Hin & Hid & Hsx).
    assert (group = gx) as -> by now apply same_id_same_group.
    destruct (removeGroup_children f x IHf ltac:(lia)
                (filter (fun g => optEqb (Group.parentId g) (Some x)) (groups st)) st s)
      as (st1 & r1 & Erun & Hr1 & Hg1 & Hb1); auto.
    { intros c Hcin. apply filter_In in Hcin as [Hcin Hcp].
      rewrite Hg in Hcin. apply filter_In in Hcin as [Hcin _].
      now apply optEqb_eq in Hcp. }
    rewrite Erun.
    exists (mkState
              (map (fun b => if optEqb (Bookmark.groupId b) (Some x)
                             then Bookmark.setGroupId (Group.parentId gx) b else b)
                   (bookmarks st1))
              (filter (fun g => negb (String.eqb (Group.id g) x)) (groups st1))),
           (fun y => r1 y || String.eqb y x).
    split; [reflexivity|]. simpl.
    assert (Hcl1 : ChildClosed G0 r1).
    { apply (closed_union s r1
               (fun y => exists c,
                    In c (filter (fun g => optEqb (Group.parentId g) (Some x)) (groups st))
                    /\ Descendant G0 (Group.id c) y)); auto.
      intros g p Hg0 Hgp (c & Hcin & Hd). exists c. split; [exact Hcin|].
      now apply Desc_child with (p := p). }
    split; [|split].
    + intros y. rewrite orb_true_iff, Hr1, String.eqb_eq. split.
      * intros [[H|(c & Hcin & Hd)]| ->]; auto.
        -- right. apply filter_In in Hcin as [Hcin Hcp]. apply optEqb_eq in Hcp.
           rewrite Hg in Hcin. apply filter_In in Hcin as [Hcin _].
           apply Descendant_trans with (y := Group.id c); [|exact Hd].
           apply Desc_child with (p := x); auto. constructor.
        -- right. constructor.
      * intros [H|H]; [auto|].
        induction H as [|g p Hg0 Hgp _ IH]; [now right|].
        left. destruct IH as [IH| ->].
        -- apply Hr1. now apply (Hcl1 g p Hg0 Hgp), Hr1.
        -- destruct (s (Group.id g)) eqn:Sg; [now left|].
           right. exists g. split; [|constructor].
           apply filter_In. split; [|now apply optEqb_eq].
           rewrite Hg. apply filter_In. split; [exact Hg0 | now rewrite Sg].
    + rewrite Hg1. apply survivors_without.
    + rewrite Hb1, map_map. apply map_ext. intros b. apply reparent_last.
  - rewrite Hg in Ef.
    pose proof (find_no_survivor s x gx Ef Hgx eq_refl) as Hsx.
    exists st, s. repeat split; auto.
    + intros [H|H]; [exact H|]. now apply (closed_descendants s x y).
    + symmetry. now apply reparent_avoided.
Qed.

End Forest.

(** C5. For a group of a collection with unique ids and parent links
    without a cycle, [removeGroup] returns (with any fuel beyond a bound)
    and removes the group together with all its descendants, and only
    them; the bookmarks of the group and of every removed descendant are
    filed under the [parentId] of the group (ungrouped when it has none),
    the other bookmarks are left alone; so no bookmark is filed under a
    removed id, and when every reference was to a group of the collection
    before the call, so is every reference after it. *)
Theorem removeGroup_cascades (st : State) (group : Group.t) :
  In group (groups st) -> UniqueIds (groups st) -> Acyclic (groups st) ->
  exists st' removed,
    (exists n, forall fuel, (n <= fuel)%nat ->
                            removeGroup fuel (Group.id group) st = Some st') /\
    (forall y, removed y = true <-> Descendant (groups st) (Group.id group) y) /\
    groups st' = survivors removed (groups st) /\
    bookmarks st' = map (reparent removed (Group.parentId group)) (bookmarks st) /\
    ~ In group (groups st') /\
    (forall g, In g (groups st') ->
               ~ Descendant (groups st) (Group.id group) (Group.id g)) /\
    (forall b y, In b (bookmarks st') -> Bookmark.groupId b = Some y ->
                 ~ Descendant (groups st) (Group.id group) y) /\
    ((forall b y, In b (bookmarks st) -> Bookmark.groupId b = Some y ->
                  exists g, In g (groups st) /\ Group.id g = y) ->
     (forall p, Group.parentId group = Some p ->
                exists g, In g (groups st) /\ Group.id g = p) ->
     forall b y, In b (bookmarks st') -> Bookmark.groupId b = Some y ->
                 exists g, In g (groups st') /\ Group.id g = y).
Proof.
  intros Hin Huniq [rank Hrank].
  set (G0 := groups st). set (x := Group.id group). set (none := fun _ : string => false).
  assert (Hg0 : groups st = survivors none G0)
    by (symmetry; apply filter_all; reflexivity).
  assert (Hc0 : ChildClosed G0 none) by (intros g p _ _ H; exact H).
  assert (Hav0 : AvoidedBy (bookmarks st) none) by (intros b y _ _; reflexivity).
  assert (Hrun : forall fuel, (S (rank x) <= fuel)%nat ->
                   RemovesSubtree G0 fuel x (Group.parentId group) none st).
  { intros fuel Hf.
    apply (removeGroup_subtree G0 rank Hrank Huniq fuel group st none); auto. }
  destruct (Hrun (S (rank x)) (le_n _)) as (st' & r & Erun & Hr & Hg & Hb).
  assert (Hchar : forall y, r y = true <-> Descendant G0 x y).
  { intros y. rewrite Hr. unfold none. intuition discriminate. }
  assert (Hav : AvoidedBy (bookmarks st') r).
  { rewrite Hb. now apply (reparent_clears G0 rank Hrank none r x group). }
  exists st', r. split; [|split; [exact Hchar|split; [exact Hg|split; [exact Hb|]]]].
  - exists (S (rank x)). intros fuel Hf.
    destruct (Hrun fuel Hf) as (st2 & r2 & Erun2 & Hr2 & Hg2 & Hb2).
    rewrite Erun2. f_equal.
    assert (Hsame : forall y, r2 y = true <-> r y = true)
      by (intros y; now rewrite Hr2, Hr).
    destruct st2 as [bs2 gs2], st' as [bs' gs']. simpl in *. f_equal.
    + now rewrite Hb2, Hb, (reparent_ext r2 r _ _ Hsame).
    + now rewrite Hg2, Hg, (survivors_ext r2 r _ Hsame).
  - assert (Hgone : forall g, In g (groups st') -> ~ Descendant G0 x (Group.id g)).
    { intros g Hgin Hd. rewrite Hg in Hgin. apply filter_In in Hgin as [_ Hn].
      apply Hchar in Hd. now rewrite Hd in Hn. }
    split; [|split; [exact Hgone|split]].
    + intros Hstill. apply (Hgone group Hstill). constructor.
    + intros b y Hbin Hy Hd. apply Hchar in Hd. rewrite (Hav b y Hbin Hy) in Hd.
      discriminate.
    + intros Hrefs Hparent b y Hbin Hy.
      assert (Hry : r y = false) by now apply (Hav b).
      assert (Hex : exists g, In g G0 /\ Group.id g = y).
      { rewrite Hb in Hbin. apply in_map_iff in Hbin as (b0 & <- & Hb0).
        unfold reparent in Hy.
        destruct (Bookmark.groupId b0) as [z|] eqn:Ez.
        - destruct (r z); [simpl in Hy; now apply Hparent|].
          rewrite Ez in Hy. inversion Hy; subst. now apply (Hrefs b0).
        - rewrite Ez in Hy. discriminate. }
      destruct Hex as (g & Hgin & Hgid). exists g. split; [|exact Hgid].
      rewrite Hg. apply filter_In. split; [exact Hgin|]. now rewrite Hgid, Hry.
Qed.

Lemma removeGroup_cascades_witness :
  let grp i n p := Group.mk i n false 1%Z p (Some 1%Z) in
  let bm i g := Bookmark.mk i i "a.ts" 1%Z 0%Z None 1%Z g (Some 0%Z) in
  let work := grp "w" "Work" None in
  let api := grp "a" "Api" (Some "w") in
  let tests := grp "t" "Tests" (Some "a") in
  let home := grp "h" "Home" None in
  let st := mkState [bm "b1" (Some "a"); bm "b2" (Some "t"); bm "b3" (Some "h");
                     bm "b4" None]
                    [work; api; tests; home] in
  exists st' removed,
    (exists n, forall fuel, (n <= fuel)%nat ->
                            removeGroup fuel "a" st = Some st') /\
    (forall y, removed y = true <-> Descendant (groups st) "a" y) /\
    groups st' = survivors removed (groups st) /\
    bookmarks st' = map (reparent removed (Some "w")) (bookmarks st) /\
    ~ In api (groups st') /\
    (forall g, In g (groups st') -> ~ Descendant (groups st) "a" (Group.id g)) /\
    (forall b y, In b (bookmarks st') -> Bookmark.groupId b = Some y ->
                 ~ Descendant (groups st) "a" y) /\
    ((forall b y, In b (bookmarks st) -> Bookmark.groupId b = Some y ->
                  exists g, In g (groups st) /\ Group.id g = y) ->
     (forall p, Some "w" = Some p ->
                exists g, In g (groups st) /\ Group.id g = p) ->
     forall b y, In b (bookmarks st') -> Bookmark.groupId b = Some y ->
                 exists g, In g (groups st') /\ Group.id g = y).
Proof.
  intros grp bm work api tests home st.
  apply (removeGroup_cascades st api).
  - simpl. auto.
  - unfold UniqueIds. simpl.
    repeat constructor; simpl; intuition discriminate.
  - exists (fun s => if String.eqb s "w" then 2%nat
                     else if String.eqb s "a" then 1%nat else 0%nat).
    intros g p [<-|[<-|[<-|[<-|[]]]]]; simpl; intros E; inversion E; subst; simpl; lia.
Defined.

(** ** Remarks on the orders and on the forest *)

(** The order that [moveGroupToParent] keeps is the one of the group list.
    It need not be the order in which the siblings were displayed: groups
    created one after the other are listed oldest first and displayed
    newest first, and a move into their parent renumbers them as listed. *)
Remark moveGroupToParent_follows_list_order :
  let grp i n p c pr := Group.mk i n false c p (Some pr) in
  let st := mkState [] [grp "w" "Work" None 1%Z 1%Z; grp "h" "Home" None 2%Z 2%Z;
                        grp "t" "Tests" (Some "w") 3%Z 3%Z] in
  map Group.id (sortBy sortGroups (childrenOf None (groups st))) = ["h"; "w"] /\
  map Group.id
      (sortBy sortGroups (childrenOf None (groups (moveGroupToParent "t" None None st))))
  = ["t"; "w"; "h"].
Proof. split; reflexivity. Qed.

(** Without the forest invariant [removeGroup] does not return: on a group
    that is its own parent the recursion uses up any fuel. *)
Remark removeGroup_cycle_never_returns (fuel : nat) :
  let loop := Group.mk "a" "Loop" false 1%Z (Some "a") (Some 1%Z) in
  removeGroup fuel "a" (mkState [] [loop]) = None.
Proof.
  induction fuel as [|f IH]; [reflexivity|].
  simpl in *. unfold forEachGroup. simpl. now rewrite IH.
Qed.

(** * Further properties of the engine *)

(** ** Objects found by [find] *)

Lemma updFirst_split {A : Type} (p : A -> bool) (f : A -> A) (l : list A) (x : A) :
  find p l = Some x ->
  exists front back,
    l = front ++ x :: back /\
    (forall y, In y front -> p y = false) /\
    updFirst p f l = front ++ f x :: back.
Proof.
  induction l as [|y t IH]; simpl; [discriminate|].
  destruct (p y) eqn:Py; intros H.
  - inversion H; subst. exists [], t. repeat split. intros z [].
  - destruct (IH H) as (front & back & -> & Hfront & E).
    exists (y :: front), back. simpl. rewrite E. repeat split.
    intros z [<-|Hz]; auto.
Qed.

Lemma updFirst_map_same {A B : Type} (key : A -> B) (p : A -> bool) (f : A -> A)
    (l : list A) :
  (forall x, key (f x) = key x) -> map key (updFirst p f l) = map key l.
Proof.
  intros Hk. induction l as [|y t IH]; simpl; [reflexivity|].
  destruct (p y); simpl; [now rewrite Hk | now rewrite IH].
Qed.

Lemma updAt_map_same {A B : Type} (key : A -> B) (i : nat) (f : A -> A) (l : list A) :
  (forall x, key (f x) = key x) -> map key (updAt i f l) = map key l.
Proof.
  intros Hk. revert i. induction l as [|y t IH]; intros [|i]; simpl; auto.
  - now rewrite Hk.
  - now rewrite IH.
Qed.

Lemma find_id_none (x : string) (gs : list Group.t) :
  find (fun g => String.eqb (Group.id g) x) gs = None <->
  forall g, In g gs -> Group.id g <> x.
Proof.
  split.
  - intros H g Hin. apply (find_none _ _ H) in Hin. now apply String.eqb_neq.
  - intros H. destruct (find _ gs) as [g|] eqn:E; [|reflexivity].
    apply find_some in E as [Hin Hid]. apply String.eqb_eq in Hid.
    now destruct (H g Hin).
Qed.

(** ** renameGroup *)

Lemma rename_refused_iff (groupId newName : string) (gs : list Group.t) (group : Group.t) :
  existsb (fun g => String.eqb (Group.name g) newName)
    (filter (fun g => optEqb (Group.parentId g) (Group.parentId group)
                      && negb (String.eqb (Group.id g) groupId)) gs) = true
  <-> exists g, In g gs /\ Group.id g <> groupId /\
                Group.parentId g = Group.parentId group /\ Group.name g = newName.
Proof.
  rewrite existsb_exists. split.
  - intros (g & Hin & Hn). apply filter_In in Hin as [Hin Hc].
    apply andb_prop in Hc as [Hp Hid].
    apply negb_true_iff, String.eqb_neq in Hid.
    apply optEqb_eq in Hp. apply String.eqb_eq in Hn. eauto.
  - intros (g & Hin & Hid & Hp & Hn). exists g. rewrite filter_In.
    apply optEqb_eq in Hp. apply String.eqb_neq in Hid. apply String.eqb_eq in Hn.
    rewrite Hp, Hid. auto.
Qed.

(** X1. [renameGroup] returns [false] and leaves the state alone when no
    group has the id or when another group with the same parent has the
    new name; otherwise it returns [true] and changes the name of the first
    group with that id and nothing else. *)
Theorem renameGroup_outcome (groupId newName : string) (st : State) :
  ((forall g, In g (groups st) -> Group.id g <> groupId) ->
   renameGroup groupId newName st = (false, st)) /\
  (forall group,
     find (fun g => String.eqb (Group.id g) groupId) (groups st) = Some group ->
     ((exists g, In g (groups st) /\ Group.id g <> groupId /\
                 Group.parentId g = Group.parentId group /\ Group.name g = newName) ->
      renameGroup groupId newName st = (false, st)) /\
     ((forall g, In g (groups st) -> Group.id g <> groupId ->
                 Group.parentId g = Group.parentId group -> Group.name g <> newName) ->
      exists front back,
        groups st = front ++ group :: back /\
        (forall g, In g front -> Group.id g <> groupId) /\
        renameGroup groupId newName st
        = (true, mkState (bookmarks st) (front ++ renamed newName group :: back)))).
Proof.
  unfold renameGroup. split.
  - intros H. apply find_id_none in H. now rewrite H.
  - intros group Ef. rewrite Ef. split.
    + intros H. apply rename_refused_iff in H. now rewrite H.
    + intros H.
      replace (existsb _ _) with false.
      * destruct (updFirst_split _ (renamed newName) _ _ Ef)
          as (front & back & E & Hfront & Eu).
        exists front, back. split; [exact E|]. split.
        -- intros g Hg. now apply String.eqb_neq, Hfront.
        -- unfold withGroups. unfold renamed in Eu. now rewrite Eu.
      * symmetry. apply not_true_is_false. intros T.
        apply rename_refused_iff in T as (g & Hin & Hid & Hp & Hn).
        now apply (H g).
Qed.

Lemma renameGroup_outcome_witness :
  let work := Group.mk "g1" "Work" false 1%Z None (Some 1%Z) in
  let home := Group.mk "g2" "Home" false 2%Z None (Some 2%Z) in
  let st := mkState [] [work; home] in
  renameGroup "g9" "Job" st = (false, st) /\
  renameGroup "g2" "Work" st = (false, st) /\
  exists front back,
    groups st = front ++ home :: back /\
    (forall g, In g front -> Group.id g <> "g2") /\
    renameGroup "g2" "Job" st
    = (true, mkState (bookmarks st) (front ++ renamed "Job" home :: back)).
Proof.
  intros work home st. split; [|split].
  - apply (renameGroup_outcome "g9" "Job" st).
    intros g [<-|[<-|[]]]; discriminate.
  - apply (proj2 (renameGroup_outcome "g2" "Work" st) home); [reflexivity|].
    exists work. simpl. repeat split; auto. discriminate.
  - apply (proj2 (renameGroup_outcome "g2" "Job" st) home); [reflexivity|].
    intros g [<-|[<-|[]]]; simpl; intros; congruence.
Defined.

(** ** Invariants of the group list *)

Lemma filter_keeps_distinct_keys {A K : Type} (key : A -> K) (keep : A -> bool)
    (xs : list A) :
  NoDup (map key xs) -> NoDup (map key (filter keep xs)).
Proof.
  induction xs as [|x t IH]; simpl; intros ND; [constructor|].
  apply NoDup_cons_iff in ND as [Hx Ht].
  destruct (keep x); simpl; [|now apply IH].
  apply NoDup_cons; [|now apply IH].
  contradict Hx. apply in_map_iff in Hx as (y & E & Hy).
  apply filter_In in Hy as [Hy _]. rewrite <- E. now apply in_map.
Qed.

Lemma filter_split_perm {A : Type} (p : A -> bool) (l : list A) :
  Permutation (filter p l ++ filter (fun x => negb (p x)) l) l.
Proof.
  induction l as [|x t IH]; simpl; [constructor|].
  destruct (p x); simpl.
  - now apply perm_skip.
  - eapply perm_trans; [apply Permutation_sym, Permutation_middle|].
    now apply perm_skip.
Qed.

Lemma filter_twice {A : Type} (p q : A -> bool) (l : list A) :
  filter q (filter p l) = filter (fun x => p x && q x) l.
Proof.
  induction l as [|x t IH]; simpl; [reflexivity|].
  destruct (p x); simpl; [destruct (q x); now rewrite IH | exact IH].
Qed.

(** the two ways [moveGroupToParent] ends for a group that is there *)
Lemma moveGroupToParent_cases (groupId : string) (newParentId insertBefore : option string)
    (st : State) (movingGroup : Group.t) :
  find (fun g => String.eqb (Group.id g) groupId) (groups st) = Some movingGroup ->
  let gs1 := filter (fun g => negb (String.eqb (Group.id g) groupId)) (groups st) in
  groups (moveGroupToParent groupId newParentId insertBefore st) = gs1 \/
  ((forall g, In g (groups st) -> Group.id g <> groupId ->
              Group.parentId g = newParentId ->
              Group.name g <> Group.name movingGroup) /\
   Permutation
     (map groupButPriority (groups (moveGroupToParent groupId newParentId insertBefore st)))
     (map groupButPriority (Group.setParentId newParentId movingGroup :: gs1))).
Proof.
  intros Ef gs1.
  destruct (existsb (fun g => String.eqb (Group.name g) (Group.name movingGroup))
              (filter (fun g => optEqb (Group.parentId g) newParentId
                                && negb (String.eqb (Group.id g) groupId)) gs1)) eqn:Ex.
  - left. unfold moveGroupToParent. rewrite Ef. fold gs1. now rewrite Ex.
  - right.
    assert (Hfree : forall g, In g (groups st) -> Group.id g <> groupId ->
                      Group.parentId g = newParentId ->
                      Group.name g <> Group.name movingGroup).
    { intros g Hin Hid Hp Hn.
      assert (T : existsb (fun g => String.eqb (Group.name g) (Group.name movingGroup))
                    (filter (fun g => optEqb (Group.parentId g) newParentId
                                      && negb (String.eqb (Group.id g) groupId)) gs1) = true).
      { apply existsb_exists. exists g. apply String.eqb_neq in Hid.
        split; [|now apply String.eqb_eq].
        unfold gs1. rewrite !filter_In, Hid. apply optEqb_eq in Hp. rewrite Hp. auto. }
      congruence. }
    split; [exact Hfree|].
    rewrite (moveGroupToParent_accepted groupId newParentId insertBefore st
               movingGroup Ef Hfree).
    fold gs1. rewrite map_app, renumber_fields, <- map_app.
    apply Permutation_map.
    set (sib := childrenOf newParentId gs1).
    set (idx := insertIndex insertBefore sib).
    eapply perm_trans; [apply Permutation_app_comm|].
    rewrite <- app_assoc. simpl.
    eapply perm_trans; [apply Permutation_sym, Permutation_middle|].
    apply perm_skip. rewrite app_assoc, firstn_skipn.
    apply filter_split_perm.
Qed.

(** [removeGroup] only takes groups out of the list *)
Lemma removeGroup_only_filters (fuel : nat) :
  forall x st st',
    removeGroup fuel x st = Some st' ->
    exists keep, groups st' = filter keep (groups st).
Proof.
  induction fuel as [|f IH]; intros x st st' H; [discriminate|].
  simpl in H. destruct (find _ (groups st)) as [group|].
  - set (cs := filter (fun g => optEqb (Group.parentId g) (Some x)) (groups st)) in H.
    assert (Hloop : forall cs st0 st1,
               forEachGroup (removeGroup f) cs st0 = Some st1 ->
               exists keep, groups st1 = filter keep (groups st0)).
    { clear - IH. induction cs as [|c cs IHcs]; intros st0 st1 H.
      - rewrite forEachGroup_nil in H. inversion H; subst.
        exists (fun _ => true). symmetry. apply filter_all. reflexivity.
      - rewrite forEachGroup_cons in H.
        destruct (removeGroup f (Group.id c) st0) as [s|] eqn:E; [|discriminate].
        destruct (IH _ _ _ E) as [k1 E1]. destruct (IHcs _ _ H) as [k2 E2].
        exists (fun g => k1 g && k2 g). now rewrite E2, E1, filter_twice. }
    destruct (forEachGroup (removeGroup f) cs st) as [st1|] eqn:E; [|discriminate].
    inversion H; subst. simpl.
    destruct (Hloop _ _ _ E) as [k1 E1].
    eexists. rewrite E1, filter_twice. reflexivity.
  - inversion H; subst. exists (fun _ => true). symmetry. apply filter_all. reflexivity.
Qed.

Lemma map_through_fields {K : Type} (key : Group.t -> K) (l : list Group.t) :
  (forall g, key (groupButPriority g) = key g) ->
  map key (map groupButPriority l) = map key l.
Proof. intros H. rewrite map_map. apply map_ext. exact H. Qed.

(** the keys of the groups after a [moveGroupToParent], for a key that the
    priority is no part of and that the parent may be part of *)
Lemma moveGroupToParent_keys {K : Type} (key : Group.t -> K)
    (groupId : string) (newParentId insertBefore : option string) (st : State) :
  (forall g, key (groupButPriority g) = key g) ->
  NoDup (map key (groups st)) ->
  (forall mg, find (fun g => String.eqb (Group.id g) groupId) (groups st) = Some mg ->
              (forall g, In g (groups st) -> Group.id g <> groupId ->
                         Group.parentId g = newParentId ->
                         Group.name g <> Group.name mg) ->
              forall g, In g (groups st) -> Group.id g <> groupId ->
                        key g <> key (Group.setParentId newParentId mg)) ->
  NoDup (map key (groups (moveGroupToParent groupId newParentId insertBefore st))).
Proof.
  intros Hkey ND Hfresh.
  destruct (find (fun g => String.eqb (Group.id g) groupId) (groups st)) as [mg|] eqn:Ef.
  - destruct (moveGroupToParent_cases groupId newParentId insertBefore st mg Ef)
      as [E|[Hfree P]].
    + rewrite E. now apply filter_keeps_distinct_keys.
    + apply (Permutation_map key) in P. rewrite !map_through_fields in P by exact Hkey.
      apply (Permutation_NoDup (Permutation_sym P)). simpl.
      apply NoDup_cons; [|now apply filter_keeps_distinct_keys].
      intros Hin. apply in_map_iff in Hin as (g & E & Hg).
      apply filter_In in Hg as [Hg Hid]. apply negb_true_iff, String.eqb_neq in Hid.
      now apply (Hfresh mg eq_refl Hfree g Hg Hid).
  - unfold moveGroupToParent. now rewrite Ef.
Qed.

(** X2. The group operations keep the ids of the groups distinct:
    [createGroup] when the generated id is new, and [renameGroup],
    [setGroupAsDefault], [moveGroupRelative], [moveGroupToParent] and
    [removeGroup] always. *)
Theorem unique_ids_kept (st : State) :
  UniqueIds (groups st) ->
  (forall newId now groupName isDefault parentId,
      (forall g, In g (groups st) -> Group.id g <> newId) ->
      UniqueIds (groups (snd (createGroup newId now groupName isDefault parentId st)))) /\
  (forall groupId newName,
      UniqueIds (groups (snd (renameGroup groupId newName st)))) /\
  (forall groupId, UniqueIds (groups (setGroupAsDefault groupId st))) /\
  (forall groupId delta,
      UniqueIds (groups (snd (moveGroupRelative groupId delta st)))) /\
  (forall groupId newParentId insertBefore,
      UniqueIds (groups (moveGroupToParent groupId newParentId insertBefore st))) /\
  (forall fuel groupId st',
      removeGroup fuel groupId st = Some st' -> UniqueIds (groups st')).
Proof.
  unfold UniqueIds. intros ND. repeat split.
  - intros newId now n d p Hnew. unfold createGroup.
    destruct (truthy n); simpl; [|exact ND].
    destruct (existsb _ _); simpl; [exact ND|].
    rewrite map_app. simpl.
    assert (E : map Group.id (if d then map (Group.setIsDefault false) (groups st)
                              else groups st) = map Group.id (groups st)).
    { destruct d; [|reflexivity]. rewrite map_map. now apply map_ext. }
    rewrite E. apply NoDup_app; [exact ND | repeat constructor; intros [] |].
    intros x Hx [<-|[]]. apply in_map_iff in Hx as (g & Hid & Hg).
    now apply (Hnew g).
  - intros x n. unfold renameGroup.
    destruct (find _ (groups st)); [|exact ND].
    destruct (existsb _ _); simpl; [exact ND|].
    now rewrite updFirst_map_same.
  - intros x. unfold setGroupAsDefault.
    destruct (find _ _); simpl; rewrite ?updFirst_map_same by reflexivity;
      rewrite map_map; exact ND.
  - intros x d. unfold moveGroupRelative.
    destruct (find _ (groups st)); [|exact ND].
    destruct (findIndex _ _); [|exact ND].
    destruct (_ || _); [exact ND|].
    destruct (nth_error _ _) as [[ia a]|]; [|exact ND].
    destruct (nth_error _ _) as [[ib b]|]; [|exact ND].
    simpl. now rewrite !updAt_map_same by reflexivity.
  - intros x p ib. apply moveGroupToParent_keys; auto.
    intros mg Ef _ g Hg Hid E. simpl in E. apply Hid. rewrite E.
    apply find_some in Ef as [_ Ef]. now apply String.eqb_eq.
  - intros fuel x st' H. destruct (removeGroup_only_filters _ _ _ _ H) as [keep ->].
    now apply filter_keeps_distinct_keys.
Qed.

Lemma unique_ids_kept_witness :
  let work := Group.mk "g1" "Work" false 1%Z None (Some 1%Z) in
  let sub := Group.mk "g2" "Notes" false 2%Z (Some "g1") (Some 2%Z) in
  let st := mkState [] [work; sub] in
  UniqueIds (groups (snd (createGroup "g3" 3%Z "Home" true None st))) /\
  UniqueIds (groups (moveGroupToParent "g2" None (Some "g1") st)).
Proof.
  intros work sub st.
  assert (U : UniqueIds (groups st)).
  { unfold UniqueIds. simpl. repeat constructor; simpl; intuition discriminate. }
  split.
  - apply (unique_ids_kept st U).
    intros g [<-|[<-|[]]]; discriminate.
  - apply (unique_ids_kept st U).
Defined.

Lemma NoDup_replace_middle {K : Type} (front back : list K) (k k' : K) :
  NoDup (front ++ k :: back) -> ~ In k' (front ++ back) ->
  NoDup (front ++ k' :: back).
Proof.
  intros ND Hk'. apply NoDup_remove_1 in ND.
  apply (Permutation_NoDup (Permutation_middle front back k')).
  now apply NoDup_cons.
Qed.

(** X3. The group operations keep the names of the groups with the same
    parent distinct: [createGroup], [setGroupAsDefault],
    [moveGroupRelative], [moveGroupToParent] and [removeGroup] always, and
    [renameGroup] when the ids of the groups are distinct. *)
Theorem sibling_names_kept (st : State) :
  NoSiblingNameClash (groups st) ->
  (forall newId now groupName isDefault parentId,
      NoSiblingNameClash
        (groups (snd (createGroup newId now groupName isDefault parentId st)))) /\
  (forall groupId newName,
      UniqueIds (groups st) ->
      NoSiblingNameClash (groups (snd (renameGroup groupId newName st)))) /\
  (forall groupId, NoSiblingNameClash (groups (setGroupAsDefault groupId st))) /\
  (forall groupId delta,
      NoSiblingNameClash (groups (snd (moveGroupRelative groupId delta st)))) /\
  (forall groupId newParentId insertBefore,
      NoSiblingNameClash (groups (moveGroupToParent groupId newParentId insertBefore st))) /\
  (forall fuel groupId st',
      removeGroup fuel groupId st = Some st' -> NoSiblingNameClash (groups st')).
Proof.
  unfold NoSiblingNameClash. intros ND. repeat split.
  - intros newId now n d p. unfold createGroup.
    destruct (truthy n); simpl; [|exact ND].
    destruct (existsb _ _) eqn:Ex; simpl; [exact ND|].
    rewrite map_app. simpl.
    assert (E : map siblingKey (if d then map (Group.setIsDefault false) (groups st)
                                else groups st) = map siblingKey (groups st)).
    { destruct d; [|reflexivity]. rewrite map_map. now apply map_ext. }
    rewrite E. apply NoDup_app; [exact ND | repeat constructor; intros [] |].
    intros k Hk [<-|[]]. apply in_map_iff in Hk as (g & Hkey & Hg).
    inversion Hkey as [[Hp Hn]].
    apply (proj1 (sibling_name_free (groups st) p n) Ex g Hg Hn Hp).
  - intros x n U. unfold renameGroup.
    destruct (find _ (groups st)) as [group|] eqn:Ef; [|exact ND].
    destruct (existsb _ _) eqn:Ex; simpl; [exact ND|].
    destruct (updFirst_split _ (renamed n) _ _ Ef) as (front & back & E & _ & Eu).
    unfold renamed in Eu. rewrite Eu. rewrite E in ND, U.
    rewrite map_app in *. simpl in *.
    apply (NoDup_replace_middle _ _ _ _ ND).
    rewrite <- map_app. intros Hin. apply in_map_iff in Hin as (g & Hkey & Hg).
    inversion Hkey as [[Hp Hn]].
    assert (Hid : Group.id g <> x).
    { apply find_some in Ef as [_ Ex']. apply String.eqb_eq in Ex'. rewrite <- Ex'.
      unfold UniqueIds in U. rewrite map_app in U. simpl in U.
      apply NoDup_remove_2 in U. intros Heq. apply U. rewrite <- Heq.
      rewrite <- map_app. now apply in_map. }
    assert (T : existsb (fun g => String.eqb (Group.name g) n)
                  (filter (fun g => optEqb (Group.parentId g) (Group.parentId group)
                                    && negb (String.eqb (Group.id g) x)) (groups st)) = true).
    { apply rename_refused_iff. exists g. rewrite E. repeat split; auto.
      apply in_app_or in Hg as [Hg|Hg]; apply in_or_app; [left | right; right]; exact Hg. }
    congruence.
  - intros x. unfold setGroupAsDefault.
    destruct (find _ _); simpl; rewrite ?updFirst_map_same by reflexivity;
      rewrite map_map; exact ND.
  - intros x d. unfold moveGroupRelative.
    destruct (find _ (groups st)); [|exact ND].
    destruct (findIndex _ _); [|exact ND].
    destruct (_ || _); [exact ND|].
    destruct (nth_error _ _) as [[ia a]|]; [|exact ND].
    destruct (nth_error _ _) as [[ib b]|]; [|exact ND].
    simpl. now rewrite !updAt_map_same by reflexivity.
  - intros x p ib. apply moveGroupToParent_keys; auto.
    intros mg Ef Hfree g Hg Hid E. inversion E as [[Hp Hn]].
    now apply (Hfree g).
  - intros fuel x st' H. destruct (removeGroup_only_filters _ _ _ _ H) as [keep ->].
    now apply filter_keeps_distinct_keys.
Qed.

Lemma sibling_names_kept_witness :
  let work := Group.mk "g1" "Work" false 1%Z None (Some 1%Z) in
  let sub := Group.mk "g2" "Work" false 2%Z (Some "g1") (Some 2%Z) in
  let st := mkState [] [work; sub] in
  NoSiblingNameClash (groups (moveGroupToParent "g2" None None st)) /\
  NoSiblingNameClash (groups (snd (renameGroup "g2" "Notes" st))).
Proof.
  intros work sub st.
  assert (N : NoSiblingNameClash (groups st)).
  { unfold NoSiblingNameClash. simpl. repeat constructor; simpl; intuition discriminate. }
  split.
  - apply (sibling_names_kept st N).
  - apply (sibling_names_kept st N).
    unfold UniqueIds. simpl. repeat constructor; simpl; intuition discriminate.
Defined.

(** ** The priority of a new and of a default group *)




Lemma maxPriority_ext (l l' : list Group.t) :
  map groupPrio l = map groupPrio l' -> maxPriority l = maxPriority l'.
Proof.
  unfold maxPriority. generalize 0%Z. revert l'.
  induction l as [|a l IH]; intros [|b l'] start H; simpl in *; try discriminate;
    [reflexivity|].
  inversion H as [[Hab Hl]]. rewrite Hab. now apply IH.
Qed.

Lemma updFirst_at_split {A : Type} (p : A -> bool) (f : A -> A)
    (front : list A) (x : A) (back : list A) :
  (forall y, In y front -> p y = false) -> p x = true ->
  updFirst p f (front ++ x :: back) = front ++ f x :: back.
Proof.
  intros Hfront Px. induction front as [|y t IH]; simpl.
  - now rewrite Px.
  - rewrite (Hfront y) by now left. f_equal. apply IH. intros; apply Hfront. now right.
Qed.





(** the group list that [setGroupAsDefault] builds *)
Lemma setGroupAsDefault_groups (groupId : string) (st : State) (group : Group.t) :
  find (fun g => String.eqb (Group.id g) groupId) (groups st) = Some group ->
  exists front back,
    groups st = front ++ group :: back /\
    (forall h, In h front -> Group.id h <> groupId) /\
    setGroupAsDefault groupId st
    = mkState (bookmarks st)
        (map (Group.setIsDefault false) front
         ++ Group.mk (Group.id group) (Group.name group) true (Group.created group)
                     (Group.parentId group) (Some (maxPriority (groups st) + 1)%Z)
         :: map (Group.setIsDefault false) back).
Proof.
  intros Ef.
  destruct (updFirst_split _ (fun g => g) _ _ Ef) as (front & back & E & Hfront & _).
  unfold setGroupAsDefault. rewrite find_cleared, Ef. simpl.
  set (p := fun g => String.eqb (Group.id g) groupId) in *.
  assert (Pg : p group = true) by (apply find_some in Ef; tauto).
  set (cf := map (Group.setIsDefault false) front).
  set (cb := map (Group.setIsDefault false) back).
  assert (Hcf : forall y, In y cf -> p y = false).
  { intros y Hy. apply in_map_iff in Hy as (h & <- & Hh).
    change (p h = false). now apply Hfront. }
  assert (Ec : map (Group.setIsDefault false) (groups st)
               = cf ++ Group.setIsDefault false group :: cb)
    by (rewrite E, map_app; reflexivity).
  rewrite Ec.
  rewrite (updFirst_at_split p (Group.setIsDefault true) cf
             (Group.setIsDefault false group) cb Hcf Pg).
  rewrite (updFirst_at_split p _ cf
             (Group.setIsDefault true (Group.setIsDefault false group)) cb Hcf Pg).
  assert (Emax : maxPriority (cf ++ Group.setIsDefault true
                                      (Group.setIsDefault false group) :: cb)
                 = maxPriority (groups st)).
  { apply maxPriority_ext. rewrite E, !map_app. simpl. unfold cf, cb.
    rewrite !map_map. reflexivity. }
  rewrite Emax.
  exists front, back.
  split; [exact E|]. split; [intros h Hh; now apply String.eqb_neq, Hfront|].
  reflexivity.
Qed.



(** ** addBookmark and removeBookmark *)

Lemma find_default_after_cleared (front back : list Group.t) (g : Group.t) :
  Group.isDefault g = true ->
  find Group.isDefault (map (Group.setIsDefault false) front ++ g :: back) = Some g.
Proof.
  intros Hg. induction front as [|h t IH]; simpl; [now rewrite Hg | exact IH].
Qed.

Lemma find_no_default (gs : list Group.t) :
  filter Group.isDefault gs = [] -> find Group.isDefault gs = None.
Proof.
  induction gs as [|h t IH]; simpl; [reflexivity|].
  destruct (Group.isDefault h); [discriminate | exact IH].
Qed.

(** X6. [addBookmark] with an editor and a non-empty label appends one
    bookmark with priority 0, filed under the default group: under the
    group that a preceding [setGroupAsDefault] marked, under the group that
    a preceding [createGroup] with [isDefault] made, and under no group
    when no group is the default. *)
Theorem addBookmark_files_under_default
    (ed : Editor) (l newId : string) (now : Z) (st : State) :
  l <> "" ->
  let added gid :=
    Bookmark.mk newId l (fileName ed) (cursorLine ed) (cursorCharacter ed) None now
                gid (Some 0%Z) in
  (forall groupId group,
      find (fun g => String.eqb (Group.id g) groupId) (groups st) = Some group ->
      addBookmark (Some ed) (Some l) newId now (setGroupAsDefault groupId st)
      = withBookmarks (bookmarks st ++ [added (Some groupId)])
                      (setGroupAsDefault groupId st)) /\
  (forall gId t n p g st1,
      createGroup gId t n true p st = (Some g, st1) ->
      addBookmark (Some ed) (Some l) newId now st1
      = withBookmarks (bookmarks st ++ [added (Some gId)]) st1) /\
  (defaultCount st = 0%nat ->
   addBookmark (Some ed) (Some l) newId now st
   = withBookmarks (bookmarks st ++ [added None]) st).
Proof.
  intros Hl added. apply truthy_nonempty in Hl. unfold addBookmark. rewrite Hl.
  split; [|split].
  - intros groupId group Ef.
    destruct (setGroupAsDefault_groups groupId st group Ef) as (front & back & _ & _ & ->).
    simpl. rewrite find_default_after_cleared by reflexivity. simpl.
    apply find_some in Ef as [_ Ef]. apply String.eqb_eq in Ef. now rewrite Ef.
  - intros gId t n p g st1 H. unfold createGroup in H.
    destruct (truthy n); simpl in H; [|discriminate].
    destruct (existsb _ _); simpl in H; [discriminate|].
    inversion H; subst; clear H. simpl.
    rewrite <- (app_nil_r (map _ _ ++ [_])), <- app_assoc. simpl.
    now rewrite find_default_after_cleared by reflexivity.
  - intros H0. unfold defaultCount in H0. apply length_zero_iff_nil in H0.
    now rewrite (find_no_default _ H0).
Qed.

Lemma addBookmark_files_under_default_witness :
  let ed := mkEditor "a.ts" 10%Z 2%Z in
  let work := Group.mk "g1" "Work" true 1%Z None (Some 1%Z) in
  let home := Group.mk "g2" "Home" false 2%Z None (Some 2%Z) in
  let st := mkState [] [work; home] in
  addBookmark (Some ed) (Some "foo") "b1" 5%Z (setGroupAsDefault "g2" st)
  = withBookmarks [Bookmark.mk "b1" "foo" "a.ts" 10%Z 2%Z None 5%Z (Some "g2") (Some 0%Z)]
                  (setGroupAsDefault "g2" st).
Proof.
  intros ed work home st.
  apply (addBookmark_files_under_default ed "foo" "b1" 5%Z st) with (group := home).
  - discriminate.
  - reflexivity.
Defined.

(** [splice(index, 1)] at the place of [x] *)
Lemma splice_one {A : Type} (front back : list A) (x : A) :
  firstn (List.length front) (front ++ x :: back)
  ++ skipn (S (List.length front)) (front ++ x :: back)
  = front ++ back.
Proof.
  induction front as [|y t IH]; [reflexivity|].
  simpl List.length. rewrite <- !app_comm_cons, firstn_cons, skipn_cons.
  rewrite <- app_comm_cons. now rewrite IH.
Qed.

(** X7. [removeBookmark] leaves the state alone when no bookmark has the
    id; otherwise it takes out the first bookmark with that id and nothing
    else, so with distinct ids no bookmark with that id is left. *)
Theorem removeBookmark_takes_out_one (bookmarkId : string) (st : State) :
  ((forall b, In b (bookmarks st) -> Bookmark.id b <> bookmarkId) ->
   removeBookmark bookmarkId st = st) /\
  (forall b,
     find (fun b => String.eqb (Bookmark.id b) bookmarkId) (bookmarks st) = Some b ->
     exists front back,
       bookmarks st = front ++ b :: back /\
       (forall x, In x front -> Bookmark.id x <> bookmarkId) /\
       removeBookmark bookmarkId st = mkState (front ++ back) (groups st) /\
       (NoDup (map Bookmark.id (bookmarks st)) ->
        forall x, In x (front ++ back) -> Bookmark.id x <> bookmarkId)).
Proof.
  unfold removeBookmark. split.
  - intros H.
    replace (findIndex _ _) with (@None nat); [reflexivity|].
    symmetry. apply findIndex_None. intros b Hb. now apply String.eqb_neq, H.
  - intros b Ef.
    destruct (updFirst_split _ (fun x => x) _ _ Ef) as (front & back & E & Hfront & _).
    assert (Pb : String.eqb (Bookmark.id b) bookmarkId = true)
      by (apply find_some in Ef; tauto).
    rewrite (findIndex_first _ _ (List.length front) b).
    + exists front, back. split; [exact E|].
      split; [intros x Hx; now apply String.eqb_neq, Hfront|]. split.
      * unfold withBookmarks. f_equal. rewrite E. now rewrite splice_one.
      * intros ND x Hx Hid. rewrite E, map_app in ND. simpl in ND.
        apply NoDup_remove_2 in ND. apply ND.
        apply String.eqb_eq in Pb. rewrite Pb, <- Hid, <- map_app. now apply in_map.
    + rewrite E, nth_error_app2, Nat.sub_diag by lia. reflexivity.
    + exact Pb.
    + intros k y Hk Hy. rewrite E, nth_error_app1 in Hy by exact Hk.
      apply nth_error_In in Hy. now apply Hfront.
Qed.

Lemma removeBookmark_takes_out_one_witness :
  let mk i := Bookmark.mk i i "a.ts" 1%Z 0%Z None 1%Z None (Some 0%Z) in
  let st := mkState [mk "b1"; mk "b2"; mk "b3"] [] in
  removeBookmark "b9" st = st /\
  exists front back,
    bookmarks st = front ++ mk "b2" :: back /\
    (forall x, In x front -> Bookmark.id x <> "b2") /\
    removeBookmark "b2" st = mkState (front ++ back) (groups st) /\
    (NoDup (map Bookmark.id (bookmarks st)) ->
     forall x, In x (front ++ back) -> Bookmark.id x <> "b2").
Proof.
  intros mk st. split.
  - apply (removeBookmark_takes_out_one "b9" st).
    intros b [<-|[<-|[<-|[]]]]; discriminate.
  - apply (proj2 (removeBookmark_takes_out_one "b2" st) (mk "b2")). reflexivity.
Defined.

(** ** Relative moves and the sorted order *)







(** ** moveGroupRelative *)






(** X10. [moveGroupRelative] returns [false] and leaves the state alone
    when no group has the id, when the group is the first of its sorted
    siblings and is moved toward the front, and when it is the last one
    and is moved toward the back. *)
Theorem moveGroupRelative_at_the_edge (groupId : string) (st : State) :
  (forall delta,
      (forall g, In g (groups st) -> Group.id g <> groupId) ->
      moveGroupRelative groupId delta st = (false, st)) /\
  (forall group,
     find (fun g => String.eqb (Group.id g) groupId) (groups st) = Some group ->
     ((exists i g rest,
         groupSiblings (Group.parentId group) (groups st) = (i, g) :: rest /\
         Group.id g = groupId) ->
      moveGroupRelative groupId Up st = (false, st)) /\
     ((exists init i g,
         groupSiblings (Group.parentId group) (groups st) = init ++ [(i, g)] /\
         Group.id g = groupId /\
         forall x, In x init -> Group.id (snd x) <> groupId) ->
      moveGroupRelative groupId Down st = (false, st))).
Proof.
  unfold moveGroupRelative. split.
  - intros delta H. apply find_id_none in H. now rewrite H.
  - intros group Ef. rewrite Ef. split.
    + intros (i & g & rest & -> & Hid). simpl.
      apply String.eqb_eq in Hid. now rewrite Hid.
    + intros (init & i & g & -> & Hid & Hinit).
      rewrite (findIndex_first _ _ (List.length init) (i, g)).
      * rewrite length_app. simpl.
        replace (_ || _) with true; [reflexivity|].
        symmetry. apply orb_true_iff. right. rewrite Z.geb_leb. apply Z.leb_le. lia.
      * rewrite nth_error_app2, Nat.sub_diag by lia. reflexivity.
      * simpl. now apply String.eqb_eq.
      * intros k y Hk Hy. rewrite nth_error_app1 in Hy by exact Hk.
        apply nth_error_In in Hy. now apply String.eqb_neq, Hinit.
Qed.

Lemma moveGroupRelative_at_the_edge_witness :
  let mk i p c := Group.mk i i false c None p in
  let st := mkState [] [mk "g1" (Some 1%Z) 1%Z; mk "g2" (Some 2%Z) 2%Z] in
  moveGroupRelative "g9" Up st = (false, st) /\
  moveGroupRelative "g2" Up st = (false, st) /\
  moveGroupRelative "g1" Down st = (false, st).
Proof.
  intros mk st. split; [|split].
  - apply (moveGroupRelative_at_the_edge "g9" st).
    intros g [<-|[<-|[]]]; discriminate.
  - apply (proj2 (moveGroupRelative_at_the_edge "g2" st) (mk "g2" (Some 2%Z) 2%Z));
      [reflexivity|].
    exists 1%nat, (mk "g2" (Some 2%Z) 2%Z), [(0%nat, mk "g1" (Some 1%Z) 1%Z)].
    split; reflexivity.
  - apply (proj2 (moveGroupRelative_at_the_edge "g1" st) (mk "g1" (Some 1%Z) 1%Z));
      [reflexivity|].
    exists [(1%nat, mk "g2" (Some 2%Z) 2%Z)], 0%nat, (mk "g1" (Some 1%Z) 1%Z).
    split; [reflexivity|]. split; [reflexivity|].
    intros x [<-|[]]. discriminate.
Defined.

(** ** getGroupPath *)

Lemma append_assoc (a b c : string) :
  String.append (String.append a b) c = String.append a (String.append b c).
Proof. induction a as [|ch a IH]; simpl; [reflexivity | now rewrite IH]. Qed.

(** joining one more name at the end *)
Lemma join_snoc (sep : string) (l : list string) (x : string) :
  l <> [] ->
  String.concat sep (l ++ [x])
  = String.append (String.concat sep l) (String.append sep x).
Proof.
  induction l as [|a t IH]; intros Hl; [congruence|].
  destruct t as [|b t]; [reflexivity|].
  change (String.concat sep ((a :: b :: t) ++ [x]))
    with (String.append a (String.append sep (String.concat sep ((b :: t) ++ [x])))).
  rewrite IH by discriminate.
  change (String.concat sep (a :: b :: t))
    with (String.append a (String.append sep (String.concat sep (b :: t)))).
  now rewrite !append_assoc.
Qed.

(** the walk puts what it finds in front of [path] *)
Lemma walkGroupPath_acc (fuel : nat) (gs : list Group.t) :
  forall cur path,
    walkGroupPath fuel gs cur path
    = option_map (fun l => l ++ path) (walkGroupPath fuel gs cur []).
Proof.
  induction fuel as [|f IH]; intros [g|] path; simpl; try reflexivity.
  destruct (Group.parentId g) as [p|]; [|reflexivity].
  destruct (truthy p); [|reflexivity].
  rewrite (IH _ (Group.name g :: path)), (IH _ [Group.name g]).
  destruct (walkGroupPath f gs _ []) as [l|]; simpl; [|reflexivity].
  now rewrite <- app_assoc.
Qed.

Lemma walkGroupPath_more_fuel (fuel : nat) (gs : list Group.t) :
  forall cur path l,
    walkGroupPath fuel gs cur path = Some l ->
    walkGroupPath (S fuel) gs cur path = Some l.
Proof.
  induction fuel as [|f IH]; intros [g|] path l H; try discriminate; try exact H.
  simpl in H. change (walkGroupPath (S (S f)) gs (Some g) path)
    with (match Group.parentId g with
          | Some p => if truthy p
                      then walkGroupPath (S f) gs
                             (find (fun h => String.eqb (Group.id h) p) gs)
                             (Group.name g :: path)
                      else Some (Group.name g :: path)
          | None => Some (Group.name g :: path)
          end).
  destruct (Group.parentId g) as [p|]; [|exact H].
  destruct (truthy p); [|exact H]. now apply IH.
Qed.

Lemma walkGroupPath_enough_fuel (gs : list Group.t) (n fuel : nat) :
  forall cur path l,
    (n <= fuel)%nat -> walkGroupPath n gs cur path = Some l ->
    walkGroupPath fuel gs cur path = Some l.
Proof.
  intros cur path l Hle H. induction Hle as [|m _ IH]; [exact H|].
  now apply walkGroupPath_more_fuel.
Qed.

(** X11. [getGroupPath] gives the empty string for an id that no group
    has; the name of the group when the group has no parent, an empty
    [parentId] or a [parentId] that no group has; and otherwise the path of
    the parent followed by [" > "] and the name of the group. *)
Theorem getGroupPath_builds_path (groupId : string) (st : State) :
  (forall fuel,
      (forall g, In g (groups st) -> Group.id g <> groupId) ->
      getGroupPath fuel groupId st = Some "") /\
  (forall group,
     find (fun g => String.eqb (Group.id g) groupId) (groups st) = Some group ->
     (forall fuel,
         (Group.parentId group = None \/ Group.parentId group = Some "" \/
          exists p, Group.parentId group = Some p /\
                    forall g, In g (groups st) -> Group.id g <> p) ->
         getGroupPath (S fuel) groupId st = Some (Group.name group)) /\
     (forall fuel p parent s,
         Group.parentId group = Some p -> p <> "" ->
         find (fun g => String.eqb (Group.id g) p) (groups st) = Some parent ->
         getGroupPath fuel p st = Some s ->
         getGroupPath (S fuel) groupId st
         = Some (String.append s (String.append " > " (Group.name group))))).
Proof.
  unfold getGroupPath. split.
  - intros fuel H. apply find_id_none in H. rewrite H. now destruct fuel.
  - intros group Ef. rewrite Ef. split.
    + intros fuel [H|[H|(p & H & Hp)]]; simpl; rewrite H; try reflexivity.
      destruct (truthy p); [|reflexivity].
      apply find_id_none in Hp. rewrite Hp. now destruct fuel.
    + intros fuel p parent s Hp Hne Efp Hs. simpl. rewrite Hp.
      apply truthy_nonempty in Hne. rewrite Hne, Efp.
      rewrite Efp in Hs. rewrite walkGroupPath_acc.
      destruct (walkGroupPath fuel (groups st) (Some parent) []) as [l|] eqn:El;
        [|discriminate].
      simpl in *. inversion Hs; subst s. f_equal.
      apply join_snoc.
      destruct fuel as [|f]; [discriminate|]. simpl in El.
      destruct (Group.parentId parent) as [q|].
      * destruct (truthy q).
        -- rewrite walkGroupPath_acc in El.
           destruct (walkGroupPath f _ _ []) as [l'|]; [|discriminate].
           simpl in El. inversion El. now destruct l'.
        -- inversion El. discriminate.
      * inversion El. discriminate.
Qed.

Lemma getGroupPath_builds_path_witness :
  let a := Group.mk "a" "A" false 1%Z None (Some 1%Z) in
  let b := Group.mk "b" "B" false 2%Z (Some "a") (Some 2%Z) in
  let c := Group.mk "c" "C" false 3%Z (Some "b") (Some 3%Z) in
  let st := mkState [] [a; b; c] in
  getGroupPath 0 "z" st = Some "" /\
  getGroupPath 1 "a" st = Some "A" /\
  getGroupPath 3 "c" st = Some "A > B > C".
Proof.
  intros a b c st. split; [|split].
  - apply (getGroupPath_builds_path "z" st).
    intros g [<-|[<-|[<-|[]]]]; discriminate.
  - apply (proj1 (proj2 (getGroupPath_builds_path "a" st) a eq_refl)). now left.
  - apply (proj2 (proj2 (getGroupPath_builds_path "c" st) c eq_refl) 2%nat "b" b "A > B");
      try reflexivity. discriminate.
Defined.

(** X12. On a group list whose parent links have no cycle [getGroupPath]
    returns: there is a bound on the fuel beyond which it gives one and
    the same path. *)
Theorem getGroupPath_returns_on_forest (groupId : string) (st : State) :
  Acyclic (groups st) ->
  exists s n, forall fuel, (n <= fuel)%nat -> getGroupPath fuel groupId st = Some s.
Proof.
  intros [rank Hrank].
  set (gs := groups st).
  set (top := list_max (map (fun g => rank (Group.id g)) gs)).
  assert (Htop : forall g, In g gs -> (rank (Group.id g) <= top)%nat).
  { intros g Hg.
    assert (F : Forall (fun k => (k <= top)%nat) (map (fun g => rank (Group.id g)) gs))
      by now apply list_max_le.
    rewrite Forall_forall in F. apply F. now apply in_map with (f := fun g => rank (Group.id g)). }
  assert (Hwalk : forall fuel cur path,
             (match cur with
              | Some g => In g gs /\ (top < fuel + rank (Group.id g))%nat
              | None => True
              end) ->
             exists l, walkGroupPath fuel gs cur path = Some l).
  { induction fuel as [|f IH]; intros [g|] path Hcur; simpl; eauto.
    - destruct Hcur as [Hg Hlt]. specialize (Htop g Hg). simpl in Hlt. lia.
    - destruct Hcur as [Hg Hlt].
      destruct (Group.parentId g) as [p|] eqn:Ep; eauto.
      destruct (truthy p); eauto.
      apply IH.
      destruct (find _ gs) as [h|] eqn:Eh; [|exact I].
      apply find_some in Eh as [Hh Hid]. apply String.eqb_eq in Hid.
      split; [exact Hh|]. specialize (Hrank g p Hg Ep). rewrite Hid. lia. }
  destruct (Hwalk (S top) (find (fun g => String.eqb (Group.id g) groupId) gs) [])
    as [l El].
  { destruct (find _ gs) as [g|] eqn:Eg; [|exact I].
    apply find_some in Eg as [Hg _]. split; [exact Hg | lia]. }
  exists (String.concat " > " l), (S top). intros fuel Hf.
  unfold getGroupPath. fold gs.
  now rewrite (walkGroupPath_enough_fuel gs (S top) fuel _ _ l Hf El).
Qed.

Lemma getGroupPath_returns_on_forest_witness :
  let a := Group.mk "a" "A" false 1%Z None (Some 1%Z) in
  let b := Group.mk "b" "B" false 2%Z (Some "a") (Some 2%Z) in
  let st := mkState [] [a; b] in
  exists s n, forall fuel, (n <= fuel)%nat -> getGroupPath fuel "b" st = Some s.
Proof.
  intros a b st. apply (getGroupPath_returns_on_forest "b" st).
  exists (fun s => if String.eqb s "a" then 1%nat else 0%nat).
  intros g p [<-|[<-|[]]]; simpl; intros E; inversion E; subst; simpl; lia.
Defined.

(** ** A group moved under itself *)

(** with a group that is its own parent in the list, [removeGroup] of its
    id does not return, and [removeGroup] of another id does not take it
    out *)
Lemma removeGroup_own_parent (fuel : nat) :
  (forall st g,
      In g (groups st) -> Group.parentId g = Some (Group.id g) ->
      removeGroup fuel (Group.id g) st = None) /\
  (forall x st st' g,
      removeGroup fuel x st = Some st' ->
      In g (groups st) -> Group.parentId g = Some (Group.id g) -> Group.id g <> x ->
      In g (groups st')).
Proof.
  induction fuel as [|f [Main Keep]]; [split; intros; [reflexivity | discriminate]|].
  assert (LoopKeep : forall cs st0 st1 g,
             forEachGroup (removeGroup f) cs st0 = Some st1 ->
             In g (groups st0) -> Group.parentId g = Some (Group.id g) ->
             In g (groups st1)).
  { induction cs as [|c cs IH]; intros st0 st1 g H Hg Hself.
    - rewrite forEachGroup_nil in H. now inversion H; subst.
    - rewrite forEachGroup_cons in H.
      destruct (removeGroup f (Group.id c) st0) as [s|] eqn:E; [|discriminate].
      apply (IH s st1 g H); [|exact Hself].
      destruct (String.eqb_spec (Group.id g) (Group.id c)) as [Heq|Hne].
      + rewrite <- Heq, (Main st0 g Hg Hself) in E. discriminate.
      + now apply (Keep (Group.id c) st0 s g). }
  assert (LoopNone : forall cs st0 g,
             In g cs -> In g (groups st0) -> Group.parentId g = Some (Group.id g) ->
             forEachGroup (removeGroup f) cs st0 = None).
  { induction cs as [|c cs IH]; intros st0 g Hcs Hg Hself; [contradiction|].
    rewrite forEachGroup_cons.
    destruct (removeGroup f (Group.id c) st0) as [s|] eqn:E; [|reflexivity].
    destruct (String.eqb_spec (Group.id g) (Group.id c)) as [Heq|Hne].
    - rewrite <- Heq, (Main st0 g Hg Hself) in E. discriminate.
    - destruct Hcs as [->|Hcs]; [congruence|].
      apply (IH s g Hcs); [|exact Hself].
      now apply (Keep (Group.id c) st0 s g). }
  split.
  - intros st g Hg Hself. simpl.
    destruct (find _ (groups st)) as [h|] eqn:Ef.
    + rewrite (LoopNone _ st g); auto.
      apply filter_In. split; [exact Hg | now apply optEqb_eq].
    + apply (find_none _ _ Ef) in Hg. simpl in Hg.
      now rewrite String.eqb_refl in Hg.
  - intros x st st' g H Hg Hself Hne. simpl in H.
    destruct (find _ (groups st)) as [h|]; [|now inversion H; subst].
    destruct (forEachGroup _ _ st) as [st1|] eqn:E; [|discriminate].
    inversion H; subst. simpl. apply filter_In.
    split; [now apply (LoopKeep _ _ _ g E) | now apply negb_true_iff, String.eqb_neq].
Qed.

(** the walk of [getGroupPath] from a group that is its own parent *)
Lemma walkGroupPath_own_parent (gs : list Group.t) (g : Group.t) :
  Group.parentId g = Some (Group.id g) -> Group.id g <> "" ->
  find (fun h => String.eqb (Group.id h) (Group.id g)) gs = Some g ->
  forall fuel path, walkGroupPath fuel gs (Some g) path = None.
Proof.
  intros Hself Hne Ef. apply truthy_nonempty in Hne.
  induction fuel as [|f IH]; intros path; simpl; [reflexivity|].
  rewrite Hself, Hne, Ef. apply IH.
Qed.

(** the groups after a move that is accepted, up to the priorities *)
Lemma moveGroupToParent_accepted_perm
    (groupId : string) (newParentId insertBefore : option string)
    (st : State) (movingGroup : Group.t) :
  find (fun g => String.eqb (Group.id g) groupId) (groups st) = Some movingGroup ->
  (forall g, In g (groups st) -> Group.id g <> groupId ->
             Group.parentId g = newParentId ->
             Group.name g <> Group.name movingGroup) ->
  Permutation
    (map groupButPriority (groups (moveGroupToParent groupId newParentId insertBefore st)))
    (map groupButPriority
         (Group.setParentId newParentId movingGroup
          :: filter (fun g => negb (String.eqb (Group.id g) groupId)) (groups st))).
Proof.
  intros Ef Hfree.
  destruct (moveGroupToParent_cases groupId newParentId insertBefore st movingGroup Ef)
    as [E|[_ P]]; [|exact P].
  exfalso.
  pose proof (moveGroupToParent_accepted groupId newParentId insertBefore st
                movingGroup Ef Hfree) as Ea.
  simpl in Ea. rewrite E in Ea.
  apply (f_equal (@List.length Group.t)) in Ea.
  rewrite length_app, renumber_length, length_app in Ea. simpl in Ea.
  set (gs1 := filter (fun g => negb (String.eqb (Group.id g) groupId)) (groups st)) in *.
  pose proof (Permutation_length (filter_split_perm
                (fun g => optEqb (Group.parentId g) newParentId) gs1)) as Hl.
  rewrite length_app in Hl.
  pose proof (firstn_skipn (insertIndex insertBefore (childrenOf newParentId gs1))
                (childrenOf newParentId gs1)) as Hfs.
  apply (f_equal (@List.length Group.t)) in Hfs. rewrite length_app in Hfs.
  unfold childrenOf in *. lia.
Qed.

(** X13. [moveGroupToParent] does not look for cycles: a group moved under
    its own id (the move is accepted when no child of the group has its
    name) becomes its own parent; the parent links then have a cycle, and
    neither [removeGroup] nor [getGroupPath] of that id returns. *)
Theorem moveGroupToParent_under_itself
    (groupId : string) (insertBefore : option string) (st : State)
    (movingGroup : Group.t) :
  find (fun g => String.eqb (Group.id g) groupId) (groups st) = Some movingGroup ->
  groupId <> "" ->
  (forall g, In g (groups st) -> Group.id g <> groupId ->
             Group.parentId g = Some groupId ->
             Group.name g <> Group.name movingGroup) ->
  let st' := moveGroupToParent groupId (Some groupId) insertBefore st in
  (exists g, In g (groups st') /\ Group.id g = groupId /\
             Group.parentId g = Some groupId) /\
  ~ Acyclic (groups st') /\
  (forall fuel, removeGroup fuel groupId st' = None) /\
  (forall fuel, getGroupPath fuel groupId st' = None).
Proof.
  intros Ef Hne Hfree st'.
  pose proof (moveGroupToParent_accepted_perm groupId (Some groupId) insertBefore st
                movingGroup Ef Hfree) as P.
  fold st' in P.
  assert (Hmg : Group.id movingGroup = groupId)
    by (apply find_some in Ef as [_ E]; now apply String.eqb_eq).
  assert (Hall : forall h, In h (groups st') -> Group.id h = groupId ->
                           Group.parentId h = Some groupId).
  { intros h Hh Hid.
    assert (Hm : In (groupButPriority h) (map groupButPriority (groups st')))
      by now apply in_map.
    apply (Permutation_in _ P) in Hm. simpl in Hm. destruct Hm as [E|Hm].
    - change (Group.parentId (groupButPriority h) = Some groupId). now rewrite <- E.
    - apply in_map_iff in Hm as (g1 & E & Hg1).
      apply filter_In in Hg1 as [_ Hg1]. apply negb_true_iff, String.eqb_neq in Hg1.
      exfalso. apply Hg1. rewrite <- Hid.
      change (Group.id (groupButPriority g1) = Group.id (groupButPriority h)).
      now rewrite E. }
  assert (Hex : exists g, In g (groups st') /\ Group.id g = groupId).
  { assert (Hm : In (groupButPriority (Group.setParentId (Some groupId) movingGroup))
                    (map groupButPriority (groups st'))).
    { apply (Permutation_in _ (Permutation_sym P)). now left. }
    apply in_map_iff in Hm as (g & E & Hg). exists g. split; [exact Hg|].
    change (Group.id (groupButPriority g) = groupId). now rewrite E. }
  destruct Hex as (g & Hg & Hid).
  pose proof (Hall g Hg Hid) as Hp.
  split; [exists g; auto|]. split; [|split].
  - intros [rank Hrank]. specialize (Hrank g groupId Hg Hp). rewrite Hid in Hrank. lia.
  - intros fuel. rewrite <- Hid.
    apply (proj1 (removeGroup_own_parent fuel) st' g Hg). now rewrite Hid.
  - intros fuel. unfold getGroupPath.
    destruct (find (fun h => String.eqb (Group.id h) groupId) (groups st')) as [h|] eqn:Eh.
    + pose proof (find_some _ _ Eh) as [Hh Hhid]. apply String.eqb_eq in Hhid.
      rewrite (walkGroupPath_own_parent (groups st') h); [reflexivity| | |].
      * rewrite Hhid. now apply Hall.
      * now rewrite Hhid.
      * now rewrite Hhid.
    + apply (find_none _ _ Eh) in Hg. simpl in Hg.
      rewrite Hid, String.eqb_refl in Hg. discriminate.
Qed.

Lemma moveGroupToParent_under_itself_witness :
  let a := Group.mk "a" "Work" false 1%Z None (Some 1%Z) in
  let b := Group.mk "b" "Notes" false 2%Z (Some "a") (Some 2%Z) in
  let st := mkState [] [a; b] in
  let st' := moveGroupToParent "a" (Some "a") (Some "b") st in
  (exists g, In g (groups st') /\ Group.id g = "a" /\ Group.parentId g = Some "a") /\
  ~ Acyclic (groups st') /\
  (forall fuel, removeGroup fuel "a" st' = None) /\
  (forall fuel, getGroupPath fuel "a" st' = None).
Proof.
  intros a b st.
  apply (moveGroupToParent_under_itself "a" (Some "b") st a).
  - reflexivity.
  - discriminate.
  - intros g [<-|[<-|[]]]; simpl; intros; congruence.
Defined.

(** ** getBookmarksGrouped *)

Section JsMapFacts.
Context {V : Type}.

Lemma mapHas_get (k : string) (m : JsMap V) :
  mapHas k m = match mapGet k m with Some _ => true | None => false end.
Proof.
  unfold mapHas, mapGet. rewrite find_existsb. now destruct (find _ m).
Qed.

Lemma mapGet_app (k : string) (m m' : JsMap V) :
  mapGet k (m ++ m') = match mapGet k m with
                       | Some l => Some l
                       | None => mapGet k m'
                       end.
Proof.
  unfold mapGet. induction m as [|e t IH]; simpl; [reflexivity|].
  destruct (String.eqb (fst e) k); [reflexivity | exact IH].
Qed.

(** reading after a change of the value under [k] *)
Lemma mapGet_update (k k' : string) (f : list V -> list V) (m : JsMap V) :
  mapGet k' (updFirst (fun e => String.eqb (fst e) k) (fun e => (fst e, f (snd e))) m)
  = if String.eqb k' k then option_map f (mapGet k m) else mapGet k' m.
Proof.
  unfold mapGet. induction m as [|e t IH]; simpl.
  - now destruct (String.eqb k' k).
  - destruct (String.eqb_spec (fst e) k) as [Ek|Ek]; simpl.
    + destruct (String.eqb_spec k' k) as [->|Hk].
      * now rewrite Ek, String.eqb_refl.
      * rewrite Ek. apply String.eqb_neq in Hk. rewrite String.eqb_sym in Hk.
        now rewrite Hk.
    + destruct (String.eqb_spec (fst e) k') as [Ek'|Ek'].
      * subst k'. apply String.eqb_neq in Ek. now rewrite Ek.
      * exact IH.
Qed.

Lemma mapGet_mapPush (k k' : string) (x : V) (m : JsMap V) :
  mapGet k' (mapPush k x m)
  = if String.eqb k' k then option_map (fun l => l ++ [x]) (mapGet k m)
    else mapGet k' m.
Proof. apply (mapGet_update k k' (fun l => l ++ [x])). Qed.

Lemma mapGet_mapSet (k k' : string) (v : list V) (m : JsMap V) :
  mapGet k' (mapSet k v m) = if String.eqb k' k then Some v else mapGet k' m.
Proof.
  unfold mapSet. rewrite mapHas_get.
  destruct (mapGet k m) as [l|] eqn:E.
  - rewrite (mapGet_update k k' (fun _ => v)), E. reflexivity.
  - rewrite mapGet_app. destruct (String.eqb_spec k' k) as [->|Hk].
    + rewrite E. unfold mapGet. simpl. now rewrite String.eqb_refl.
    + destruct (mapGet k' m); [reflexivity|]. unfold mapGet. simpl.
      apply String.eqb_neq in Hk. rewrite String.eqb_sym in Hk. now rewrite Hk.
Qed.

(** the values of a map, one after the other *)
Lemma mapPush_values (k : string) (x : V) (m : JsMap V) (l : list V) :
  mapGet k m = Some l ->
  Permutation (List.concat (map snd (mapPush k x m))) (x :: List.concat (map snd m)).
Proof.
  unfold mapGet, mapPush. induction m as [|e t IH]; simpl; [discriminate|].
  destruct (String.eqb (fst e) k); simpl; intros H.
  - rewrite <- app_assoc. simpl.
    apply Permutation_sym, Permutation_middle.
  - eapply perm_trans; [apply Permutation_app_head, IH, H|].
    apply Permutation_sym, Permutation_middle.
Qed.

End JsMapFacts.

(** the map with an empty list for every group *)
Lemma emptyLists_get (k : string) (gs : list Group.t) :
  forall m : JsMap Bookmark.t,
    mapGet k (fold_left (fun m g => mapSet (Group.id g) [] m) gs m)
    = if existsb (fun g => String.eqb (Group.id g) k) gs then Some []
      else mapGet k m.
Proof.
  induction gs as [|g t IH]; intros m; simpl; [reflexivity|].
  rewrite IH, mapGet_mapSet, (String.eqb_sym k).
  destruct (existsb _ t); [now rewrite orb_true_r|]. now rewrite orb_false_r.
Qed.

Lemma emptyLists_values (gs : list Group.t) :
  forall m : JsMap Bookmark.t,
    List.concat (map snd m) = [] ->
    List.concat (map snd (fold_left (fun m g => mapSet (Group.id g) [] m) gs m)) = [].
Proof.
  induction gs as [|g t IH]; intros m Hm; simpl; [exact Hm|].
  apply IH. unfold mapSet. destruct (mapHas (Group.id g) m).
  - clear IH. induction m as [|e m IHm]; simpl in *; [reflexivity|].
    apply app_eq_nil in Hm as [He Hm].
    destruct (String.eqb (fst e) (Group.id g)); simpl.
    + exact Hm.
    + now rewrite He, IHm.
  - now rewrite map_app, concat_app, Hm.
Qed.

(** the loop over the bookmarks: one bookmark *)
Lemma fileBookmark_cases (u : list Bookmark.t) (m : JsMap Bookmark.t) (b : Bookmark.t) :
  (exists gid l0,
      Bookmark.groupId b = Some gid /\ truthy gid = true /\ mapGet gid m = Some l0 /\
      fileBookmark (u, m) b = (u, mapPush gid b m)) \/
  (fileBookmark (u, m) b = (u ++ [b], m) /\
   forall k, filedUnder k b = true -> mapGet k m = None).
Proof.
  unfold fileBookmark, filedUnder.
  destruct (Bookmark.groupId b) as [gid|]; [|right; split; [reflexivity | discriminate]].
  destruct (truthy gid) eqn:Tg; [|right; split; [reflexivity | discriminate]].
  destruct (mapGet gid m) as [l0|] eqn:E0.
  - left. exists gid, l0. auto.
  - right. split; [reflexivity|]. simpl. intros k Hk.
    apply String.eqb_eq in Hk. now subst k.
Qed.

Lemma fold_left_cons {A B : Type} (f : A -> B -> A) (x : B) (l : list B) (a : A) :
  fold_left f (x :: l) a = fold_left f l (f a x).
Proof. reflexivity. Qed.

Lemma fileBookmarks_get (k : string) (bs : list Bookmark.t) :
  forall u m,
    mapGet k (snd (fold_left fileBookmark bs (u, m)))
    = option_map (fun l => l ++ filter (filedUnder k) bs) (mapGet k m).
Proof.
  induction bs as [|b t IH]; intros u m.
  - simpl. destruct (mapGet k m); simpl; [now rewrite app_nil_r | reflexivity].
  - rewrite fold_left_cons.
    destruct (fileBookmark_cases u m b)
      as [(gid & l0 & Eg & Tg & E0 & ->)|[-> Hnone]]; rewrite IH.
    + rewrite mapGet_mapPush. simpl. unfold filedUnder at 2. rewrite Eg, Tg. simpl.
      rewrite (String.eqb_sym gid k).
      destruct (String.eqb_spec k gid) as [->|Hk]; [|reflexivity].
      rewrite E0. simpl. now rewrite <- app_assoc.
    + simpl. destruct (filedUnder k b) eqn:Fb; [|reflexivity].
      now rewrite (Hnone k Fb).
Qed.

Lemma fileBookmarks_ungrouped (bs : list Bookmark.t) :
  forall u m,
    fst (fold_left fileBookmark bs (u, m))
    = u ++ filter (fun b => match Bookmark.groupId b with
                            | Some gid => negb (truthy gid && mapHas gid m)
                            | None => true
                            end) bs.
Proof.
  induction bs as [|b t IH]; intros u m; [simpl; now rewrite app_nil_r|].
  rewrite fold_left_cons.
  destruct (fileBookmark_cases u m b)
    as [(gid & l0 & Eg & Tg & E0 & ->)|[-> Hnone]]; rewrite IH.
  - simpl. rewrite Eg, Tg, mapHas_get, E0. simpl. f_equal.
    apply filter_ext. intros b'.
    destruct (Bookmark.groupId b') as [gid'|]; [|reflexivity].
    rewrite !mapHas_get, mapGet_mapPush.
    destruct (String.eqb_spec gid' gid) as [->|_]; [|reflexivity].
    now rewrite E0.
  - simpl. rewrite <- app_assoc. f_equal.
    destruct (Bookmark.groupId b) as [gid|] eqn:Eg; [|reflexivity].
    destruct (truthy gid) eqn:Tg; [|reflexivity].
    rewrite mapHas_get, (Hnone gid); [reflexivity|].
    unfold filedUnder. now rewrite Eg, Tg, String.eqb_refl.
Qed.

Lemma fileBookmarks_all (bs : list Bookmark.t) :
  forall u m,
    Permutation
      (fst (fold_left fileBookmark bs (u, m))
       ++ List.concat (map snd (snd (fold_left fileBookmark bs (u, m)))))
      (u ++ List.concat (map snd m) ++ bs).
Proof.
  induction bs as [|b t IH]; intros u m; [simpl; now rewrite app_nil_r|].
  rewrite fold_left_cons.
  destruct (fileBookmark_cases u m b)
    as [(gid & l0 & Eg & Tg & E0 & ->)|[-> Hnone]];
    (eapply perm_trans; [apply IH|]).
  - apply Permutation_app_head.
    eapply perm_trans; [apply Permutation_app_tail, (mapPush_values gid b m l0 E0)|].
    simpl. apply (Permutation_middle (List.concat (map snd m)) t b).
  - rewrite <- app_assoc. apply Permutation_app_head. simpl.
    apply (Permutation_middle (List.concat (map snd m)) t b).
Qed.

Lemma sorted_values {V : Type} (cmp : V -> V -> Z) (m : JsMap V) :
  Permutation (List.concat (map snd (map (fun e => (fst e, sortBy cmp (snd e))) m)))
              (List.concat (map snd m)).
Proof.
  induction m as [|e t IH]; simpl; [constructor|].
  apply Permutation_app; [apply sortBy_perm | exact IH].
Qed.

Lemma mapGet_sorted {V : Type} (cmp : V -> V -> Z) (k : string) (m : JsMap V) :
  mapGet k (map (fun e => (fst e, sortBy cmp (snd e))) m)
  = option_map (sortBy cmp) (mapGet k m).
Proof.
  unfold mapGet. induction m as [|e t IH]; simpl; [reflexivity|].
  destruct (String.eqb (fst e) k); [reflexivity | exact IH].
Qed.

(** X14. In the result of [getBookmarksGrouped] the list of a group id is
    the sorted list of the bookmarks with that (non-empty) [groupId], and
    there is a list for the ids of the groups and for no other key; the
    ungrouped list is the sorted list of the other bookmarks: those without
    a [groupId], with an empty one, or with one that no group has. *)
Theorem getBookmarksGrouped_bookmarks (st : State) :
  ungrouped (getBookmarksGrouped st)
  = sortBy sortBookmarks
      (filter (fun b => negb (hasGroup (groups st) b)) (bookmarks st)) /\
  forall k,
    mapGet k (groupedBookmarks (getBookmarksGrouped st))
    = if existsb (fun g => String.eqb (Group.id g) k) (groups st)
      then Some (sortBy sortBookmarks (filter (filedUnder k) (bookmarks st)))
      else None.
Proof.
  unfold getBookmarksGrouped. simpl. split.
  - rewrite fileBookmarks_ungrouped. simpl. f_equal. apply filter_ext. intros b.
    unfold hasGroup. destruct (Bookmark.groupId b) as [gid|]; [|reflexivity].
    rewrite mapHas_get, emptyLists_get.
    now destruct (existsb _ (groups st)).
  - intros k. rewrite mapGet_sorted, fileBookmarks_get, emptyLists_get.
    destruct (existsb _ (groups st)); reflexivity.
Qed.

(** X15. [getBookmarksGrouped] lists every bookmark exactly once: the
    ungrouped list and the lists of the groups together are a permutation
    of the bookmarks. *)
Theorem getBookmarksGrouped_lists_each_once (st : State) :
  Permutation
    (ungrouped (getBookmarksGrouped st)
     ++ List.concat (map snd (groupedBookmarks (getBookmarksGrouped st))))
    (bookmarks st).
Proof.
  unfold getBookmarksGrouped. simpl.
  eapply perm_trans;
    [apply Permutation_app; [apply sortBy_perm | apply sorted_values]|].
  eapply perm_trans; [apply fileBookmarks_all|].
  simpl. now rewrite emptyLists_values.
Qed.

(** the loop over the groups: one group *)
Lemma fileGroup_cases (r : list Group.t) (m : JsMap Group.t) (g : Group.t) :
  (isRootGroup g = true /\ fileGroup (r, m) g = (r ++ [g], m)) \/
  (exists p,
      Group.parentId g = Some p /\ truthy p = true /\ isRootGroup g = false /\
      fileGroup (r, m) g
      = (r, mapPush p g (if mapHas p m then m else mapSet p [] m))).
Proof.
  unfold fileGroup, isRootGroup.
  destruct (Group.parentId g) as [p|]; [|now left].
  destruct (truthy p) eqn:Tp; [|now left].
  right. exists p. auto.
Qed.

Lemma fileGroups_root (gs : list Group.t) :
  forall r m, fst (fold_left fileGroup gs (r, m)) = r ++ filter isRootGroup gs.
Proof.
  induction gs as [|g t IH]; intros r m; [simpl; now rewrite app_nil_r|].
  rewrite fold_left_cons.
  destruct (fileGroup_cases r m g) as [[Hr ->]|(p & _ & _ & Hr & ->)];
    rewrite IH; simpl; rewrite Hr; [now rewrite <- app_assoc | reflexivity].
Qed.

Lemma subGroupOf_parent (k : string) (g : Group.t) (p : string) :
  Group.parentId g = Some p -> truthy p = true ->
  subGroupOf k g = String.eqb k p.
Proof.
  intros Hp Tp. unfold subGroupOf. rewrite Hp, Tp. simpl. apply String.eqb_sym.
Qed.

Lemma fileGroups_get (k : string) (gs : list Group.t) :
  forall r m,
    mapGet k (snd (fold_left fileGroup gs (r, m)))
    = match mapGet k m, filter (subGroupOf k) gs with
      | None, [] => None
      | o, l => Some (nullish o [] ++ l)
      end.
Proof.
  induction gs as [|g t IH]; intros r m.
  - simpl. destruct (mapGet k m); simpl; [now rewrite app_nil_r | reflexivity].
  - rewrite fold_left_cons.
    destruct (fileGroup_cases r m g) as [[Hr ->]|(p & Hp & Tp & _ & ->)]; rewrite IH.
    + simpl. replace (subGroupOf k g) with false; [reflexivity|].
      unfold subGroupOf. unfold isRootGroup in Hr.
      destruct (Group.parentId g) as [p|]; [|reflexivity].
      apply negb_true_iff in Hr. now rewrite Hr.
    + simpl. rewrite (subGroupOf_parent k g p Hp Tp), mapGet_mapPush.
      destruct (String.eqb_spec k p) as [->|Hk].
      * rewrite mapHas_get. destruct (mapGet p m) as [l0|] eqn:E0; simpl.
        -- rewrite E0. simpl. destruct (filter _ t); simpl; now rewrite <- app_assoc.
        -- rewrite mapGet_mapSet, String.eqb_refl. simpl.
           now destruct (filter _ t).
      * destruct (mapHas p m); [reflexivity|].
        rewrite mapGet_mapSet. apply String.eqb_neq in Hk. now rewrite Hk.
Qed.

Lemma fileGroups_all (gs : list Group.t) :
  forall r m,
    Permutation
      (fst (fold_left fileGroup gs (r, m))
       ++ List.concat (map snd (snd (fold_left fileGroup gs (r, m)))))
      (r ++ List.concat (map snd m) ++ gs).
Proof.
  induction gs as [|g t IH]; intros r m; [simpl; now rewrite app_nil_r|].
  rewrite fold_left_cons.
  destruct (fileGroup_cases r m g) as [[Hr ->]|(p & Hp & Tp & _ & ->)];
    (eapply perm_trans; [apply IH|]).
  - rewrite <- app_assoc. apply Permutation_app_head. simpl.
    apply (Permutation_middle (List.concat (map snd m)) t g).
  - apply Permutation_app_head.
    set (m1 := if mapHas p m then m else mapSet p [] m).
    assert (Hv : List.concat (map snd m1) = List.concat (map snd m)).
    { unfold m1, mapSet. destruct (mapHas p m); [reflexivity|].
      rewrite map_app, concat_app. simpl. now rewrite app_nil_r. }
    assert (Hg : exists l0, mapGet p m1 = Some l0).
    { unfold m1. rewrite mapHas_get. destruct (mapGet p m) as [l0|] eqn:E0; eauto.
      rewrite mapGet_mapSet, String.eqb_refl. eauto. }
    destruct Hg as [l0 E0].
    eapply perm_trans; [apply Permutation_app_tail, (mapPush_values p g m1 l0 E0)|].
    rewrite Hv. simpl. apply (Permutation_middle (List.concat (map snd m)) t g).
Qed.

(** X16. In the result of [getBookmarksGrouped] the root groups are the
    sorted groups without a [parentId] or with an empty one; the list under
    a key is the sorted list of the groups with that (non-empty)
    [parentId], and there is none for a key that is the [parentId] of no
    group; every group is listed exactly once, the groups whose [parentId]
    no group has among them. *)
Theorem getBookmarksGrouped_groups (st : State) :
  rootGroups (getBookmarksGrouped st)
  = sortBy sortGroups (filter isRootGroup (groups st)) /\
  (forall k,
      mapGet k (groupedSubGroups (getBookmarksGrouped st))
      = match filter (subGroupOf k) (groups st) with
        | [] => None
        | l => Some (sortBy sortGroups l)
        end) /\
  Permutation
    (rootGroups (getBookmarksGrouped st)
     ++ List.concat (map snd (groupedSubGroups (getBookmarksGrouped st))))
    (groups st).
Proof.
  unfold getBookmarksGrouped. simpl. split; [|split].
  - now rewrite fileGroups_root.
  - intros k. rewrite mapGet_sorted, fileGroups_get. simpl.
    now destruct (filter _ (groups st)).
  - eapply perm_trans;
      [apply Permutation_app; [apply sortBy_perm | apply sorted_values]|].
    eapply perm_trans; [apply fileGroups_all|]. reflexivity.
Qed.

(** ** The count shown for a group *)

Lemma filedIn_ext (r r' : string -> bool) (bs : list Bookmark.t) :
  (forall y, r y = true <-> r' y = true) ->
  filter (filedIn r) bs = filter (filedIn r') bs.
Proof.
  intros H. apply filter_ext. intros b. unfold filedIn.
  destruct (Bookmark.groupId b) as [y|]; [|reflexivity].
  specialize (H y). destruct (r y), (r' y); intuition congruence.
Qed.

Lemma filedIn_union (r1 r2 : string -> bool) (bs : list Bookmark.t) :
  (forall y, r1 y = true -> r2 y = true -> False) ->
  List.length (filter (filedIn (fun y => r1 y || r2 y)) bs)
  = (List.length (filter (filedIn r1) bs) + List.length (filter (filedIn r2) bs))%nat.
Proof.
  intros Hd. induction bs as [|b t IH]; simpl; [reflexivity|].
  assert (H12 : filedIn (fun y => r1 y || r2 y) b = filedIn r1 b || filedIn r2 b).
  { unfold filedIn. destruct (Bookmark.groupId b) as [y|]; [|reflexivity].
    apply andb_orb_distrib_r. }
  assert (Hb : filedIn r1 b = true -> filedIn r2 b = true -> False).
  { unfold filedIn. destruct (Bookmark.groupId b) as [y|]; [|discriminate].
    intros H1 H2. apply andb_prop in H1 as [_ H1]. apply andb_prop in H2 as [_ H2].
    now apply (Hd y). }
  rewrite H12.
  destruct (filedIn r1 b), (filedIn r2 b); simpl; rewrite IH;
    first [now destruct Hb | lia].
Qed.

Lemma groupedBookmarks_direct (st : State) (x : string) :
  existsb (fun g => String.eqb (Group.id g) x) (groups st) = true ->
  List.length (nullish (mapGet x (groupedBookmarks (getBookmarksGrouped st))) [])
  = List.length (filter (filedIn (fun y => String.eqb y x)) (bookmarks st)).
Proof.
  intros Hx. unfold getBookmarksGrouped. simpl.
  rewrite mapGet_sorted, fileBookmarks_get, emptyLists_get, Hx. simpl.
  apply Permutation_length, sortBy_perm.
Qed.

Lemma groupedSubGroups_children (st : State) (x : string) :
  nullish (mapGet x (groupedSubGroups (getBookmarksGrouped st))) []
  = sortBy sortGroups (filter (subGroupOf x) (groups st)).
Proof.
  unfold getBookmarksGrouped. simpl.
  rewrite mapGet_sorted, fileGroups_get. simpl.
  now destruct (filter _ (groups st)).
Qed.

Lemma getGroupTotalBookmarkCount_step (f : nat) (x : string) (data : Grouped) :
  getGroupTotalBookmarkCount (S f) x data
  = fold_left (fun count subGroup =>
                 match count, getGroupTotalBookmarkCount f (Group.id subGroup) data with
                 | Some c, Some n => Some (c + n)%nat
                 | _, _ => None
                 end)
              (nullish (mapGet x (groupedSubGroups data)) [])
              (Some (List.length (nullish (mapGet x (groupedBookmarks data)) []))).
Proof. reflexivity. Qed.

Section CountForest.
Variable st : State.
Variable rank : string -> nat.
Hypothesis rank_parent :
  forall g p, In g (groups st) -> Group.parentId g = Some p ->
              (rank (Group.id g) < rank p)%nat.
Hypothesis unique_ids : UniqueIds (groups st).
Hypothesis ids_nonempty : forall g, In g (groups st) -> Group.id g <> "".

(** two groups above the same id are one above the other *)
Lemma descendant_comparable (a b y : string) :
  Descendant (groups st) a y -> Descendant (groups st) b y ->
  Descendant (groups st) a b \/ Descendant (groups st) b a.
Proof.
  intros Ha. revert b. induction Ha as [|g p Hg Hp Ha IH]; intros b Hb; [now right|].
  inversion Hb as [Heq|g' p' Hg' Hp' Hb' Heq].
  - left. now apply Desc_child with (p := p).
  - assert (g' = g) by (apply (unique_id_group (groups st)); auto). subst g'.
    assert (p' = p) by congruence. subst p'. now apply IH.
Qed.

Lemma descendant_first_step (x y : string) :
  Descendant (groups st) x y ->
  y = x \/ exists c, In c (groups st) /\ Group.parentId c = Some x /\
                     Descendant (groups st) (Group.id c) y.
Proof.
  induction 1 as [|g p Hg Hp Hd IH]; [now left|]. right.
  destruct IH as [->|(c & Hc & Hcp & Hcd)].
  - exists g. repeat split; auto. constructor.
  - exists c. repeat split; auto. now apply Desc_child with (p := p).
Qed.

Lemma children_disjoint (x : string) (c c' : Group.t) (y : string) :
  In c (groups st) -> In c' (groups st) ->
  Group.parentId c = Some x -> Group.parentId c' = Some x -> c <> c' ->
  Descendant (groups st) (Group.id c) y -> Descendant (groups st) (Group.id c') y ->
  False.
Proof.
  intros Hc Hc' Hp Hp' Hne Hd Hd'.
  assert (Habove : forall a b : Group.t,
             In a (groups st) -> In b (groups st) ->
             Group.parentId a = Some x -> Group.parentId b = Some x ->
             Descendant (groups st) (Group.id a) (Group.id b) -> a = b).
  { intros a b Ha Hb Hpa Hpb Hab.
    inversion Hab as [Heq|g p Hg Hgp Hdp Heq].
    - now apply (unique_id_group (groups st)).
    - assert (g = b) by (apply (unique_id_group (groups st)); auto). subst g.
      assert (p = x) by congruence. subst p.
      apply (Descendant_rank (groups st) rank rank_parent) in Hdp.
      specialize (rank_parent a x Ha Hpa). lia. }
  destruct (descendant_comparable _ _ _ Hd Hd') as [H|H].
  - apply Hne. now apply Habove.
  - apply Hne. symmetry. now apply Habove.
Qed.

(** the loop over the sub-groups, given what the calls on them return *)
Lemma count_children (f : nat) (x : string) :
  (forall c, In c (groups st) -> (rank (Group.id c) < f)%nat ->
             exists r,
               (forall y, r y = true <-> Descendant (groups st) (Group.id c) y) /\
               getGroupTotalBookmarkCount f (Group.id c) (getBookmarksGrouped st)
               = Some (List.length (filter (filedIn r) (bookmarks st)))) ->
  (rank x <= f)%nat ->
  forall cs acc,
    NoDup cs ->
    (forall c, In c cs -> In c (groups st) /\ Group.parentId c = Some x) ->
    exists R,
      (forall y, R y = true <->
                 exists c, In c cs /\ Descendant (groups st) (Group.id c) y) /\
      fold_left (fun count subGroup =>
                   match count,
                         getGroupTotalBookmarkCount f (Group.id subGroup)
                           (getBookmarksGrouped st) with
                   | Some c, Some n => Some (c + n)%nat
                   | _, _ => None
                   end) cs (Some acc)
      = Some (acc + List.length (filter (filedIn R) (bookmarks st)))%nat.
Proof.
  intros IHf Hrank. induction cs as [|c cs IH]; intros acc ND Hcs.
  - exists (fun _ => false). split.
    + intros y. split; [discriminate | intros (c & [] & _)].
    + simpl. f_equal.
      replace (filter _ (bookmarks st)) with (@nil Bookmark.t); [simpl; lia|].
      symmetry. apply filter_none. intros b _. unfold filedIn.
      destruct (Bookmark.groupId b); [apply andb_false_r | reflexivity].
  - apply NoDup_cons_iff in ND as [Hnotin ND].
    destruct (Hcs c (or_introl eq_refl)) as [Hc Hp].
    pose proof (rank_parent c x Hc Hp) as Hlt.
    destruct (IHf c Hc ltac:(lia)) as (rc & Hrc & Ec).
    destruct (IH (acc + List.length (filter (filedIn rc) (bookmarks st)))%nat ND)
      as (R & HR & ER); [intros c' Hc'; apply Hcs; now right|].
    exists (fun y => rc y || R y). split.
    + intros y. rewrite orb_true_iff, Hrc, HR. split.
      * intros [H|(c' & Hc' & H)]; [exists c | exists c']; simpl; auto.
      * intros (c' & [<-|Hc'] & H); eauto.
    + simpl. rewrite Ec, ER. f_equal. rewrite filedIn_union; [lia|].
      intros y Hy HRy. apply Hrc in Hy. apply HR in HRy as (c' & Hc' & Hy').
      destruct (Hcs c' (or_intror Hc')) as [Hg' Hp'].
      apply (children_disjoint x c c' y); auto. intros ->. contradiction.
Qed.

Lemma count_subtree (fuel : nat) :
  forall gx, In gx (groups st) -> (rank (Group.id gx) < fuel)%nat ->
             exists r,
               (forall y, r y = true <-> Descendant (groups st) (Group.id gx) y) /\
               getGroupTotalBookmarkCount fuel (Group.id gx) (getBookmarksGrouped st)
               = Some (List.length (filter (filedIn r) (bookmarks st))).
Proof.
  induction fuel as [|f IHf]; intros gx Hgx Hrank; [lia|].
  set (x := Group.id gx) in *.
  set (cs := sortBy sortGroups (filter (subGroupOf x) (groups st))).
  assert (Hx : truthy x = true) by now apply truthy_nonempty, ids_nonempty.
  assert (Hcs : forall c, In c cs <-> In c (groups st) /\ Group.parentId c = Some x).
  { intros c. unfold cs. rewrite sortBy_In, filter_In. unfold subGroupOf. split.
    - intros [Hc Hs]. split; [exact Hc|].
      destruct (Group.parentId c) as [p|]; [|discriminate].
      apply andb_prop in Hs as [_ Hs]. apply String.eqb_eq in Hs. now subst.
    - intros [Hc Hp]. split; [exact Hc|]. now rewrite Hp, Hx, String.eqb_refl. }
  assert (NDcs : NoDup cs).
  { unfold cs. apply (Permutation_NoDup (Permutation_sym (sortBy_perm _ _))).
    apply NoDup_filter. apply (NoDup_map_inv Group.id). exact unique_ids. }
  destruct (count_children f x IHf ltac:(lia) cs
              (List.length (filter (filedIn (fun y => String.eqb y x)) (bookmarks st)))
              NDcs (fun c Hc => proj1 (Hcs c) Hc)) as (R & HR & ER).
  exists (fun y => String.eqb y x || R y). split.
  - intros y. rewrite orb_true_iff, String.eqb_eq, HR. split.
    + intros [->|(c & Hc & Hd)]; [constructor|].
      apply Hcs in Hc as [Hc Hp].
      apply (Descendant_trans (groups st) x (Group.id c) y); [|exact Hd].
      apply Desc_child with (p := x); auto. constructor.
    + intros Hd. apply descendant_first_step in Hd as [->|(c & Hc & Hp & Hd)];
        [now left|].
      right. exists c. split; [|exact Hd]. apply Hcs. auto.
  - rewrite getGroupTotalBookmarkCount_step, groupedSubGroups_children.
    fold x. fold cs. rewrite groupedBookmarks_direct.
    + fold x. rewrite ER. f_equal. rewrite filedIn_union; [reflexivity|].
      intros y Hy HRy. apply String.eqb_eq in Hy. subst y.
      apply HR in HRy as (c & Hc & Hd). apply Hcs in Hc as [Hc Hp].
      apply (Descendant_rank (groups st) rank rank_parent) in Hd.
      specialize (rank_parent c x Hc Hp). lia.
    + apply existsb_exists. exists gx. split; [exact Hgx | apply String.eqb_refl].
Qed.

End CountForest.

(** X17. On a group list with distinct non-empty ids and without a cycle,
    the count that the tree view shows for a group
    ([getGroupTotalBookmarkCount] on the result of [getBookmarksGrouped])
    is the number of bookmarks filed under the group or under one of its
    descendants. *)
Theorem getGroupTotalBookmarkCount_counts_subtree (st : State) (group : Group.t) :
  In group (groups st) -> UniqueIds (groups st) -> Acyclic (groups st) ->
  (forall g, In g (groups st) -> Group.id g <> "") ->
  exists below n,
    (forall y, below y = true <-> Descendant (groups st) (Group.id group) y) /\
    forall fuel, (n <= fuel)%nat ->
      getGroupTotalBookmarkCount fuel (Group.id group) (getBookmarksGrouped st)
      = Some (List.length (filter (filedIn below) (bookmarks st))).
Proof.
  intros Hg Hu [rank Hrank] Hne.
  destruct (count_subtree st rank Hrank Hu Hne (S (rank (Group.id group))) group Hg
              (le_n _)) as (below & Hb & _).
  exists below, (S (rank (Group.id group))). split; [exact Hb|].
  intros fuel Hf.
  destruct (count_subtree st rank Hrank Hu Hne fuel group Hg Hf) as (r & Hr & ->).
  f_equal. f_equal. apply filedIn_ext. intros y. now rewrite Hr, Hb.
Qed.

Lemma getGroupTotalBookmarkCount_counts_subtree_witness :
  let grp i n p := Group.mk i n false 1%Z p (Some 1%Z) in
  let bm i g := Bookmark.mk i i "a.ts" 1%Z 0%Z None 1%Z g (Some 0%Z) in
  let work := grp "w" "Work" None in
  let api := grp "a" "Api" (Some "w") in
  let home := grp "h" "Home" None in
  let st := mkState [bm "b1" (Some "a"); bm "b2" (Some "w"); bm "b3" (Some "h");
                     bm "b4" None] [work; api; home] in
  exists below n,
    (forall y, below y = true <-> Descendant (groups st) "w" y) /\
    forall fuel, (n <= fuel)%nat ->
      getGroupTotalBookmarkCount fuel "w" (getBookmarksGrouped st)
      = Some (List.length (filter (filedIn below) (bookmarks st))).
Proof.
  intros grp bm work api home st.
  apply (getGroupTotalBookmarkCount_counts_subtree st work).
  - simpl. auto.
  - unfold UniqueIds. simpl. repeat constructor; simpl; intuition discriminate.
  - exists (fun s => if String.eqb s "w" then 1%nat else 0%nat).
    intros g p [<-|[<-|[<-|[]]]]; simpl; intros E; inversion E; subst; simpl; lia.
  - intros g [<-|[<-|[<-|[]]]]; discriminate.
Defined.

(** ** Edits of one bookmark *)

Lemma find_bookmark_none (x : string) (bs : list Bookmark.t) :
  (forall b, In b bs -> Bookmark.id b <> x) ->
  find (fun b => String.eqb (Bookmark.id b) x) bs = None.
Proof.
  intros H. destruct (find _ bs) as [b|] eqn:E; [|reflexivity].
  apply find_some in E as [Hin Hid]. apply String.eqb_eq in Hid.
  now destruct (H b Hin).
Qed.

(** X18. [moveBookmarkToGroup], [setBookmarkPriority] and [renameBookmark]
    leave the state alone when no bookmark has the id ([renameBookmark]
    then returns [false]); otherwise each changes one field of the first
    bookmark with that id, the group, the priority or the label, and
    nothing else, whatever the new value: the group need not exist and the
    label may be empty. *)
Theorem bookmark_edits_touch_one_field (bookmarkId : string) (st : State) :
  ((forall b, In b (bookmarks st) -> Bookmark.id b <> bookmarkId) ->
   (forall g, moveBookmarkToGroup bookmarkId g st = st) /\
   (forall p, setBookmarkPriority bookmarkId p st = st) /\
   (forall l, renameBookmark bookmarkId l st = (false, st))) /\
  (forall b,
     find (fun b => String.eqb (Bookmark.id b) bookmarkId) (bookmarks st) = Some b ->
     exists front back,
       bookmarks st = front ++ b :: back /\
       (forall x, In x front -> Bookmark.id x <> bookmarkId) /\
       (forall g, moveBookmarkToGroup bookmarkId g st
                  = mkState (front ++ Bookmark.setGroupId g b :: back) (groups st)) /\
       (forall p, setBookmarkPriority bookmarkId p st
                  = mkState (front ++ Bookmark.setPriority (Some p) b :: back)
                            (groups st)) /\
       (forall l, renameBookmark bookmarkId l st
                  = (true, mkState (front ++ relabelled l b :: back) (groups st)))).
Proof.
  unfold moveBookmarkToGroup, setBookmarkPriority, renameBookmark. split.
  - intros H. rewrite (find_bookmark_none _ _ H). auto.
  - intros b Ef. rewrite Ef.
    destruct (updFirst_split _ (fun x => x) _ _ Ef) as (front & back & E & Hfront & _).
    assert (Pb : String.eqb (Bookmark.id b) bookmarkId = true)
      by (apply find_some in Ef; tauto).
    exists front, back. split; [exact E|].
    split; [intros x Hx; now apply String.eqb_neq, Hfront|].
    unfold withBookmarks. rewrite E.
    repeat split; intros; now rewrite updFirst_at_split.
Qed.

Lemma bookmark_edits_touch_one_field_witness :
  let mk i := Bookmark.mk i i "a.ts" 1%Z 0%Z None 1%Z None (Some 0%Z) in
  let st := mkState [mk "b1"; mk "b2"] [] in
  renameBookmark "b9" "x" st = (false, st) /\
  exists front back,
    bookmarks st = front ++ mk "b2" :: back /\
    (forall x, In x front -> Bookmark.id x <> "b2") /\
    (forall g, moveBookmarkToGroup "b2" g st
               = mkState (front ++ Bookmark.setGroupId g (mk "b2") :: back) (groups st)) /\
    (forall p, setBookmarkPriority "b2" p st
               = mkState (front ++ Bookmark.setPriority (Some p) (mk "b2") :: back)
                         (groups st)) /\
    (forall l, renameBookmark "b2" l st
               = (true, mkState (front ++ relabelled l (mk "b2") :: back) (groups st))).
Proof.
  intros mk st. split.
  - apply (proj1 (bookmark_edits_touch_one_field "b9" st)).
    intros b [<-|[<-|[]]]; discriminate.
  - apply (proj2 (bookmark_edits_touch_one_field "b2" st) (mk "b2")). reflexivity.
Defined.

(** X19. A bookmark that [moveBookmarkToGroup] has filed under a group is
    listed by [getBookmarksGrouped] in the list of that group when the id
    is not empty and a group has it; it is listed as ungrouped when it was
    moved to no group, to the empty id, or to an id that no group has. *)
Theorem moved_bookmark_is_listed (bookmarkId : string) (target : option string)
    (st : State) (b : Bookmark.t) :
  find (fun b => String.eqb (Bookmark.id b) bookmarkId) (bookmarks st) = Some b ->
  let data := getBookmarksGrouped (moveBookmarkToGroup bookmarkId target st) in
  let moved := Bookmark.setGroupId target b in
  match target with
  | Some gid =>
    if truthy gid && existsb (fun g => String.eqb (Group.id g) gid) (groups st)
    then exists l, mapGet gid (groupedBookmarks data) = Some l /\ In moved l
    else In moved (ungrouped data)
  | None => In moved (ungrouped data)
  end.
Proof.
  intros Ef data moved.
  assert (Hin : In moved (bookmarks (moveBookmarkToGroup bookmarkId target st))).
  { unfold moveBookmarkToGroup. rewrite Ef.
    destruct (updFirst_split _ (Bookmark.setGroupId target) _ _ Ef)
      as (front & back & _ & _ & ->).
    simpl. apply in_or_app. right. now left. }
  assert (Hg : groups (moveBookmarkToGroup bookmarkId target st) = groups st)
    by (unfold moveBookmarkToGroup; now rewrite Ef).
  assert (Hun : hasGroup (groups st) moved = false -> In moved (ungrouped data)).
  { intros H. unfold data, getBookmarksGrouped. simpl.
    rewrite fileBookmarks_ungrouped. simpl. apply sortBy_In, filter_In.
    split; [exact Hin|]. rewrite Hg. unfold hasGroup in H.
    destruct (Bookmark.groupId moved) as [gid|]; [|reflexivity].
    rewrite mapHas_get, emptyLists_get.
    destruct (existsb _ (groups st)); simpl in *; now rewrite H. }
  destruct target as [gid|]; [|now apply Hun].
  destruct (truthy gid && existsb _ (groups st)) eqn:E; [|now apply Hun].
  apply andb_prop in E as [Tg Ex].
  unfold data, getBookmarksGrouped. simpl.
  rewrite mapGet_sorted, fileBookmarks_get, emptyLists_get, Hg, Ex. simpl.
  eexists. split; [reflexivity|]. apply sortBy_In, filter_In.
  split; [exact Hin|]. unfold filedUnder, moved. simpl.
  now rewrite Tg, String.eqb_refl.
Qed.

Lemma moved_bookmark_is_listed_witness :
  let b := Bookmark.mk "b1" "foo" "a.ts" 1%Z 0%Z None 1%Z None (Some 0%Z) in
  let st := mkState [b] [Group.mk "g1" "Work" false 1%Z None (Some 1%Z)] in
  (exists l,
      mapGet "g1" (groupedBookmarks
                     (getBookmarksGrouped (moveBookmarkToGroup "b1" (Some "g1") st)))
      = Some l /\ In (Bookmark.setGroupId (Some "g1") b) l) /\
  In (Bookmark.setGroupId (Some "gone") b)
     (ungrouped (getBookmarksGrouped (moveBookmarkToGroup "b1" (Some "gone") st))).
Proof.
  intros b st. split.
  - apply (moved_bookmark_is_listed "b1" (Some "g1") st b). reflexivity.
  - apply (moved_bookmark_is_listed "b1" (Some "gone") st b). reflexivity.
Defined.

(** ** The graph view *)

(** X20. [updateVisualizationData] never touches the edges; afterwards
    every node that refers to a bookmark refers to one of the given
    bookmarks; the nodes that refer to no bookmark and the nodes of the
    given bookmarks are kept as they are (an existing node is not brought
    up to date with its bookmark); and when every node that refers to a
    bookmark has the id of that bookmark, every given bookmark has a node
    with its id. *)
Theorem updateVisualizationData_nodes {C : Type} (bs : list Bookmark.t)
    (data : VisualizationData C) :
  let data' := updateVisualizationData bs data in
  edges data' = edges data /\
  (forall n, In n (nodes data') -> refersToBookmark n = true ->
             exists b, In b bs /\ LinkNode.bookmarkId n = Some (Bookmark.id b)) /\
  (forall n, In n (nodes data) ->
             (refersToBookmark n = false \/
              exists b, In b bs /\ LinkNode.bookmarkId n = Some (Bookmark.id b)) ->
             In n (nodes data')) /\
  ((forall n, In n (nodes data) -> refersToBookmark n = true ->
              LinkNode.bookmarkId n = Some (LinkNode.id n)) ->
   forall b, In b bs ->
             exists n, In n (nodes data') /\ LinkNode.id n = Bookmark.id b).
Proof.
  unfold updateVisualizationData. simpl. split; [reflexivity|].
  assert (Hlive : forall n : LinkNode.t C,
             existsb (fun b => optEqb (Some (Bookmark.id b)) (LinkNode.bookmarkId n)) bs
             = true
             <-> exists b, In b bs /\ LinkNode.bookmarkId n = Some (Bookmark.id b)).
  { intros n. rewrite existsb_exists. split; intros (b & Hb & E); exists b;
      (split; [exact Hb|]); [apply optEqb_eq in E | apply optEqb_eq]; congruence. }
  split; [|split].
  - intros n Hn Hr. apply in_app_or in Hn as [Hn|Hn].
    + apply filter_In in Hn as [_ Hk]. rewrite Hr in Hk. simpl in Hk.
      now apply Hlive.
    + apply filter_In in Hn as [Hn _]. apply in_map_iff in Hn as (b & <- & Hb).
      exists b. auto.
  - intros n Hn Hk. apply in_or_app. left. apply filter_In. split; [exact Hn|].
    apply orb_true_iff.
    destruct Hk as [Hk|Hk]; [left; now rewrite Hk | right; now apply Hlive].
  - intros Hinv b Hb.
    destruct (existsb (fun m : LinkNode.t C => String.eqb (LinkNode.id m) (Bookmark.id b))
                      (nodes data)) eqn:Ex.
    + apply existsb_exists in Ex as (m & Hm & Hid). apply String.eqb_eq in Hid.
      exists m. split; [|exact Hid]. apply in_or_app. left.
      apply filter_In. split; [exact Hm|].
      apply orb_true_iff.
      destruct (refersToBookmark m) eqn:Hr; [right | now left].
      apply Hlive. exists b. split; [exact Hb|]. rewrite (Hinv m Hm Hr). now rewrite Hid.
    + exists (bookmarkNode b). split; [|reflexivity]. apply in_or_app. right.
      apply filter_In. split; [now apply in_map|]. simpl. now rewrite Ex.
Qed.

Lemma updateVisualizationData_nodes_witness :
  let b1 := Bookmark.mk "b1" "foo" "a.ts" 1%Z 0%Z None 1%Z None (Some 0%Z) in
  let old : LinkNode.t Z :=
    LinkNode.mk "b0" "gone" (Some "b0") (Some "a.ts") (Some 1%Z) (Some 0%Z) None None in
  let note : LinkNode.t Z := LinkNode.mk "n1" "note" None None None None None None in
  let data := mkData [old; note] [LinkEdge.mk "e1" "b0" "n1" None] in
  let data' := updateVisualizationData [b1] data in
  edges data' = edges data /\
  (forall n, In n (nodes data') -> refersToBookmark n = true ->
             exists b, In b [b1] /\ LinkNode.bookmarkId n = Some (Bookmark.id b)) /\
  (forall n, In n (nodes data) ->
             (refersToBookmark n = false \/
              exists b, In b [b1] /\ LinkNode.bookmarkId n = Some (Bookmark.id b)) ->
             In n (nodes data')) /\
  ((forall n, In n (nodes data) -> refersToBookmark n = true ->
              LinkNode.bookmarkId n = Some (LinkNode.id n)) ->
   forall b, In b [b1] ->
             exists n, In n (nodes data') /\ LinkNode.id n = Bookmark.id b).
Proof.
  intros b1 old note data.
  apply (updateVisualizationData_nodes [b1] data).
Defined.

(** X21. [deleteNode] takes out the nodes with the id and every edge from
    or to that id, so that a graph whose edges all go between its nodes
    stays one; [deleteEdge] takes out the edges with the id and keeps that
    property too. *)
Theorem deleteNode_leaves_no_dangling_edge {C : Type} (nodeId : string)
    (data : VisualizationData C) :
  (forall n, In n (nodes (deleteNode nodeId data)) -> LinkNode.id n <> nodeId) /\
  (forall e, In e (edges (deleteNode nodeId data)) ->
             LinkEdge.source e <> nodeId /\ LinkEdge.target e <> nodeId) /\
  (EdgesResolved data -> EdgesResolved (deleteNode nodeId data)) /\
  (forall edgeId, EdgesResolved data -> EdgesResolved (deleteEdge edgeId data)).
Proof.
  assert (Hedge : forall e, In e (edges (deleteNode nodeId data)) ->
                    In e (edges data) /\
                    LinkEdge.source e <> nodeId /\ LinkEdge.target e <> nodeId).
  { simpl. intros e He. apply filter_In in He as [He Hk].
    apply andb_prop in Hk as [Hs Ht].
    apply negb_true_iff, String.eqb_neq in Hs. apply negb_true_iff, String.eqb_neq in Ht.
    auto. }
  split; [|split; [|split]].
  - simpl. intros n Hn. apply filter_In in Hn as [_ Hk].
    now apply negb_true_iff, String.eqb_neq in Hk.
  - intros e He. now apply Hedge.
  - intros Hres e He. apply Hedge in He as (He & Hs & Ht).
    destruct (Hres e He) as [(n & Hn & En) (m & Hm & Em)]. simpl. split.
    + exists n. split; [|exact En]. apply filter_In. split; [exact Hn|].
      apply negb_true_iff, String.eqb_neq. congruence.
    + exists m. split; [|exact Em]. apply filter_In. split; [exact Hm|].
      apply negb_true_iff, String.eqb_neq. congruence.
  - intros edgeId Hres e He. simpl in *. apply filter_In in He as [He _].
    now apply Hres.
Qed.

Lemma deleteNode_leaves_no_dangling_edge_witness :
  let a : LinkNode.t Z := LinkNode.mk "a" "A" None None None None None None in
  let b : LinkNode.t Z := LinkNode.mk "b" "B" None None None None None None in
  let data := mkData [a; b] [LinkEdge.mk "e1" "a" "b" None] in
  EdgesResolved (deleteNode "a" data).
Proof.
  intros a b data.
  apply (deleteNode_leaves_no_dangling_edge "a" data).
  intros e [<-|[]]. simpl. split; [exists a | exists b]; auto.
Defined.

(** ** When the forest is kept *)

(** a list whose groups take their id and parent from those of a forest *)
Lemma acyclic_from (gs gs' : list Group.t) :
  (forall g', In g' gs' ->
              exists g, In g gs /\ Group.id g = Group.id g' /\
                        Group.parentId g = Group.parentId g') ->
  Acyclic gs -> Acyclic gs'.
Proof.
  intros H [rank Hrank]. exists rank. intros g' p Hg' Hp.
  destruct (H g' Hg') as (g & Hg & Hid & Hpar).
  rewrite <- Hid. apply (Hrank g p Hg). congruence.
Qed.

Lemma updFirst_from {A : Type} (p : A -> bool) (f : A -> A) (l : list A) (y : A) :
  In y (updFirst p f l) -> In y l \/ exists x, In x l /\ y = f x.
Proof.
  induction l as [|x t IH]; simpl; [tauto|].
  destruct (p x); simpl.
  - intros [<-|Hy]; eauto.
  - intros [<-|Hy]; [auto|]. destruct (IH Hy) as [H|(z & Hz & ->)]; eauto.
Qed.

Lemma updAt_from {A : Type} (i : nat) (f : A -> A) (l : list A) (y : A) :
  In y (updAt i f l) -> In y l \/ exists x, In x l /\ y = f x.
Proof.
  revert i. induction l as [|x t IH]; intros [|i]; simpl; try tauto.
  - intros [<-|Hy]; eauto.
  - intros [<-|Hy]; [auto|]. destruct (IH i Hy) as [H|(z & Hz & ->)]; eauto.
Qed.

(** the ids below a group of a forest can be told by a function *)
Lemma descendants_decided (gs : list Group.t) (gx : Group.t) :
  UniqueIds gs -> Acyclic gs -> In gx gs ->
  exists r : string -> bool,
    forall y, r y = true <-> Descendant gs (Group.id gx) y.
Proof.
  intros Hu [rank Hrank] Hgx.
  destruct (removeGroup_subtree gs rank Hrank Hu (S (rank (Group.id gx))) gx
              (mkState [] gs) (fun _ => false))
    as (st' & r & _ & Hr & _); auto.
  - symmetry. apply filter_all. reflexivity.
  - intros g p _ _ H. exact H.
  - intros b y [].
  - exists r. intros y. rewrite Hr. intuition discriminate.
Qed.

(** X22. The parent links stay without a cycle under [renameGroup],
    [setGroupAsDefault], [moveGroupRelative] and [removeGroup]; under
    [createGroup] when the generated id is new, also as a [parentId]; and
    under [moveGroupToParent] when the ids are distinct and the new parent
    is not the moving group or one of its descendants. *)
Theorem forest_kept (st : State) :
  Acyclic (groups st) ->
  (forall groupId newName, Acyclic (groups (snd (renameGroup groupId newName st)))) /\
  (forall groupId, Acyclic (groups (setGroupAsDefault groupId st))) /\
  (forall groupId delta, Acyclic (groups (snd (moveGroupRelative groupId delta st)))) /\
  (forall fuel groupId st',
      removeGroup fuel groupId st = Some st' -> Acyclic (groups st')) /\
  (forall newId now groupName isDefault parentId,
      (forall g, In g (groups st) ->
                 Group.id g <> newId /\ Group.parentId g <> Some newId) ->
      parentId <> Some newId ->
      Acyclic (groups (snd (createGroup newId now groupName isDefault parentId st)))) /\
  (forall groupId newParentId insertBefore,
      UniqueIds (groups st) ->
      (forall p, newParentId = Some p -> ~ Descendant (groups st) groupId p) ->
      Acyclic (groups (moveGroupToParent groupId newParentId insertBefore st))).
Proof.
  intros Hac. split; [|split; [|split; [|split; [|split]]]].
  - intros x n. apply (acyclic_from (groups st)); [|exact Hac].
    unfold renameGroup. destruct (find _ (groups st)); [|eauto].
    destruct (existsb _ _); simpl; [eauto|].
    intros g' Hg'. apply updFirst_from in Hg' as [H|(g & Hg & ->)]; eauto.
  - intros x. apply (acyclic_from (groups st)); [|exact Hac].
    assert (Hc : forall g', In g' (map (Group.setIsDefault false) (groups st)) ->
                   exists g, In g (groups st) /\ Group.id g = Group.id g' /\
                             Group.parentId g = Group.parentId g').
    { intros g' Hg'. apply in_map_iff in Hg' as (g & <- & Hg). eauto. }
    unfold setGroupAsDefault. destruct (find _ _); simpl; [|exact Hc].
    intros g' Hg'.
    apply updFirst_from in Hg' as [H|(g1 & Hg1 & ->)];
      [apply updFirst_from in H as [H|(g2 & Hg2 & ->)]
      |apply updFirst_from in Hg1 as [H|(g2 & Hg2 & ->)]];
      try (destruct (Hc _ H) as (g & Hg & Hi & Hp); exists g; now repeat split);
      destruct (Hc _ Hg2) as (g & Hg & Hi & Hp); exists g; now repeat split.
  - intros x d. apply (acyclic_from (groups st)); [|exact Hac].
    unfold moveGroupRelative. destruct (find _ (groups st)); [|eauto].
    destruct (findIndex _ _); [|eauto]. destruct (_ || _); [eauto|].
    destruct (nth_error _ _) as [[ia a]|]; [|eauto].
    destruct (nth_error _ _) as [[ib b]|]; [|eauto].
    simpl. intros g' Hg'.
    apply updAt_from in Hg' as [H|(g1 & Hg1 & ->)];
      [apply updAt_from in H as [H|(g2 & Hg2 & ->)]
      |apply updAt_from in Hg1 as [H|(g2 & Hg2 & ->)]]; eauto.
  - intros fuel x st' H. apply (acyclic_from (groups st)); [|exact Hac].
    destruct (removeGroup_only_filters _ _ _ _ H) as [keep ->].
    intros g' Hg'. apply filter_In in Hg' as [Hg' _]. eauto.
  - intros newId now n d p Hnew Hp. unfold createGroup.
    destruct (truthy n); simpl; [|exact Hac].
    destruct (existsb _ _); simpl; [exact Hac|].
    destruct Hac as [rank Hrank].
    exists (fun y => if String.eqb y newId then 0%nat else S (rank y)).
    intros g q Hg Hq. apply in_app_or in Hg as [Hg|[<-|[]]].
    + assert (Hold : exists g0, In g0 (groups st) /\ Group.id g0 = Group.id g /\
                                Group.parentId g0 = Group.parentId g).
      { destruct d; [|eauto]. apply in_map_iff in Hg as (g0 & <- & Hg0). eauto. }
      destruct Hold as (g0 & Hg0 & Hi & Hpar). destruct (Hnew g0 Hg0) as [Hid Hnp].
      rewrite <- Hi. rewrite <- Hpar in Hq.
      apply String.eqb_neq in Hid. rewrite Hid.
      destruct (String.eqb_spec q newId) as [->|_]; [congruence|].
      specialize (Hrank g0 q Hg0 Hq). lia.
    + simpl in *. subst p. rewrite String.eqb_refl.
      destruct (String.eqb_spec q newId) as [->|_]; [congruence | lia].
  - intros x p ib Hu Hnot.
    destruct (find (fun g => String.eqb (Group.id g) x) (groups st)) as [mg|] eqn:Ef;
      [|unfold moveGroupToParent; now rewrite Ef].
    pose proof (find_some _ _ Ef) as [Hmg Hid]. apply String.eqb_eq in Hid.
    destruct (moveGroupToParent_cases x p ib st mg Ef) as [E|[_ P]].
    + rewrite E. apply (acyclic_from (groups st)); [|exact Hac].
      intros g' Hg'. apply filter_In in Hg' as [Hg' _]. eauto.
    + destruct (descendants_decided (groups st) mg Hu Hac Hmg) as [r Hr].
      rewrite Hid in Hr. destruct Hac as [rank Hrank].
      exists (fun y => if r y then rank y else (rank y + rank x + 1)%nat).
      intros g' q Hg' Hq.
      assert (Hm : In (groupButPriority g')
                      (map groupButPriority
                           (Group.setParentId p mg
                            :: filter (fun g => negb (String.eqb (Group.id g) x))
                                      (groups st)))).
      { apply (Permutation_in _ P). now apply in_map. }
      simpl in Hm. destruct Hm as [E|Hm].
      * assert (Hi : Group.id g' = x)
          by (change (Group.id (groupButPriority g') = x); now rewrite <- E).
        assert (Hp : Group.parentId g' = p)
          by (change (Group.parentId (groupButPriority g') = p); now rewrite <- E).
        rewrite Hi. rewrite Hp in Hq.
        replace (r x) with true by (symmetry; apply Hr; constructor).
        destruct (r q) eqn:Rq; [|lia].
        apply Hr in Rq. now destruct (Hnot q Hq).
      * apply in_map_iff in Hm as (g1 & E & Hg1).
        apply filter_In in Hg1 as [Hg1 Hne]. apply negb_true_iff, String.eqb_neq in Hne.
        assert (Hi : Group.id g1 = Group.id g')
          by (change (Group.id (groupButPriority g1) = Group.id (groupButPriority g'));
              now rewrite E).
        assert (Hp : Group.parentId g1 = Some q)
          by (change (Group.parentId (groupButPriority g1) = Some q);
              rewrite E; exact Hq).
        rewrite <- Hi. pose proof (Hrank g1 q Hg1 Hp) as Hlt.
        destruct (r (Group.id g1)) eqn:Rg, (r q) eqn:Rq; try lia.
        apply Hr in Rq. exfalso.
        assert (D : Descendant (groups st) x (Group.id g1))
          by now apply Desc_child with (p := q).
        apply Hr in D. congruence.
Qed.

Lemma forest_kept_witness :
  let a := Group.mk "a" "Work" false 1%Z None (Some 1%Z) in
  let b := Group.mk "b" "Notes" false 2%Z (Some "a") (Some 2%Z) in
  let c := Group.mk "c" "Home" false 3%Z None (Some 3%Z) in
  let st := mkState [] [a; b; c] in
  Acyclic (groups (moveGroupToParent "a" (Some "c") None st)) /\
  Acyclic (groups (snd (createGroup "d" 4%Z "Deep" false (Some "b") st))).
Proof.
  intros a b c st.
  assert (Hac : Acyclic (groups st)).
  { exists (fun s => if String.eqb s "a" then 1%nat else 0%nat).
    intros g p [<-|[<-|[<-|[]]]]; simpl; intros E; inversion E; subst; simpl; lia. }
  split.
  - apply (forest_kept st Hac).
    + unfold UniqueIds. simpl. repeat constructor; simpl; intuition discriminate.
    + intros p E D. inversion E; subst p.
      inversion D as [Heq|g q Hg Hq Hd Heq].
      destruct Hg as [<-|[<-|[<-|[]]]]; simpl in *; discriminate.
  - apply (forest_kept st Hac).
    + intros g [<-|[<-|[<-|[]]]]; simpl; split; discriminate.
    + discriminate.
Defined.
